(** * Night Walk canvas: capture controller and frame renderer

    A shallow embedding of [night-walk/src/components/night-walk-canvas.tsx].

    - [Capture]: the [NightWalkCanvas] component's recording logic
      ([handleRecord], the three [MediaRecorder] handlers, the timeout
      callback and the [downloadUrl] effect clean-up) as transitions on an
      explicit state made of the component's [useState] cells, its refs and
      the part of the browser the handlers talk to.
    - [Js], [Scene]: JavaScript numbers, the constants, the two datasets
      and the animation clock of [draw].
    - [Canvas], [Render]: the 2D drawing context and the drawing routines,
      each routine being the list of canvas calls it makes.
    - [Page]: what the component renders and what happens when it is
      removed; [Surface]: the canvas element, its sizing and the animation
      loop of the first effect; [CanvasRules]: what the 2D context accepts.
    - [CaptureFacts], [RenderFacts]: the properties proved of them;
      [CaptureExtras], [RenderExtras]: further properties, of the
      controller, of the loop and of each drawing routine.

    JavaScript numbers are modelled as exact rationals ([Q]); the rounding of
    binary64 arithmetic is not modelled. *)

From Stdlib Require Import NArith ZArith QArith Qround Qabs Qminmax Lia Lqa.
From stdpp Require Import base option list strings.

Local Open Scope nat_scope.

(** ** Capture controller *)

Module Capture.

(** [type RecorderState = 'idle' | 'recording'] (line 5). *)
Inductive RecorderState := idle | recording.

(** [MediaRecorder.state]; the component never pauses a recorder. *)
Inductive RecordingState := rs_inactive | rs_recording.

#[export] Instance RecorderState_eq_dec : EqDecision RecorderState.
Proof. solve_decision. Defined.
#[export] Instance RecordingState_eq_dec : EqDecision RecordingState.
Proof. solve_decision. Defined.

(** A [Blob]: its bytes and its MIME type; [size] is the number of bytes. *)
Record Blob := { blob_data : list Byte.byte; blob_type : string }.

Definition size (b : Blob) : nat := length (blob_data b).

(** [new Blob(chunks, { type })]: the parts, concatenated in array order. *)
Definition new_Blob (parts : list Blob) (type : string) : Blob :=
  {| blob_data := concat (map blob_data parts); blob_type := type |}.

(** Object URLs are minted from a counter ([URL.createObjectURL] never
    returns the same URL twice), so they are never the empty string. *)
Definition Url := nat.

(** One [MediaRecorder] object created by [handleRecord], together with the
    [chunks] array that its handlers close over (line 135).
    [rec_stop_queued] says that [stop()] has queued the task that will fire
    [dataavailable] and then [stop]. *)
Record Recorder := {
  rec_state : RecordingState;
  rec_stop_queued : bool;
  chunks : list Blob
}.

(** A timer armed by [window.setTimeout]; its callback closes over the
    recorder of the session that armed it (line 178). *)
Record Timer := { tm_recorder : nat; tm_armed : bool }.

(** What the canvas element offers: ['captureStream' in canvas]. *)
Record Canvas := { has_captureStream : bool }.

(** Calls into the browser (and runs of [onstop]), logged in [history] with
    the most recent first. *)
Inductive Effect :=
| FxCaptureStream (fps : N)
| FxNewRecorder (r : nat) (mimeType : string) (videoBitsPerSecond : N)
| FxStart (r : nat)
| FxStop (r : nat)                  (* stop() on a recording recorder *)
| FxStopIgnored (r : nat)           (* stop() on an inactive recorder *)
| FxOnStop (r : nat)                (* the onstop handler ran *)
| FxCreateObjectURL (u : Url) (b : Blob)
| FxRevokeObjectURL (u : Url)
| FxSetTimeout (h : nat) (ms : N)
| FxClearTimeout (h : nat)
| FxConsoleError.

Record State := {
  (* useState cells *)
  recorderState : RecorderState;
  downloadUrl : option Url;
  message : string;
  (* refs *)
  recorderRef : option nat;
  pendingTimeoutRef : option nat;
  canvasRef : option Canvas;
  (* browser *)
  recorders : list Recorder;
  timers : list Timer;
  objectUrls : list (Url * Blob);
  urlCounter : nat;
  history : list Effect
}.

(** *** Field updates *)

Definition setRecorderState (v : RecorderState) (s : State) : State :=
  {| recorderState := v; downloadUrl := downloadUrl s; message := message s;
     recorderRef := recorderRef s; pendingTimeoutRef := pendingTimeoutRef s;
     canvasRef := canvasRef s; recorders := recorders s; timers := timers s;
     objectUrls := objectUrls s; urlCounter := urlCounter s;
     history := history s |}.

Definition put_downloadUrl (v : option Url) (s : State) : State :=
  {| recorderState := recorderState s; downloadUrl := v; message := message s;
     recorderRef := recorderRef s; pendingTimeoutRef := pendingTimeoutRef s;
     canvasRef := canvasRef s; recorders := recorders s; timers := timers s;
     objectUrls := objectUrls s; urlCounter := urlCounter s;
     history := history s |}.

Definition setMessage (v : string) (s : State) : State :=
  {| recorderState := recorderState s; downloadUrl := downloadUrl s;
     message := v;
     recorderRef := recorderRef s; pendingTimeoutRef := pendingTimeoutRef s;
     canvasRef := canvasRef s; recorders := recorders s; timers := timers s;
     objectUrls := objectUrls s; urlCounter := urlCounter s;
     history := history s |}.

Definition set_recorderRef (v : option nat) (s : State) : State :=
  {| recorderState := recorderState s; downloadUrl := downloadUrl s;
     message := message s;
     recorderRef := v; pendingTimeoutRef := pendingTimeoutRef s;
     canvasRef := canvasRef s; recorders := recorders s; timers := timers s;
     objectUrls := objectUrls s; urlCounter := urlCounter s;
     history := history s |}.

Definition set_pendingTimeoutRef (v : option nat) (s : State) : State :=
  {| recorderState := recorderState s; downloadUrl := downloadUrl s;
     message := message s;
     recorderRef := recorderRef s; pendingTimeoutRef := v;
     canvasRef := canvasRef s; recorders := recorders s; timers := timers s;
     objectUrls := objectUrls s; urlCounter := urlCounter s;
     history := history s |}.

Definition set_recorders (v : list Recorder) (s : State) : State :=
  {| recorderState := recorderState s; downloadUrl := downloadUrl s;
     message := message s;
     recorderRef := recorderRef s; pendingTimeoutRef := pendingTimeoutRef s;
     canvasRef := canvasRef s; recorders := v; timers := timers s;
     objectUrls := objectUrls s; urlCounter := urlCounter s;
     history := history s |}.

Definition set_timers (v : list Timer) (s : State) : State :=
  {| recorderState := recorderState s; downloadUrl := downloadUrl s;
     message := message s;
     recorderRef := recorderRef s; pendingTimeoutRef := pendingTimeoutRef s;
     canvasRef := canvasRef s; recorders := recorders s; timers := v;
     objectUrls := objectUrls s; urlCounter := urlCounter s;
     history := history s |}.

Definition set_objectUrls (v : list (Url * Blob)) (s : State) : State :=
  {| recorderState := recorderState s; downloadUrl := downloadUrl s;
     message := message s;
     recorderRef := recorderRef s; pendingTimeoutRef := pendingTimeoutRef s;
     canvasRef := canvasRef s; recorders := recorders s; timers := timers s;
     objectUrls := v; urlCounter := urlCounter s;
     history := history s |}.

Definition set_urlCounter (v : nat) (s : State) : State :=
  {| recorderState := recorderState s; downloadUrl := downloadUrl s;
     message := message s;
     recorderRef := recorderRef s; pendingTimeoutRef := pendingTimeoutRef s;
     canvasRef := canvasRef s; recorders := recorders s; timers := timers s;
     objectUrls := objectUrls s; urlCounter := v;
     history := history s |}.

Definition record_effect (e : Effect) (s : State) : State :=
  {| recorderState := recorderState s; downloadUrl := downloadUrl s;
     message := message s;
     recorderRef := recorderRef s; pendingTimeoutRef := pendingTimeoutRef s;
     canvasRef := canvasRef s; recorders := recorders s; timers := timers s;
     objectUrls := objectUrls s; urlCounter := urlCounter s;
     history := e :: history s |}.

(** *** The status texts, as the source spells them *)

Definition msg_initial : string :=
  "Enjoy the nighttime walk. Record a clip when you are ready.".
Definition msg_unsupported : string :=
  "Recording isn't supported in this browser.".
Definition msg_recording : string :=
  "Recording in progress… capturing a 10 second loop.".
Definition msg_no_data : string :=
  "No data captured. Try recording again.".
Definition msg_ready : string :=
  "Clip ready! Use the download button to save your video.".
Definition msg_failed : string :=
  "Recording failed. Please try again or use a different browser.".
Definition msg_unavailable : string :=
  "Recording is unavailable. Check browser support for MediaRecorder.".

(** *** Browser operations *)

(** [recorder.stop()]. On a recording recorder the state becomes
    ['inactive'] at once and a task is queued that fires [dataavailable]
    and then [stop]; on an inactive recorder the call returns without
    doing anything (MediaStream Recording, [stop()] step 2). *)
Definition recorder_stop (r : nat) (s : State) : State :=
  match recorders s !! r with
  | Some rc =>
      match rec_state rc with
      | rs_recording =>
          record_effect (FxStop r)
            (set_recorders
               (<[r := {| rec_state := rs_inactive; rec_stop_queued := true;
                          chunks := chunks rc |}]> (recorders s)) s)
      | rs_inactive => record_effect (FxStopIgnored r) s
      end
  | None => s
  end.

(** [URL.createObjectURL(blob)]: a fresh URL, kept alive by the browser
    until it is revoked. *)
Definition createObjectURL (b : Blob) (s : State) : Url * State :=
  let u := S (urlCounter s) in
  (u, record_effect (FxCreateObjectURL u b)
        (set_objectUrls (objectUrls s ++ [(u, b)]) (set_urlCounter u s))).

(** [URL.revokeObjectURL(url)]: releases the storage behind [url]; a URL
    that is not registered is ignored. *)
Definition revokeObjectURL (u : Url) (s : State) : State :=
  record_effect (FxRevokeObjectURL u)
    (set_objectUrls
       (filter (λ ub, bool_decide (fst ub ≠ u)) (objectUrls s)) s).

(** [window.setTimeout(callback, ms)] where the callback closes over
    recorder [r]. Handles are positive: handle [h] is entry [h - 1]. *)
Definition setTimeout (r : nat) (ms : N) (s : State) : nat * State :=
  let h := S (length (timers s)) in
  (h, record_effect (FxSetTimeout h ms)
        (set_timers (timers s ++ [{| tm_recorder := r; tm_armed := true |}]) s)).

(** [window.clearTimeout(h)]: the timer will not fire; an unknown or
    already spent handle is ignored. *)
Definition clearTimeout (h : nat) (s : State) : State :=
  record_effect (FxClearTimeout h)
    (match h with
     | O => s
     | S i =>
         match timers s !! i with
         | Some t =>
             set_timers
               (<[i := {| tm_recorder := tm_recorder t; tm_armed := false |}]>
                  (timers s)) s
         | None => s
         end
     end).

(** [recorder.start()]: the recorder starts gathering data. No timeslice is
    passed, so the browser is free to deliver the data in one piece. *)
Definition recorder_start (r : nat) (s : State) : State :=
  match recorders s !! r with
  | Some rc =>
      record_effect (FxStart r)
        (set_recorders
           (<[r := {| rec_state := rs_recording;
                      rec_stop_queued := rec_stop_queued rc;
                      chunks := chunks rc |}]> (recorders s)) s)
  | None => s
  end.

(** *** The handlers of one session (lines 150-180) *)

Definition session_chunks (r : nat) (s : State) : list Blob :=
  match recorders s !! r with
  | Some rc => chunks rc
  | None => []
  end.

(** [recorder.ondataavailable]: [if (event.data.size > 0) chunks.push(event.data)]. *)
Definition ondataavailable (r : nat) (data : Blob) (s : State) : State :=
  if decide (0 < size data) then
    match recorders s !! r with
    | Some rc =>
        set_recorders
          (<[r := {| rec_state := rec_state rc;
                     rec_stop_queued := rec_stop_queued rc;
                     chunks := chunks rc ++ [data] |}]> (recorders s)) s
    | None => s
    end
  else s.

(** [recorder.onstop] (lines 156-168). *)
Definition onstop (r : nat) (s : State) : State :=
  let s := record_effect (FxOnStop r) s in
  let cs := session_chunks r s in
  if decide (length cs = 0) then
    setRecorderState idle (setMessage msg_no_data s)
  else
    let blob := new_Blob cs "video/webm" in
    let '(url, s) := createObjectURL blob s in
    let s := put_downloadUrl (Some url) s in
    let s := setMessage msg_ready s in
    setRecorderState idle s.

(** [recorder.onerror] (lines 170-173). *)
Definition onerror (s : State) : State :=
  setRecorderState idle (setMessage msg_failed s).

(** The callback given to [window.setTimeout] (lines 177-180). *)
Definition timeout_callback (r : nat) (s : State) : State :=
  set_pendingTimeoutRef None (recorder_stop r s).

(** The updater given to [setDownloadUrl] at the start of a session
    (lines 145-148): [(current) => { if (current) revoke(current); return null }]. *)
Definition release_downloadUrl (s : State) : State :=
  match downloadUrl s with
  | Some current => put_downloadUrl None (revokeObjectURL current s)
  | None => put_downloadUrl None s
  end.

(** *** [handleRecord] (lines 120-185)

    [ctor_ok] is the browser's answer to [new MediaRecorder(stream, ...)]:
    [false] when the constructor throws. Once the recorder exists,
    [recorder.start()] is taken to succeed. The updater passed to
    [setDownloadUrl] is applied where it is queued; nothing between that
    point and the render reads [downloadUrl]. *)
Definition handleRecord (ctor_ok : bool) (s : State) : State :=
  match canvasRef s with
  | None => s
  | Some canvas =>
      if negb (has_captureStream canvas) then setMessage msg_unsupported s
      else
        match recorderState s with
        | recording =>
            match recorderRef s with
            | Some r => recorder_stop r s
            | None => s
            end
        | idle =>
            let s := record_effect (FxCaptureStream 60) s in
            if ctor_ok then
              let r := length (recorders s) in
              let s :=
                record_effect (FxNewRecorder r "video/webm;codecs=vp9" 4000000)
                  (set_recorders
                     (recorders s ++
                        [{| rec_state := rs_inactive; rec_stop_queued := false;
                            chunks := [] |}]) s) in
              let s := set_recorderRef (Some r) s in
              let s := setRecorderState recording s in
              let s := setMessage msg_recording s in
              let s := release_downloadUrl s in
              let s := recorder_start r s in
              let '(h, s) := setTimeout r 10000 s in
              set_pendingTimeoutRef (Some h) s
            else
              setMessage msg_unavailable (record_effect FxConsoleError s)
        end
  end.

(** *** The [downloadUrl] effect (lines 106-118)

    [useEffect(() => cleanup, [downloadUrl])]: React runs the clean-up of the
    previous render's effect whenever [downloadUrl] differs from its value
    at that render. The clean-up closes over that earlier value and reads
    the two refs when it runs. *)
Definition effect_cleanup (closure_downloadUrl : option Url) (s : State) : State :=
  let s :=
    match recorderRef s with
    | Some r =>
        match recorders s !! r with
        | Some rc =>
            match rec_state rc with
            | rs_recording => recorder_stop r s
            | rs_inactive => s
            end
        | None => s
        end
    | None => s
    end in
  let s :=
    match pendingTimeoutRef s with
    | Some (S i) => clearTimeout (S i) s
    | _ => s
    end in
  match closure_downloadUrl with
  | Some u => revokeObjectURL u s
  | None => s
  end.

(** The render that follows a handler: effects whose dependencies changed
    are cleaned up. [prev] is the state at the previous render. *)
Definition commit (prev s : State) : State :=
  if decide (downloadUrl prev = downloadUrl s) then s
  else effect_cleanup (downloadUrl prev) s.

(** *** Events

    Everything runs on one thread; each event is one task, followed by the
    render it causes.
    - [Click]: the user activates the record button.
    - [TimerFires h]: the timer with handle [h] expires.
    - [DataAvailable r data]: recorder [r] delivers [data] while recording.
    - [StopTask r data]: the task queued by [stop()] runs: it fires
      [dataavailable] with the remaining [data], then [stop].
    - [ErrorTask r data]: recorder [r] fails; in one task the browser
      inactivates it and fires [error], [dataavailable] and [stop]. *)
Inductive Event :=
| Click (ctor_ok : bool)
| TimerFires (h : nat)
| DataAvailable (r : nat) (data : Blob)
| StopTask (r : nat) (data : Blob)
| ErrorTask (r : nat) (data : Blob).

Definition put_recorder (r : nat) (st : RecordingState) (queued : bool)
    (s : State) : State :=
  set_recorders
    (<[r := {| rec_state := st; rec_stop_queued := queued;
               chunks := session_chunks r s |}]> (recorders s)) s.

Definition spend_timer (i : nat) (t : Timer) (s : State) : State :=
  set_timers
    (<[i := {| tm_recorder := tm_recorder t; tm_armed := false |}]> (timers s)) s.

(** The task that ends session [r]: the recorder is inactive and nothing
    is queued any more; the browser fires [error] first when the recorder
    failed, then [dataavailable] with the remaining [data], then [stop]. *)
Definition end_session (errored : bool) (r : nat) (data : Blob)
    (s : State) : State :=
  let s := put_recorder r rs_inactive false s in
  let s := if errored then onerror s else s in
  onstop r (ondataavailable r data s).

(** [step e s] is [None] when the browser cannot produce [e] in [s]. *)
Definition step (e : Event) (s : State) : option State :=
  match e with
  | Click ctor_ok => Some (commit s (handleRecord ctor_ok s))
  | TimerFires h =>
      match h with
      | O => None
      | S i =>
          match timers s !! i with
          | Some t =>
              if tm_armed t
              then Some (commit s (timeout_callback (tm_recorder t)
                                     (spend_timer i t s)))
              else None
          | None => None
          end
      end
  | DataAvailable r data =>
      match recorders s !! r with
      | Some rc =>
          match rec_state rc with
          | rs_recording => Some (commit s (ondataavailable r data s))
          | rs_inactive => None
          end
      | None => None
      end
  | StopTask r data =>
      match recorders s !! r with
      | Some rc =>
          if rec_stop_queued rc
          then Some (commit s (end_session false r data s))
          else None
      | None => None
      end
  | ErrorTask r data =>
      match recorders s !! r with
      | Some rc =>
          match rec_state rc with
          | rs_recording => Some (commit s (end_session true r data s))
          | rs_inactive => None
          end
      | None => None
      end
  end.

Fixpoint run (es : list Event) (s : State) : option State :=
  match es with
  | [] => Some s
  | e :: es' =>
      match step e s with
      | Some s' => run es' s'
      | None => None
      end
  end.

(** The component as mounted: [useState] initial values, empty refs. *)
Definition mount (canvas : option Canvas) : State :=
  {| recorderState := idle; downloadUrl := None; message := msg_initial;
     recorderRef := None; pendingTimeoutRef := None; canvasRef := canvas;
     recorders := []; timers := []; objectUrls := []; urlCounter := 0;
     history := [] |}.

Inductive reachable : State → Prop :=
| reachable_mount canvas : reachable (mount canvas)
| reachable_step e s s' : reachable s → step e s = Some s' → reachable s'.

(** *** Observations *)

(** The encoder sessions that are open: recorders in state ['recording']. *)
Definition open_sessions (s : State) : list Recorder :=
  filter (λ rc, rec_state rc = rs_recording) (recorders s).

Definition is_onstop (r : nat) (e : Effect) : bool :=
  match e with FxOnStop r' => bool_decide (r' = r) | _ => false end.

Definition is_createObjectURL (e : Effect) : bool :=
  match e with FxCreateObjectURL _ _ => true | _ => false end.

Definition is_newRecorder (e : Effect) : bool :=
  match e with FxNewRecorder _ _ _ => true | _ => false end.

Definition is_any_onstop (e : Effect) : bool :=
  match e with FxOnStop _ => true | _ => false end.

Definition count_effects (p : Effect → bool) (s : State) : nat :=
  length (filter (λ e, p e = true) (history s)).

(** How often the [onstop] handler of session [r] has run. *)
Definition onstop_count (r : nat) (s : State) : nat :=
  count_effects (is_onstop r) s.

(** How often any [onstop] handler has run. *)
Definition onstop_total (s : State) : nat := count_effects is_any_onstop s.

(** How many object URLs have been minted so far. *)
Definition minted_count (s : State) : nat :=
  count_effects is_createObjectURL s.

(** The buffer that [onstop] of session [r] will find when the stop task
    delivers [data] last. *)
Definition final_chunks (r : nat) (data : Blob) (s : State) : list Blob :=
  session_chunks r s ++ (if decide (0 < size data) then [data] else []).

Definition timer_armed (h : nat) (s : State) : bool :=
  match h with
  | O => false
  | S i => match timers s !! i with Some t => tm_armed t | None => false end
  end.

(** Timer [i] was armed once and is now spent or cancelled. *)
Definition disarmed (i : nat) (s : State) : Prop :=
  ∃ t, timers s !! i = Some t ∧ tm_armed t = false.

(** *** The invariant of the controller

    A recorder is unfinished while it records or while its stop task is
    still queued. *)
Definition unfinished (rc : Recorder) : Prop :=
  rec_state rc = rs_recording ∨ rec_stop_queued rc = true.

(** A resource assembled from at least one chunk, all of positive size. *)
Definition assembled (b : Blob) : Prop :=
  ∃ cs, cs ≠ [] ∧ Forall (λ c, 0 < size c) cs ∧ b = new_Blob cs "video/webm".

Record session_inv (st : RecorderState) (url : option Url) (ref : option nat)
    (canvas : option Canvas) (rcs : list Recorder)
    (live : list (Url * Blob)) : Prop := {
  (* only the recorder in [recorderRef] can be unfinished, and only while
     the component shows 'recording' *)
  inv_current : ∀ i rc, rcs !! i = Some rc → unfinished rc →
                st = recording ∧ ref = Some i;
  inv_exclusive : ∀ i rc, rcs !! i = Some rc →
                  rec_state rc = rs_recording → rec_stop_queued rc = false;
  (* no download is on offer during a session *)
  inv_no_url : st = recording → url = None;
  (* the browser keeps alive exactly the URL on offer *)
  inv_live : map fst live = option_list url;
  inv_blobs : Forall (λ ub, assembled ub.2) live;
  inv_chunks : ∀ i rc, rcs !! i = Some rc →
               Forall (λ b, 0 < size b) (chunks rc);
  inv_canvas : st = recording →
               ∃ cv, canvas = Some cv ∧ has_captureStream cv = true
}.

(** No recorder is recording and no stop task is queued. *)
Definition quiescent (s : State) : Prop :=
  ∀ i rc, recorders s !! i = Some rc → ¬ unfinished rc.

(** Effects that neither run an [onstop] handler nor mint a URL. *)
Definition quiet (e : Effect) : Prop :=
  match e with
  | FxOnStop _ | FxCreateObjectURL _ _ => False
  | _ => True
  end.

(** [1] for a session that has finished, [0] for one in progress or not
    yet created. *)
Definition done_count (r : nat) (s : State) : nat :=
  match recorders s !! r with
  | Some rc => if decide (unfinished rc) then 0 else 1
  | None => 0
  end.

(** A transition that finishes no session: it logs only quiet effects and
    leaves every session as finished or unfinished as it was. *)
Definition calm (s s' : State) : Prop :=
  (∃ d, history s' = d ++ history s ∧ Forall quiet d) ∧
  (∀ r, done_count r s' = done_count r s).

(** Each finished session has seen exactly one [onstop], each other
    session none; and no more URLs were minted than [onstop] handlers ran. *)
Definition Tally (s : State) : Prop :=
  (∀ r, onstop_count r s = done_count r s) ∧
  minted_count s ≤ onstop_total s.

Definition Inv (s : State) : Prop :=
  session_inv (recorderState s) (downloadUrl s) (recorderRef s) (canvasRef s)
    (recorders s) (objectUrls s).

(** *** Sample inputs

    A canvas with and one without [captureStream], a chunk of four bytes
    and an empty chunk, for the concrete instances of the theorems. *)
Definition demo_canvas : option Canvas := Some {| has_captureStream := true |}.
Definition plain_canvas : option Canvas := Some {| has_captureStream := false |}.
Definition demo_chunk : Blob :=
  {| blob_data := [Byte.x1a; Byte.x45; Byte.xdf; Byte.xa3];
     blob_type := "video/webm;codecs=vp9" |}.
Definition empty_chunk : Blob :=
  {| blob_data := []; blob_type := "video/webm;codecs=vp9" |}.

End Capture.

(** ** JavaScript numbers *)

Module Js.

Local Open Scope Q_scope.

(** Rounding towards zero, as the remainder operator needs it. *)
Definition Qtrunc (q : Q) : Z := Z.quot (Qnum q) (Z.pos (Qden q)).

(** [a % b]: the remainder takes the sign of the dividend. No divisor in
    this program is zero. *)
Definition rem (a b : Q) : Q := a - b * inject_Z (Qtrunc (a / b)).

(** An array index or loop counter used as a number. *)
Definition of_nat (n : nat) : Q := inject_Z (Z.of_nat n).

(** [Math.sin], [Math.cos] and [Math.PI]. The development does not depend
    on how the host computes them. *)
Class Math := { Math_sin : Q → Q; Math_cos : Q → Q; Math_PI : Q }.

End Js.

(** ** Constants and datasets (lines 7-47) *)

Module Scene.

Local Open Scope Q_scope.

Definition CANVAS_WIDTH : Q := 960.
Definition CANVAS_HEIGHT : Q := 540.
Definition WALK_CYCLE_MS : Q := 1400.
Definition SKYLINE_SEGMENTS : nat := 12.

Record Star := { x : Q; y : Q; size : Q; twinkleOffset : Q }.

Record SkylineSegment := { base : Q; height : Q; width : Q }.

(** [Math.random()] is an explicit source here: [random k] is the value of
    the [k]-th call, a number in [[0, 1)]. *)
Definition generateStars `{Js.Math} (random : nat → Q) (count : nat) : list Star :=
  map (λ i, {| x := random (4 * i)%nat;
               y := random (4 * i + 1)%nat * 0.5;
               size := 0.5 + random (4 * i + 2)%nat * 1.5;
               twinkleOffset := random (4 * i + 3)%nat * Js.Math_PI * 2 |})
      (seq 0 count).

Definition generateSkyline (random : nat → Q) : list SkylineSegment :=
  map (λ i, {| base := Js.of_nat i / Js.of_nat SKYLINE_SEGMENTS;
               width := 0.08 + random (2 * i)%nat * 0.12;
               height := 0.3 + random (2 * i + 1)%nat * 0.25 |})
      (seq 0 SKYLINE_SEGMENTS).

(** The clock of [draw] (lines 81-84). *)
Definition cycleProgress (elapsed : Q) : Q :=
  Js.rem elapsed WALK_CYCLE_MS / WALK_CYCLE_MS.

Definition walkPhase `{Js.Math} (elapsed : Q) : Q :=
  cycleProgress elapsed * Js.Math_PI * 2.

End Scene.

(** ** The 2D drawing context *)

Module Canvas.

Local Open Scope Q_scope.

Inductive Style :=
| Color (css : string)
| Hsl (hue saturation lightness : Q)
| LinearGradient (x0 y0 x1 y1 : Q) (stops : list (Q * string))
| RadialGradient (x0 y0 r0 x1 y1 r1 : Q) (stops : list (Q * string)).

Inductive Xform :=
| XTranslate (x y : Q)
| XRotate (angle : Q)
| XScale (x y : Q).

(** The drawing state that [save] pushes and [restore] pops, as far as this
    program assigns it. *)
Inductive Field :=
| fillStyle | strokeStyle | lineWidth | lineCap | lineDash | lineDashOffset
| globalAlpha | globalCompositeOperation | shadowColor | shadowBlur
| transform.

#[export] Instance Field_eq_dec : EqDecision Field.
Proof. solve_decision. Defined.

Inductive Value :=
| VStyle (s : Style)
| VNum (q : Q)
| VStr (s : string)
| VDash (segments : list Q)
| VMatrix (m : list Xform).       (* the transforms applied, oldest first *)

Inductive PathOp :=
| MoveTo (x y : Q)
| LineTo (x y : Q)
| QuadraticCurveTo (cpx cpy x y : Q)
| Arc (x y radius startAngle endAngle : Q)
| Ellipse (x y radiusX radiusY rotation startAngle endAngle : Q)
| ClosePath.

(** One call on the context. *)
Inductive Cmd :=
| Assign (f : Field) (v : Value)
| Save
| Restore
| Transform (t : Xform)
| BeginPath
| Path (op : PathOp)
| ClearRect (x y w h : Q)
| FillRect (x y w h : Q)
| Fill
| Stroke.

(** A path is kept in surface coordinates: each segment remembers the
    transform that was current when it was added. *)
Definition PathData := list (Value * PathOp).

Inductive PaintOp :=
| OpClearRect (x y w h : Q)
| OpFillRect (x y w h : Q)
| OpFill (p : PathData)
| OpStroke (p : PathData).

(** What reaches the pixels: the operation and the values of the drawing
    state that this kind of operation reads. *)
Record Paint := { paint_op : PaintOp; paint_state : list Value }.

Definition DrawState := Field → Value.

Record Ctx := {
  cur : DrawState;
  stack : list DrawState;
  path : PathData;
  output : list Paint
}.

Definition assign (f : Field) (v : Value) (d : DrawState) : DrawState :=
  λ g, if decide (g = f) then v else d g.

Definition apply_xform (t : Xform) (v : Value) : Value :=
  match v with
  | VMatrix m => VMatrix (m ++ [t])
  | _ => v
  end.

Definition reads_clear : list Field := [transform].
Definition reads_fill : list Field :=
  [transform; fillStyle; globalAlpha; globalCompositeOperation;
   shadowColor; shadowBlur].
Definition reads_stroke : list Field :=
  [transform; strokeStyle; lineWidth; lineCap; lineDash; lineDashOffset;
   globalAlpha; globalCompositeOperation; shadowColor; shadowBlur].

Definition paint (op : PaintOp) (reads : list Field) (c : Ctx) : Ctx :=
  {| cur := cur c; stack := stack c; path := path c;
     output := output c ++ [{| paint_op := op;
                               paint_state := map (cur c) reads |}] |}.

Definition exec1 (c : Ctx) (cmd : Cmd) : Ctx :=
  match cmd with
  | Assign f v =>
      {| cur := assign f v (cur c); stack := stack c; path := path c;
         output := output c |}
  | Save =>
      {| cur := cur c; stack := cur c :: stack c; path := path c;
         output := output c |}
  | Restore =>
      match stack c with
      | d :: rest =>
          {| cur := d; stack := rest; path := path c; output := output c |}
      | [] => c
      end
  | Transform t =>
      {| cur := assign transform (apply_xform t (cur c transform)) (cur c);
         stack := stack c; path := path c; output := output c |}
  | BeginPath =>
      {| cur := cur c; stack := stack c; path := []; output := output c |}
  | Path op =>
      {| cur := cur c; stack := stack c;
         path := path c ++ [(cur c transform, op)]; output := output c |}
  | ClearRect x y w h => paint (OpClearRect x y w h) reads_clear c
  | FillRect x y w h => paint (OpFillRect x y w h) reads_fill c
  | Fill => paint (OpFill (path c)) reads_fill c
  | Stroke => paint (OpStroke (path c)) reads_stroke c
  end.

Definition exec (cmds : list Cmd) (c : Ctx) : Ctx := foldl exec1 c cmds.

(** What a run of [cmds] from [c] paints. *)
Definition painted (cmds : list Cmd) (c : Ctx) : list Paint :=
  drop (length (output c)) (output (exec cmds c)).

(** A context right after [updateCanvasSize] (lines 69-76): assigning
    [canvas.width] resets the context to its defaults, then
    [ctx.scale(ratio, ratio)]. *)
Definition default_state : DrawState :=
  λ f, match f with
       | fillStyle | strokeStyle => VStyle (Color "#000000")
       | lineWidth => VNum 1
       | lineCap => VStr "butt"
       | lineDash => VDash []
       | lineDashOffset => VNum 0
       | globalAlpha => VNum 1
       | globalCompositeOperation => VStr "source-over"
       | shadowColor => VStyle (Color "rgba(0, 0, 0, 0)")
       | shadowBlur => VNum 0
       | transform => VMatrix []
       end.

Definition updateCanvasSize (ratio : Q) : Ctx :=
  exec [Transform (XScale ratio ratio)]
    {| cur := default_state; stack := []; path := []; output := [] |}.

(** *** Which drawing state a run of calls depends on

    A field of the drawing state is either still what it was when the run
    started, or it has been given a value by the run itself. [known] is the
    set of fields of the second kind, one bit per field; [saved] mirrors
    the part of the [save] stack that the run has pushed. *)

Definition code (f : Field) : N :=
  match f with
  | fillStyle => 0 | strokeStyle => 1 | lineWidth => 2 | lineCap => 3
  | lineDash => 4 | lineDashOffset => 5 | globalAlpha => 6
  | globalCompositeOperation => 7 | shadowColor => 8 | shadowBlur => 9
  | transform => 10
  end%N.

(** The fields that no routine of the renderer leaves changed. The other
    three are assigned outside any [save]/[restore] pair and keep the value
    of the last frame. *)
Definition is_ambient (f : Field) : bool :=
  match f with
  | fillStyle | strokeStyle | lineWidth => false
  | _ => true
  end.

Record Usage := { known : N; saved : list N; path_known : bool }.

(** The value of [f] does not depend on what the fields outside
    [is_ambient] held when the run started. *)
Definition settled (u : Usage) (f : Field) : bool :=
  N.testbit (known u) (code f) || is_ambient f.

Definition usage1 (u : Usage) (cmd : Cmd) : option Usage :=
  match cmd with
  | Assign f _ =>
      Some {| known := N.setbit (known u) (code f); saved := saved u;
              path_known := path_known u |}
  | Save =>
      Some {| known := known u; saved := known u :: saved u;
              path_known := path_known u |}
  | Restore =>
      match saved u with
      | k :: rest =>
          Some {| known := k; saved := rest; path_known := path_known u |}
      | [] => None
      end
  | Transform _ =>
      if settled u transform
      then Some {| known := N.setbit (known u) (code transform);
                   saved := saved u; path_known := path_known u |}
      else None
  | BeginPath =>
      Some {| known := known u; saved := saved u; path_known := true |}
  | Path _ =>
      Some {| known := known u; saved := saved u;
              path_known := path_known u && settled u transform |}
  | ClearRect _ _ _ _ =>
      if forallb (settled u) reads_clear then Some u else None
  | FillRect _ _ _ _ =>
      if forallb (settled u) reads_fill then Some u else None
  | Fill =>
      if path_known u && forallb (settled u) reads_fill then Some u else None
  | Stroke =>
      if path_known u && forallb (settled u) reads_stroke then Some u else None
  end.

Fixpoint usage (cmds : list Cmd) (u : Usage) : option Usage :=
  match cmds with
  | [] => Some u
  | cmd :: rest =>
      match usage1 u cmd with
      | Some u' => usage rest u'
      | None => None
      end
  end.

(** Two drawing states [x1], [x2] reached from the entry states [d1], [d2]:
    a known field has the same value in both, any other field still has its
    entry value. *)
Definition agree (k : N) (d1 d2 x1 x2 : DrawState) : Prop :=
  ∀ f, if N.testbit k (code f) then x1 f = x2 f
       else x1 f = d1 f ∧ x2 f = d2 f.

Fixpoint stacks_agree (d1 d2 : DrawState) (e1 e2 : list DrawState)
    (ks : list N) (s1 s2 : list DrawState) : Prop :=
  match ks with
  | [] => s1 = e1 ∧ s2 = e2
  | k :: ks' =>
      match s1, s2 with
      | x1 :: s1', x2 :: s2' =>
          agree k d1 d2 x1 x2 ∧ stacks_agree d1 d2 e1 e2 ks' s1' s2'
      | _, _ => False
      end
  end.

(** Two contexts [c1], [c2] in the middle of the same run, started from
    the contexts [o1] and [o2]. *)
Definition related (o1 o2 : Ctx) (u : Usage) (c1 c2 : Ctx) : Prop :=
  agree (known u) (cur o1) (cur o2) (cur c1) (cur c2) ∧
  stacks_agree (cur o1) (cur o2) (stack o1) (stack o2) (saved u)
    (stack c1) (stack c2) ∧
  (path_known u = true → path c1 = path c2) ∧
  ∃ ps, output c1 = output o1 ++ ps ∧ output c2 = output o2 ++ ps.

(** The two contexts hold the same values in the ambient fields. *)
Definition same_ambient (c1 c2 : Ctx) : Prop :=
  ∀ f, is_ambient f = true → cur c1 f = cur c2 f.

Definition entry_usage : Usage :=
  {| known := 0; saved := []; path_known := false |}.

End Canvas.

(** ** The renderer (lines 246-471)

    Every routine only calls methods and assigns properties of [ctx]; none
    reads the context back. A routine is therefore the list of calls it
    makes, in order. *)

Module Render.

Import Js Scene Canvas.
Local Open Scope Q_scope.

Section Routines.
Context `{Js.Math}.

(** [for (let i = 0; i < limit; i += step)], as the values [i] takes. *)
Definition for_range (limit step : Q) : list Q :=
  map (λ k, of_nat k * step) (seq 0 (Z.to_nat (Qceiling (limit / step)))).

Definition drawSky (width height : Q) (stars : list Star) (elapsed : Q) : list Cmd :=
  let gradient :=
    LinearGradient 0 0 0 height
      [(0, "#020617"); (0.35, "#0b183a"); (1, "#0f172a")]%string in
  [ Assign fillStyle (VStyle gradient);
    FillRect 0 0 width height;
    Save;
    Assign fillStyle (VStyle (Color "#f8fafc")) ]
  ++ concat (imap (λ index star,
       let x := x star * width + Math_sin (elapsed * 0.00005 + of_nat index) * 15 in
       let y := y star * height in
       let twinkle := 0.7 + Math_sin (elapsed * 0.002 + twinkleOffset star) * 0.3 in
       [ Assign globalAlpha (VNum (0.3 + twinkle * 0.7));
         BeginPath;
         Path (Arc x y (size star * twinkle) 0 (Math_PI * 2));
         Fill ]) stars)
  ++ [ Restore ].

(** The horizontal shift of the skyline (line 298). *)
Definition skyline_offset (width elapsed : Q) : Q :=
  rem (elapsed * 0.02) (width * 0.35).

Definition drawSkyline (width height : Q) (skyline : list SkylineSegment)
    (elapsed : Q) : list Cmd :=
  let skylineHeight := height * 0.5 in
  let baseY := height * 0.65 in
  [ Save;
    Transform (XTranslate (- skyline_offset width elapsed) 0) ]
  ++ concat (map (λ building,
       let segWidth := Scene.width building * width in
       let x := base building * width in
       [ Assign fillStyle (VStyle (Color "#0b1c3f"));
         FillRect x (baseY - skylineHeight * Scene.height building)
                  segWidth (skylineHeight * Scene.height building);
         Assign fillStyle (VStyle (Color "rgba(148, 197, 255, 0.06)"));
         FillRect (x + segWidth * 0.1)
                  (baseY - skylineHeight * Scene.height building)
                  (segWidth * 0.2) (skylineHeight * Scene.height building) ])
       skyline)
  ++ [ Restore ].

Definition drawStreet (width height elapsed : Q) : list Cmd :=
  let horizon := height * 0.68 in
  let roadHeight := height * 0.32 in
  let gradient :=
    LinearGradient 0 horizon 0 height
      [(0, "#0f172a"); (1, "#020617")]%string in
  [ Assign fillStyle (VStyle gradient);
    FillRect 0 horizon width roadHeight;

    Assign strokeStyle (VStyle (Color "rgba(56, 189, 248, 0.35)"));
    Assign lineWidth (VNum 2);
    BeginPath;
    Path (MoveTo (- width) height);
    Path (LineTo (width * 2) (horizon + 10));
    Stroke;

    Save;
    Assign strokeStyle (VStyle (Color "rgba(96, 165, 250, 0.5)"));
    Assign lineWidth (VNum 4);
    Assign lineDash (VDash [80; 60]);
    Assign lineDashOffset (VNum (rem (elapsed * 0.2) 140));
    BeginPath;
    Path (MoveTo 0 (horizon + roadHeight * 0.55));
    Path (LineTo width height);
    Stroke;
    Restore ].

Definition drawRoundedRect (x y width height radius : Q) : list Cmd :=
  let r := Qmin (Qmin radius (Qabs width / 2)) (Qabs height / 2) in
  [ BeginPath;
    Path (MoveTo (x + r) y);
    Path (LineTo (x + width - r) y);
    Path (QuadraticCurveTo (x + width) y (x + width) (y + r));
    Path (LineTo (x + width) (y + height - r));
    Path (QuadraticCurveTo (x + width) (y + height) (x + width - r) (y + height));
    Path (LineTo (x + r) (y + height));
    Path (QuadraticCurveTo x (y + height) x (y + height - r));
    Path (LineTo x (y + r));
    Path (QuadraticCurveTo x y (x + r) y);
    Path ClosePath;
    Fill ].

Definition drawLimb (originX originY length phase : Q) (isArm : bool) : list Cmd :=
  let swing := Math_sin phase * (if isArm then 0.9 else 1.2) in
  let kneeLift :=
    Qmax 0 (Math_sin (phase + Math_PI / 2)) * (if isArm then 0 else 0.6) in
  let jointY := length * 0.55 - kneeLift * 20 in
  let jointX := Math_sin (phase + Math_PI / 2) * 6 in
  [ Save;
    Transform (XTranslate originX originY);
    Assign strokeStyle (VStyle (Color (if isArm then "#bae6fd" else "#1d4ed8")));
    Assign lineWidth (VNum (if isArm then 8 else 10));
    Assign lineCap (VStr "round");
    BeginPath;
    Path (MoveTo 0 0);
    Path (QuadraticCurveTo (jointX + swing * 10) jointY (swing * 30) length);
    Stroke;
    Restore ].

Definition drawCharacter (width height cycleProgress walkPhase : Q) : list Cmd :=
  let baseX := width * 0.5 in
  let groundY := height * 0.78 in
  let stride := Math_sin walkPhase * 20 in
  let bob := Math_sin (walkPhase * 2) * 4 in
  let coatLightness := 52 + Math_sin (cycleProgress * Math_PI * 2) * 6 in
  [ Save;
    Transform (XTranslate (baseX + stride * 0.6) (groundY - bob));

    Assign shadowColor (VStyle (Color "rgba(37, 99, 235, 0.4)"));
    Assign shadowBlur (VNum 25);

    Assign fillStyle (VStyle (Color "#1e293b"));
    BeginPath;
    Path (Ellipse (-120) 20 140 20 0 0 (Math_PI * 2));
    Assign globalAlpha (VNum 0.35);
    Fill;
    Assign globalAlpha (VNum 1);

    Save;
    Transform (XTranslate 0 (-140));
    Assign fillStyle (VStyle (Color "#38bdf8"));
    Save;
    Transform (XRotate (Math_sin walkPhase * 0.1));
    FillRect (-12) (-90) 24 110;
    Restore;

    Assign fillStyle (VStyle (Hsl 199 88 coatLightness)) ]
  ++ drawRoundedRect (-24) (-35) 48 70 18
  ++ [ Assign fillStyle (VStyle (Color "#f8fafc"));
       BeginPath;
       Path (Arc 0 (-120) 26 0 (Math_PI * 2));
       Fill ]
  ++ drawLimb 0 (-60) 18 walkPhase true
  ++ drawLimb 0 (-60) 18 (walkPhase + Math_PI) true
  ++ drawLimb 0 0 28 (walkPhase + Math_PI) false
  ++ drawLimb 0 0 28 walkPhase false
  ++ [ Restore;
       Restore ].

Definition drawAtmospherics (width height elapsed : Q) : list Cmd :=
  let glowCount : Q := 5 in
  [ Save ]
  ++ concat (map (λ i,
       let x := (i / glowCount) * width + Math_sin (elapsed * 0.0004 + i) * 40 in
       let y := height * 0.62 + Math_cos (elapsed * 0.0007 + i) * 10 in
       let gradient :=
         RadialGradient x y 0 x y 180
           [(0, "rgba(56, 189, 248, 0.2)"); (1, "rgba(56, 189, 248, 0)")]%string in
       [ Assign fillStyle (VStyle gradient);
         FillRect (x - 180) (y - 180) 360 360 ]) (for_range glowCount 1))
  ++ [ Assign globalCompositeOperation (VStr "lighter");
       Assign strokeStyle (VStyle (Color "rgba(56, 189, 248, 0.08)"));
       Assign lineWidth (VNum 1);
       BeginPath ]
  ++ map (λ i,
       let waveY :=
         height * 0.75 +
         Math_sin (i * 0.02 + elapsed * 0.004) * 6 +
         Math_sin (i * 0.05 + elapsed * 0.002) * 4 in
       Path (LineTo i waveY)) (for_range width 8)
  ++ [ Stroke;
       Restore ].

Definition renderFrame (cycleProgress walkPhase : Q) (stars : list Star)
    (skyline : list SkylineSegment) (elapsed : Q) : list Cmd :=
  let width := CANVAS_WIDTH in
  let height := CANVAS_HEIGHT in
  [ ClearRect 0 0 width height ]
  ++ drawSky width height stars elapsed
  ++ drawSkyline width height skyline elapsed
  ++ drawStreet width height elapsed
  ++ drawCharacter width height cycleProgress walkPhase
  ++ drawAtmospherics width height elapsed.

(** The arguments of one call of [renderFrame]. *)
Record Frame := {
  frame_cycleProgress : Q;
  frame_walkPhase : Q;
  frame_stars : list Star;
  frame_skyline : list SkylineSegment;
  frame_elapsed : Q
}.

Definition render (fr : Frame) : list Cmd :=
  renderFrame (frame_cycleProgress fr) (frame_walkPhase fr) (frame_stars fr)
    (frame_skyline fr) (frame_elapsed fr).

(** The context after the frames [frs] were rendered one after the
    other. *)
Definition render_all (frs : list Frame) (c : Ctx) : Ctx :=
  foldl (λ c fr, exec (render fr) c) c frs.

(** One turn of [draw] (lines 81-86) at elapsed time [elapsed]. *)
Definition draw (stars : list Star) (skyline : list SkylineSegment)
    (elapsed : Q) : list Cmd :=
  renderFrame (cycleProgress elapsed) (Scene.walkPhase elapsed)
    stars skyline elapsed.

End Routines.



End Render.

(** ** The page around the controller (lines 106-118 and 187-243) *)

Module Page.

Import Capture.

(** What the component renders: the label of the toggle button, the
    download link, present only while [downloadUrl] is set, and the status
    line. *)
Record DownloadLink := { href : Url; download : string }.

Record View := {
  button_label : string;
  download_link : option DownloadLink;
  status_text : string
}.

Definition NightWalkCanvas_view (s : State) : View :=
  {| button_label :=
       match recorderState s with
       | recording => "Stop Recording"
       | idle => "Record 10s Clip"
       end;
     download_link :=
       match downloadUrl s with
       | Some url => Some {| href := url; download := "night-walk.webm" |}
       | None => None
       end;
     status_text := message s |}.

(** The component is removed: React runs the clean-up of the last
    [downloadUrl] effect, which closes over the current [downloadUrl]. *)
Definition unmount (s : State) : State := effect_cleanup (downloadUrl s) s.

(** The recorder outlives the component: the stop task queued by the
    clean-up still runs [ondataavailable] and [onstop], with no render
    after it. *)
Definition stop_task_after_unmount (r : nat) (data : Blob) (s : State) : State :=
  end_session false r data s.

(** The deliveries [ds], in order, to recorder [r]. *)
Definition deliveries (r : nat) (ds : list Blob) : list Event :=
  map (DataAvailable r) ds.

(** *** What a transition leaves alone

    [steady s s']: the three [useState] cells and [recorderRef] are the
    same in [s'], and every recorder that was unfinished still is. *)
Definition steady (s s' : State) : Prop :=
  recorderState s' = recorderState s ∧ message s' = message s ∧
  downloadUrl s' = downloadUrl s ∧ recorderRef s' = recorderRef s ∧
  ∀ r rc, recorders s !! r = Some rc → unfinished rc →
          ∃ rc', recorders s' !! r = Some rc' ∧ unfinished rc'.

(** How the status line goes with the rest of the state: it reads
    'recording' exactly during a session, whose recorder is then the
    unfinished one in [recorderRef]; 'ready' goes with a clip on offer, 'no
    data' with none; the text of [onerror] is not on display. *)
Definition Shown (s : State) : Prop :=
  (recorderState s = recording ↔ message s = msg_recording) ∧
  (message s = msg_ready → downloadUrl s ≠ None) ∧
  (message s = msg_no_data → downloadUrl s = None) ∧
  message s ≠ msg_failed ∧
  (recorderState s = recording →
   ∃ r rc, recorderRef s = Some r ∧ recorders s !! r = Some rc ∧
           unfinished rc).

(** Every recorder that is recording has its own timer armed. *)
Definition Bounded (s : State) : Prop :=
  ∀ r rc, recorders s !! r = Some rc → rec_state rc = rs_recording →
          ∃ i, timers s !! i = Some {| tm_recorder := r; tm_armed := true |}.

(** No recorder is recording. *)
Definition all_stopped (s : State) : Prop :=
  ∀ r rc, recorders s !! r = Some rc → rec_state rc = rs_inactive.

End Page.


(** ** The canvas element and the animation loop (lines 13-14 and 62-104) *)

Module Surface.

Import Js Scene Canvas.
Local Open Scope Q_scope.

(** [window], as far as the component reads it. [devicePixelRatio] is
    [None] when the property is [undefined] or [NaN]. *)
Record Window := { devicePixelRatio : option Q }.

(** [typeof window === 'undefined' ? 1
     : Math.min(window.devicePixelRatio || 1, 2)] (lines 13-14); of the
    numbers only zero is falsy. *)
Definition getDevicePixelRatio (window : option Window) : Q :=
  match window with
  | None => 1
  | Some w =>
      Qmin (match devicePixelRatio w with
            | Some d => if Qeq_bool d 0 then 1 else d
            | None => 1
            end) 2
  end.

(** [canvas.width] and [canvas.height] are reflected [unsigned long]
    attributes: a number assigned to them is truncated and taken modulo
    2^32, and a result above 2^31 - 1 is replaced by the default of the
    attribute. *)
Definition to_unsigned_long (q : Q) : Z := (Qtrunc q mod 2 ^ 32)%Z.

Definition canvas_dimension (default : Z) (q : Q) : Z :=
  let n := to_unsigned_long q in
  if (n <=? 2147483647)%Z then n else default.

(** The [<canvas>] element: its backing store, its CSS size, and its 2D
    context ([None] when [getContext('2d')] returns null). *)
Record Element := {
  el_width : Z;
  el_height : Z;
  style_width : string;
  style_height : string;
  context2d : option Ctx
}.

(** What the animation effect works on: [canvasRef.current],
    [animationRef], [startTimeRef], the frame callbacks the browser holds
    (each one is [draw]), the number of handles handed out so far, the
    number of [handleResize] listeners on [window], and whether the effect
    has returned a clean-up that has not run yet. *)
Record Loop := {
  element : option Element;
  animationRef : option nat;
  startTimeRef : Q;
  requests : list nat;
  handles : nat;
  listeners : nat;
  active : bool
}.

Definition set_element (v : option Element) (s : Loop) : Loop :=
  {| element := v; animationRef := animationRef s;
     startTimeRef := startTimeRef s; requests := requests s;
     handles := handles s; listeners := listeners s; active := active s |}.

Definition set_animationRef (v : option nat) (s : Loop) : Loop :=
  {| element := element s; animationRef := v;
     startTimeRef := startTimeRef s; requests := requests s;
     handles := handles s; listeners := listeners s; active := active s |}.

Definition set_startTimeRef (v : Q) (s : Loop) : Loop :=
  {| element := element s; animationRef := animationRef s;
     startTimeRef := v; requests := requests s;
     handles := handles s; listeners := listeners s; active := active s |}.

Definition set_requests (v : list nat) (s : Loop) : Loop :=
  {| element := element s; animationRef := animationRef s;
     startTimeRef := startTimeRef s; requests := v;
     handles := handles s; listeners := listeners s; active := active s |}.

Definition set_listeners (v : nat) (a : bool) (s : Loop) : Loop :=
  {| element := element s; animationRef := animationRef s;
     startTimeRef := startTimeRef s; requests := requests s;
     handles := handles s; listeners := v; active := a |}.

(** [requestAnimationFrame(draw)]: a fresh, non-zero handle. *)
Definition requestAnimationFrame (s : Loop) : nat * Loop :=
  let h := S (handles s) in
  (h, {| element := element s; animationRef := animationRef s;
         startTimeRef := startTimeRef s; requests := requests s ++ [h];
         handles := h; listeners := listeners s; active := active s |}).

(** [cancelAnimationFrame(h)]; an unknown handle is ignored. *)
Definition cancelAnimationFrame (h : nat) (s : Loop) : Loop :=
  set_requests (filter (λ h', h' ≠ h) (requests s)) s.

(** [updateCanvasSize] (lines 69-76). Assigning [canvas.width] or
    [canvas.height] clears the bitmap and resets the context, then
    [ctx.scale(ratio, ratio)]. *)
Definition updateCanvasSize (window : option Window) (s : Loop) : Loop :=
  let ratio := getDevicePixelRatio window in
  set_element
    (Some {| el_width := canvas_dimension 300 (CANVAS_WIDTH * ratio);
             el_height := canvas_dimension 150 (CANVAS_HEIGHT * ratio);
             style_width := "960px";
             style_height := "540px";
             context2d := Some (Canvas.updateCanvasSize ratio) |}) s.

Section Effect.
Context `{Js.Math}.
Variable stars : list Star.
Variable skyline : list SkylineSegment.

(** [draw] (lines 81-88): render the frame, then ask for the next one. *)
Definition draw (timestamp : Q) (s : Loop) : Loop :=
  let elapsed := timestamp - startTimeRef s in
  let s :=
    match element s with
    | Some el =>
        match context2d el with
        | Some ctx =>
            set_element
              (Some {| el_width := el_width el; el_height := el_height el;
                       style_width := style_width el;
                       style_height := style_height el;
                       context2d :=
                         Some (exec (Render.draw stars skyline elapsed) ctx) |})
              s
        | None => s
        end
    | None => s
    end in
  let '(h, s) := requestAnimationFrame s in
  set_animationRef (Some h) s.

(** [handleResize] (lines 92-96): [ctx.setTransform(1, 0, 0, 1, 0, 0)],
    then [updateCanvasSize()]. *)
Definition handleResize (window : option Window) (s : Loop) : Loop :=
  match element s with
  | Some el =>
      match context2d el with
      | Some ctx =>
          let el' :=
            {| el_width := el_width el; el_height := el_height el;
               style_width := style_width el; style_height := style_height el;
               context2d :=
                 Some (exec [Assign transform (VMatrix [])] ctx) |} in
          updateCanvasSize window (set_element (Some el') s)
      | None => s
      end
  | None => s
  end.

(** The body of the effect (lines 63-98); [now] is [performance.now()]. *)
Definition effect_setup (window : option Window) (now : Q) (s : Loop) : Loop :=
  match element s with
  | Some el =>
      match context2d el with
      | Some _ =>
          let s := updateCanvasSize window s in
          let s := set_startTimeRef now s in
          let '(h, s) := requestAnimationFrame s in
          let s := set_animationRef (Some h) s in
          set_listeners (S (listeners s)) true s
      | None => s
      end
  | None => s
  end.

(** The clean-up the effect returns (lines 100-103). *)
Definition effect_teardown (s : Loop) : Loop :=
  let s :=
    match animationRef s with
    | Some (S h) => cancelAnimationFrame (S h) s
    | _ => s
    end in
  set_listeners (pred (listeners s)) false s.

(** The browser runs the frame callbacks that were pending when the frame
    began, unless one has been cancelled in the meantime. *)
Definition run_frame (timestamp : Q) (s : Loop) : Loop :=
  foldl (λ s h,
           if decide (h ∈ requests s)
           then draw timestamp (cancelAnimationFrame h s)
           else s)
        s (requests s).

Inductive LoopEvent :=
| EffectRuns (window : option Window) (now : Q)
| AnimationFrame (timestamp : Q)
| WindowResize (window : option Window)
| EffectCleanup.

(** [loop_step e s] is [None] when [e] cannot happen in [s]: React runs the
    effect only when it is not set up, and its clean-up only when it is. *)
Definition loop_step (e : LoopEvent) (s : Loop) : option Loop :=
  match e with
  | EffectRuns window now =>
      if active s then None else Some (effect_setup window now s)
  | AnimationFrame timestamp => Some (run_frame timestamp s)
  | WindowResize window =>
      Some (Nat.iter (listeners s) (handleResize window) s)
  | EffectCleanup =>
      if active s then Some (effect_teardown s) else None
  end.

Fixpoint loop_run (es : list LoopEvent) (s : Loop) : option Loop :=
  match es with
  | [] => Some s
  | e :: es' =>
      match loop_step e s with
      | Some s' => loop_run es' s'
      | None => None
      end
  end.

End Effect.

(** The component before its effects run, with the canvas as the JSX
    creates it (lines 199-204); [ctx] is what [getContext('2d')] will
    return. *)
Definition loop_mount (ctx : option Ctx) : Loop :=
  {| element := Some {| el_width := 960; el_height := 540;
                        style_width := ""; style_height := "";
                        context2d := ctx |};
     animationRef := None; startTimeRef := 0; requests := [];
     handles := 0; listeners := 0; active := false |}.


(** One frame callback is pending while the effect is set up, and it is
    the one whose handle is in [animationRef]; none is pending, and no
    listener is registered, otherwise. *)
Definition Ticking (s : Loop) : Prop :=
  if active s
  then ∃ h, animationRef s = Some (S h) ∧ requests s = [S h] ∧
            listeners s = 1%nat
  else requests s = [] ∧ listeners s = 0%nat.



(** A context as [getContext('2d')] first returns it. *)
Definition fresh_context : Ctx :=
  {| cur := default_state; stack := []; path := []; output := [] |}.

(** A window on a display with one and a half device pixels per pixel. *)
Definition sample_window : option Window :=
  Some {| devicePixelRatio := Some (3 # 2) |}.

(** A stand-in for the host's [Math] in concrete instances: [sin] and [cos]
    are replaced by functions with values in [[-1, 1]]. *)
Definition sample_Math : Js.Math :=
  {| Math_sin := λ q, Qmax (-1) (Qmin 1 q);
     Math_cos := λ q, Qmax (-1) (Qmin 1 (1 - q));
     Math_PI := 355 # 113 |}.

End Surface.


(** ** What the 2D context accepts

    The conditions under which the calls that the renderer makes are taken
    as written. A colour stop with an offset outside [[0, 1]], a negative
    radius of an arc, an ellipse or a radial gradient make the call throw;
    an alpha outside [[0, 1]], a line width that is not positive, a
    negative blur or dash length make the assignment be ignored; a
    lightness or saturation outside [[0, 100]] is clamped. *)

Module CanvasRules.

Import Canvas.
Local Open Scope Q_scope.

Definition stops_ok (stops : list (Q * string)) : Prop :=
  Forall (λ st, 0 <= st.1 ∧ st.1 <= 1) stops.

Definition style_ok (s : Style) : Prop :=
  match s with
  | Color _ => True
  | Hsl _ saturation lightness =>
      (0 <= saturation ∧ saturation <= 100) ∧
      (0 <= lightness ∧ lightness <= 100)
  | LinearGradient _ _ _ _ stops => stops_ok stops
  | RadialGradient _ _ r0 _ _ r1 stops => 0 <= r0 ∧ 0 <= r1 ∧ stops_ok stops
  end.

Definition accepted (c : Cmd) : Prop :=
  match c with
  | Assign fillStyle (VStyle s) | Assign strokeStyle (VStyle s) => style_ok s
  | Assign globalAlpha (VNum a) => 0 <= a ∧ a <= 1
  | Assign lineWidth (VNum w) => 0 < w
  | Assign shadowBlur (VNum b) => 0 <= b
  | Assign lineDash (VDash segments) => Forall (λ d, 0 <= d) segments
  | Path (Arc _ _ radius _ _) => 0 <= radius
  | Path (Ellipse _ _ radiusX radiusY _ _ _) => 0 <= radiusX ∧ 0 <= radiusY
  | _ => True
  end.

(** The points that a path segment names: its end point and, for a curve,
    its control point; the centre for an arc or an ellipse. *)
Definition path_points (op : PathOp) : list (Q * Q) :=
  match op with
  | MoveTo x y | LineTo x y => [(x, y)]
  | QuadraticCurveTo cpx cpy x y => [(cpx, cpy); (x, y)]
  | Arc x y _ _ _ => [(x, y)]
  | Ellipse x y _ _ _ _ _ => [(x, y)]
  | ClosePath => []
  end.

Definition cmd_points (c : Cmd) : list (Q * Q) :=
  match c with
  | Path op => path_points op
  | _ => []
  end.

(** The point [p] lies in the rectangle with corner [(x, y)] and the
    given extent. *)
Definition within (x y width height : Q) (p : Q * Q) : Prop :=
  (x <= p.1 ∧ p.1 <= x + width) ∧ (y <= p.2 ∧ p.2 <= y + height).

(** The values that a run of calls assigns to the field [f], in order. *)
Definition assigned (f : Field) (cmds : list Cmd) : list Value :=
  omap (λ c, match c with
             | Assign g v => if decide (g = f) then Some v else None
             | _ => None
             end) cmds.

(** The transforms that a run of calls applies, in order. *)
Definition transforms (cmds : list Cmd) : list Xform :=
  omap (λ c, match c with Transform t => Some t | _ => None end) cmds.

(** The rectangles that a run of calls fills, in order. *)
Definition filled_rects (cmds : list Cmd) : list (Q * Q * Q * Q) :=
  omap (λ c, match c with
             | FillRect x y w h => Some (x, y, w, h)
             | _ => None
             end) cmds.

(** The points of the path segments of a run of calls, in order. *)
Definition points (cmds : list Cmd) : list (Q * Q) :=
  concat (map cmd_points cmds).

End CanvasRules.


(** * Properties of the capture controller *)

Module CaptureFacts.

Import Capture.

Lemma Forall_filter {A} (P Q : A → Prop) `{∀ x, Decision (Q x)} (l : list A) :
  Forall P l → Forall P (filter Q l).
Proof.
  induction 1 as [|x l Hx _ IH]; [done|].
  rewrite filter_cons. case_decide; [by constructor|done].
Qed.

Lemma Inv_mount canvas : Inv (mount canvas).
Proof. split; cbn; try done. Qed.

(** Replacing one recorder keeps the invariant when the replacement is no
    more alive than the original. *)
Lemma session_inv_update st url ref cv rcs live r rc rc' :
  session_inv st url ref cv rcs live →
  rcs !! r = Some rc →
  (unfinished rc' → unfinished rc ∨ (st = recording ∧ ref = Some r)) →
  (rec_state rc' = rs_recording → rec_stop_queued rc' = false) →
  Forall (λ b, 0 < size b) (chunks rc') →
  session_inv st url ref cv (<[r := rc']> rcs) live.
Proof.
  intros [H1 H2 H3 H4 Hb H5 H6] Hr Hun Hex Hch.
  assert (r < length rcs) by (by eapply lookup_lt_Some).
  split; try done.
  - intros i x Hi Hx. destruct (decide (i = r)) as [->|Hne].
    + rewrite list_lookup_insert_eq in Hi by done. simplify_eq.
      destruct (Hun Hx) as [?|?]; eauto.
    + rewrite list_lookup_insert_ne in Hi by done. eauto.
  - intros i x Hi Hx. destruct (decide (i = r)) as [->|Hne].
    + rewrite list_lookup_insert_eq in Hi by done. simplify_eq. eauto.
    + rewrite list_lookup_insert_ne in Hi by done. eauto.
  - intros i x Hi. destruct (decide (i = r)) as [->|Hne].
    + rewrite list_lookup_insert_eq in Hi by done. by simplify_eq.
    + rewrite list_lookup_insert_ne in Hi by done. eauto.
Qed.

Lemma Inv_recorder_stop r s : Inv s → Inv (recorder_stop r s).
Proof.
  intros HI. unfold recorder_stop.
  destruct (recorders s !! r) as [rc|] eqn:Hr; [|done].
  destruct (rec_state rc) eqn:Hst; [exact HI|].
  eapply session_inv_update; eauto; cbn; try done.
  - intros _. left. by left.
  - by eapply inv_chunks.
Qed.

Lemma Inv_ondataavailable r data s : Inv s → Inv (ondataavailable r data s).
Proof.
  intros HI. unfold ondataavailable.
  destruct (decide (0 < size data)); [|done].
  destruct (recorders s !! r) as [rc|] eqn:Hr; [|done].
  eapply session_inv_update; eauto; cbn.
  - by eapply inv_exclusive.
  - apply Forall_app. split; [by eapply inv_chunks|]. by constructor.
Qed.

Lemma Inv_clearTimeout h s : Inv s → Inv (clearTimeout h s).
Proof.
  intros HI. unfold clearTimeout. destruct h as [|i]; [done|].
  by destruct (timers s !! i).
Qed.

Lemma revoke_live u (live : list (Url * Blob)) url :
  map fst live = option_list url → url ≠ Some u →
  map fst (filter (λ ub, bool_decide (ub.1 ≠ u)) live) = option_list url.
Proof.
  intros Hl Hne. destruct url as [v|]; cbn in *.
  - destruct live as [|[w b] [|]]; simplify_eq/=.
    rewrite filter_cons_True; [done|]. cbn. apply bool_decide_pack. congruence.
  - by destruct live.
Qed.

Lemma Inv_revoke u s : Inv s → downloadUrl s ≠ Some u → Inv (revokeObjectURL u s).
Proof.
  intros [H1 H2 H3 H4 Hb H5 H6] Hne. split; cbn; try done.
  - by apply revoke_live.
  - by apply Forall_filter.
Qed.

Lemma Inv_effect_cleanup closure s :
  Inv s → downloadUrl s ≠ closure → Inv (effect_cleanup closure s).
Proof.
  intros HI Hne. unfold effect_cleanup.
  set (s1 := match recorderRef s with Some r => _ | None => s end).
  assert (Inv s1 ∧ downloadUrl s1 = downloadUrl s) as [HI1 Hu1].
  { subst s1. destruct (recorderRef s) as [r|]; [|done].
    destruct (recorders s !! r) as [rc|] eqn:Hr; [|done].
    destruct (rec_state rc) eqn:Hst; [done|].
    split; [by apply Inv_recorder_stop|].
    unfold recorder_stop. by rewrite Hr, Hst. }
  set (s2 := match pendingTimeoutRef s1 with Some (S i) => _ | _ => s1 end).
  assert (Inv s2 ∧ downloadUrl s2 = downloadUrl s) as [HI2 Hu2].
  { subst s2. destruct (pendingTimeoutRef s1) as [[|i]|]; try done.
    split; [by apply Inv_clearTimeout|].
    rewrite <- Hu1. unfold clearTimeout. by destruct (timers s1 !! i). }
  destruct closure as [u|]; [|done].
  apply Inv_revoke; [done|]. by rewrite Hu2.
Qed.

Lemma Inv_commit prev s : Inv s → Inv (commit prev s).
Proof.
  intros HI. unfold commit. case_decide; [done|].
  apply Inv_effect_cleanup; [done|]. congruence.
Qed.

(** What a successful start leaves behind (lines 134-180). *)
Lemma handleRecord_start s cv :
  canvasRef s = Some cv → has_captureStream cv = true →
  recorderState s = idle →
  let s' := handleRecord true s in
  recorderState s' = recording ∧ downloadUrl s' = None ∧
  message s' = msg_recording ∧
  recorderRef s' = Some (length (recorders s)) ∧
  pendingTimeoutRef s' = Some (S (length (timers s))) ∧
  canvasRef s' = canvasRef s ∧
  recorders s' =
    recorders s ++ [{| rec_state := rs_recording; rec_stop_queued := false;
                       chunks := [] |}] ∧
  timers s' =
    timers s ++ [{| tm_recorder := length (recorders s); tm_armed := true |}] ∧
  objectUrls s' =
    match downloadUrl s with
    | Some u => filter (λ ub, bool_decide (ub.1 ≠ u)) (objectUrls s)
    | None => objectUrls s
    end ∧
  history s' =
    [FxSetTimeout (S (length (timers s))) 10000;
     FxStart (length (recorders s))]
    ++ match downloadUrl s with
       | Some u => [FxRevokeObjectURL u]
       | None => []
       end
    ++ [FxNewRecorder (length (recorders s)) "video/webm;codecs=vp9" 4000000;
        FxCaptureStream 60]
    ++ history s.
Proof.
  intros Hcv Hcap Hst. unfold handleRecord.
  rewrite Hcv, Hcap, Hst. cbn [negb].
  unfold release_downloadUrl, recorder_start.
  destruct (downloadUrl s) as [u|] eqn:Hu; cbn; rewrite ?Hu; cbn.
  all: rewrite lookup_app_r, Nat.sub_diag by done; cbn.
  all: rewrite insert_app_r_alt, Nat.sub_diag by done; cbn.
  all: by rewrite ?Hcv.
Qed.

Lemma Inv_handleRecord ctor_ok s : Inv s → Inv (handleRecord ctor_ok s).
Proof.
  intros HI.
  destruct (canvasRef s) as [cv|] eqn:Hcv;
    [|by unfold handleRecord; rewrite Hcv].
  destruct (has_captureStream cv) eqn:Hcap;
    [|by unfold handleRecord; rewrite Hcv, Hcap].
  destruct (recorderState s) eqn:Hst.
  2:{ unfold handleRecord; rewrite Hcv, Hcap, Hst. cbn.
      destruct (recorderRef s); [by apply Inv_recorder_stop|done]. }
  destruct ctor_ok; [|by unfold handleRecord; rewrite Hcv, Hcap, Hst].
  destruct (handleRecord_start s cv Hcv Hcap Hst)
    as (E1 & E2 & _ & E3 & _ & E4 & E5 & _ & E6 & _).
  destruct HI as [H1 H2 H3 H4 Hb H5 H6]. rewrite Hst in *.
  assert (Hfin : ∀ i rc, recorders s !! i = Some rc → ¬ unfinished rc).
  { intros i rc Hi Hun. by destruct (H1 i rc Hi Hun). }
  unfold Inv. rewrite E1, E2, E3, E4, E5, E6.
  split.
  - intros i rc Hi Hun. split; [done|].
    apply lookup_app_Some in Hi as [Hi|[Hge Hi]];
      [by destruct (Hfin i rc Hi)|].
    f_equal. apply list_lookup_singleton_Some in Hi as [? _]. lia.
  - intros i rc Hi Hrec.
    apply lookup_app_Some in Hi as [Hi|[Hge Hi]]; [by eauto|].
    by apply list_lookup_singleton_Some in Hi as [_ <-].
  - done.
  - destruct (downloadUrl s) as [u|] eqn:Hu; cbn in *; [|done].
    destruct (objectUrls s) as [|[w b] [|]]; simplify_eq/=.
    rewrite filter_cons_False; [done|]. cbn. intros Hd.
    by apply bool_decide_unpack in Hd.
  - destruct (downloadUrl s); [by apply Forall_filter|done].
  - intros i rc Hi.
    apply lookup_app_Some in Hi as [Hi|[Hge Hi]]; [by eauto|].
    apply list_lookup_singleton_Some in Hi as [_ <-]. by constructor.
  - eauto.
Qed.

(** Retiring the one unfinished recorder leaves none. *)
Lemma put_recorder_quiescent r rc s :
  Inv s → recorders s !! r = Some rc → unfinished rc →
  Inv (put_recorder r rs_inactive false s) ∧
  quiescent (put_recorder r rs_inactive false s).
Proof.
  intros HI Hr Hun. unfold put_recorder, session_chunks. rewrite Hr.
  split.
  - eapply session_inv_update; eauto; cbn; try done.
    by eapply inv_chunks.
  - intros i x Hi Hx. cbn in Hi.
    assert (r < length (recorders s)) by (by eapply lookup_lt_Some).
    destruct (decide (i = r)) as [->|Hne].
    + rewrite list_lookup_insert_eq in Hi by done. simplify_eq.
      by destruct Hx.
    + rewrite list_lookup_insert_ne in Hi by done.
      destruct (inv_current _ _ _ _ _ _ HI i x Hi Hx) as [_ Hi'].
      destruct (inv_current _ _ _ _ _ _ HI r rc Hr Hun) as [_ Hr'].
      congruence.
Qed.

Lemma ondataavailable_quiescent r data s :
  quiescent s → quiescent (ondataavailable r data s).
Proof.
  intros Hq. unfold ondataavailable.
  destruct (decide (0 < size data)); [|done].
  destruct (recorders s !! r) as [rc|] eqn:Hr; [|done].
  intros i x Hi Hx. cbn in Hi.
  assert (r < length (recorders s)) by (by eapply lookup_lt_Some).
  destruct (decide (i = r)) as [->|Hne].
  - rewrite list_lookup_insert_eq in Hi by done. simplify_eq.
    by apply (Hq r rc Hr).
  - rewrite list_lookup_insert_ne in Hi by done. by apply (Hq i x Hi).
Qed.

Lemma ondataavailable_downloadUrl r data s :
  downloadUrl (ondataavailable r data s) = downloadUrl s.
Proof.
  unfold ondataavailable. case_decide; [|done].
  by destruct (recorders s !! r).
Qed.

Lemma Inv_onerror s : Inv s → quiescent s → Inv (onerror s).
Proof.
  intros [H1 H2 H3 H4 Hb H5 H6] Hq. split; cbn; try done.
  intros i rc Hi Hun. by destruct (Hq i rc Hi).
Qed.

Lemma Inv_onstop r s :
  Inv s → quiescent s → downloadUrl s = None → Inv (onstop r s).
Proof.
  intros [H1 H2 H3 H4 Hb H5 H6] Hq Hu. unfold onstop. cbn.
  change (session_chunks r (record_effect (FxOnStop r) s))
    with (session_chunks r s).
  rewrite Hu in H4. destruct (objectUrls s) eqn:Hlive; [|done].
  case_decide as Hlen; split; cbn; rewrite ?Hlive, ?Hu; try done.
  1,2: intros i rc Hi Hun; by destruct (Hq i rc Hi).
  repeat constructor. cbn. exists (session_chunks r s). split_and!; [|..|done].
  - by intros Hnil; rewrite Hnil in Hlen.
  - unfold session_chunks. destruct (recorders s !! r) eqn:Hr; [eauto|done].
Qed.

Lemma Inv_step e s s' : Inv s → step e s = Some s' → Inv s'.
Proof.
  intros HI Hstep. destruct e as [ok|h|r data|r data|r data]; cbn in Hstep.
  - simplify_eq. by apply Inv_commit, Inv_handleRecord.
  - destruct h as [|i]; [done|].
    destruct (timers s !! i) as [t|]; [|done].
    destruct (tm_armed t); simplify_eq.
    apply Inv_commit. unfold timeout_callback.
    by apply (Inv_recorder_stop (tm_recorder t) (spend_timer i t s)).
  - destruct (recorders s !! r) as [rc|]; [|done].
    destruct (rec_state rc); simplify_eq.
    by apply Inv_commit, Inv_ondataavailable.
  - destruct (recorders s !! r) as [rc|] eqn:Hr; [|done].
    destruct (rec_stop_queued rc) eqn:Hq; simplify_eq.
    assert (unfinished rc) as Hun by (by right).
    destruct (put_recorder_quiescent r rc s HI Hr Hun) as [HI1 Hq1].
    apply Inv_commit. unfold end_session. apply Inv_onstop.
    + by apply Inv_ondataavailable.
    + by apply ondataavailable_quiescent.
    + destruct (inv_current _ _ _ _ _ _ HI r rc Hr Hun) as [Hrec _].
      pose proof (inv_no_url _ _ _ _ _ _ HI Hrec) as Hu.
      by rewrite ondataavailable_downloadUrl.
  - destruct (recorders s !! r) as [rc|] eqn:Hr; [|done].
    destruct (rec_state rc) eqn:Hrs; simplify_eq.
    assert (unfinished rc) as Hun by (by left).
    destruct (put_recorder_quiescent r rc s HI Hr Hun) as [HI1 Hq1].
    apply Inv_commit. unfold end_session. apply Inv_onstop.
    + apply Inv_ondataavailable. by apply Inv_onerror.
    + by apply ondataavailable_quiescent.
    + destruct (inv_current _ _ _ _ _ _ HI r rc Hr Hun) as [Hrec _].
      pose proof (inv_no_url _ _ _ _ _ _ HI Hrec) as Hu.
      by rewrite ondataavailable_downloadUrl.
Qed.

Lemma reachable_Inv s : reachable s → Inv s.
Proof.
  induction 1 as [canvas|e s s' _ IH Hstep];
    [apply Inv_mount|by eapply Inv_step].
Qed.


(** ** Counting [onstop] runs and minted URLs *)

#[local] Instance calm_refl : Reflexive calm.
Proof. intros s. split; [by exists []|done]. Qed.

#[local] Instance calm_trans : Transitive calm.
Proof.
  intros s1 s2 s3 [(d1 & E1 & Q1) D1] [(d2 & E2 & Q2) D2]. split.
  - exists (d2 ++ d1). rewrite E2, E1, (assoc_L (++)). split; [done|].
    by apply Forall_app.
  - intros r. by rewrite D2, D1.
Qed.

Lemma calm_log e s : quiet e → calm s (record_effect e s).
Proof. intros Hq. split; [|done]. exists [e]. split; [done|]. by constructor. Qed.

Lemma count_effects_quiet p s s' :
  (∀ e, quiet e → p e = false) → calm s s' →
  count_effects p s' = count_effects p s.
Proof.
  intros Hp [(d & E & Q) _]. unfold count_effects. rewrite E, filter_app.
  assert (filter (λ e, p e = true) d = []) as ->; [|done].
  clear E. induction Q as [|e d He _ IH]; [done|].
  rewrite filter_cons_False; [done|]. by rewrite (Hp e He).
Qed.

Lemma quiet_is_onstop r e : quiet e → is_onstop r e = false.
Proof. by destruct e. Qed.
Lemma quiet_is_any_onstop e : quiet e → is_any_onstop e = false.
Proof. by destruct e. Qed.
Lemma quiet_is_create e : quiet e → is_createObjectURL e = false.
Proof. by destruct e. Qed.

Lemma Tally_calm s s' : Tally s → calm s s' → Tally s'.
Proof.
  intros [HJ HM] Hc. split.
  - intros r. unfold onstop_count.
    rewrite (count_effects_quiet _ s s') by eauto using quiet_is_onstop.
    destruct Hc as [_ ->]. apply HJ.
  - unfold minted_count, onstop_total.
    rewrite !(count_effects_quiet _ s s')
      by eauto using quiet_is_any_onstop, quiet_is_create.
    apply HM.
Qed.

(** Replacing a recorder by one that is as unfinished as it was. *)
Lemma done_count_insert r rc rc' s r' :
  recorders s !! r = Some rc → (unfinished rc' ↔ unfinished rc) →
  match <[r := rc']> (recorders s) !! r' with
  | Some x => if decide (unfinished x) then 0 else 1
  | None => 0
  end = done_count r' s.
Proof.
  intros Hr Hiff. unfold done_count.
  assert (r < length (recorders s)) by (by eapply lookup_lt_Some).
  destruct (decide (r' = r)) as [->|Hne].
  - rewrite list_lookup_insert_eq, Hr by done.
    repeat case_decide; tauto.
  - by rewrite list_lookup_insert_ne.
Qed.

Lemma calm_recorder_stop r s : calm s (recorder_stop r s).
Proof.
  unfold recorder_stop.
  destruct (recorders s !! r) as [rc|] eqn:Hr; [|done].
  destruct (rec_state rc) eqn:Hst; [by apply calm_log|].
  split; [exists [FxStop r]; split; [done|by constructor]|].
  intros r'. apply (done_count_insert r rc); [done|].
  split; intros _; [by left|by right].
Qed.

Lemma calm_ondataavailable r data s : calm s (ondataavailable r data s).
Proof.
  unfold ondataavailable. case_decide; [|done].
  destruct (recorders s !! r) as [rc|] eqn:Hr; [|done].
  split; [by exists []|].
  intros r'. by apply (done_count_insert r rc).
Qed.

Lemma calm_clearTimeout h s : calm s (clearTimeout h s).
Proof.
  unfold clearTimeout. split; [|by destruct h as [|i]; [|destruct (timers s !! i)]].
  exists [FxClearTimeout h]. split; [|by constructor].
  by destruct h as [|i]; [|destruct (timers s !! i)].
Qed.

Lemma calm_revoke u s : calm s (revokeObjectURL u s).
Proof. split; [|done]. exists [FxRevokeObjectURL u]. split; [done|by constructor]. Qed.

Lemma calm_effect_cleanup closure s : calm s (effect_cleanup closure s).
Proof.
  unfold effect_cleanup.
  set (s1 := match recorderRef s with Some r => _ | None => s end).
  assert (calm s s1) as H1.
  { subst s1. destruct (recorderRef s) as [r|]; [|done].
    destruct (recorders s !! r) as [rc|]; [|done].
    destruct (rec_state rc); [done|]. apply calm_recorder_stop. }
  set (s2 := match pendingTimeoutRef s1 with Some (S i) => _ | _ => s1 end).
  assert (calm s1 s2) as H2.
  { subst s2. destruct (pendingTimeoutRef s1) as [[|i]|]; try done.
    apply calm_clearTimeout. }
  destruct closure as [u|]; [|by etrans].
  etrans; [exact H1|]. etrans; [exact H2|]. apply calm_revoke.
Qed.

Lemma calm_commit prev s : calm s (commit prev s).
Proof. unfold commit. case_decide; [done|]. apply calm_effect_cleanup. Qed.

Lemma quiet_ext_nil (h : list Effect) : ∃ d, h = d ++ h ∧ Forall quiet d.
Proof. by exists []. Qed.

Lemma quiet_ext_cons e (h h' : list Effect) :
  quiet e → (∃ d, h' = d ++ h ∧ Forall quiet d) →
  ∃ d, e :: h' = d ++ h ∧ Forall quiet d.
Proof.
  intros He (d & -> & Hd). exists (e :: d). split; [done|by constructor].
Qed.

Lemma calm_handleRecord ctor_ok s : calm s (handleRecord ctor_ok s).
Proof.
  unfold handleRecord.
  destruct (canvasRef s) as [cv|] eqn:Hcv; [|done].
  destruct (has_captureStream cv) eqn:Hcap; cbn [negb];
    [|by split; [exists []|]].
  destruct (recorderState s) eqn:Hst.
  2:{ destruct (recorderRef s); [apply calm_recorder_stop|done]. }
  destruct ctor_ok.
  2:{ split; [|done]. exists [FxConsoleError; FxCaptureStream 60].
      split; [done|]. by repeat constructor. }
  unfold release_downloadUrl, recorder_start.
  destruct (downloadUrl s) as [u|] eqn:Hu; cbn; rewrite ?Hu; cbn.
  all: rewrite lookup_app_r, Nat.sub_diag by done; cbn.
  all: rewrite insert_app_r_alt, Nat.sub_diag by done; cbn.
  all: split; [repeat (apply quiet_ext_cons; [done|]); apply quiet_ext_nil|].
  all: intros r; unfold done_count; cbn.
  all: destruct (recorders s !! r) as [rc|] eqn:Hr.
  all: try by rewrite (lookup_app_l_Some _ _ _ _ Hr).
  all: apply lookup_ge_None in Hr.
  all: rewrite lookup_app_r by done.
  all: destruct (r - length (recorders s)) as [|k]; cbn; [|done].
  all: case_decide as Hun; [done|]. 
  all: exfalso; apply Hun; by left.
Qed.

Lemma calm_onerror s : calm s (onerror s).
Proof. split; [by exists []|done]. Qed.

(** What one run of [onstop] adds to the counts. *)
Lemma onstop_counts r s :
  (∀ r', onstop_count r' (onstop r s) =
         onstop_count r' s + (if decide (r' = r) then 1 else 0)) ∧
  onstop_total (onstop r s) = onstop_total s + 1 ∧
  minted_count (onstop r s) =
    minted_count s + (if decide (length (session_chunks r s) = 0) then 0 else 1) ∧
  recorders (onstop r s) = recorders s.
Proof.
  unfold onstop, onstop_count, onstop_total, minted_count, count_effects. cbn.
  change (session_chunks r (record_effect (FxOnStop r) s))
    with (session_chunks r s).
  destruct (decide (length (session_chunks r s) = 0)); cbn.
  all: split_and!; try done; [intros r'|..]; rewrite ?filter_cons; cbn.
  all: try (destruct (decide (r' = r)) as [->|Hne];
            [rewrite bool_decide_eq_true_2 by done
            |rewrite bool_decide_eq_false_2 by done]).
  all: repeat case_decide; try done; cbn; try lia.
  all: symmetry; apply Nat.add_1_r.
Qed.

Lemma Tally_end_session errored r rc data s :
  Tally s → recorders s !! r = Some rc → unfinished rc →
  Tally (end_session errored r data s).
Proof.
  intros [HJ HM] Hr Hun. unfold end_session.
  set (s1 := put_recorder r rs_inactive false s).
  set (s2 := ondataavailable r data (if errored then onerror s1 else s1)).
  assert (calm s1 s2) as Hc.
  { etrans; [|apply calm_ondataavailable].
    destruct errored; [apply calm_onerror|done]. }
  assert (r < length (recorders s)) by (by eapply lookup_lt_Some).
  assert (∀ r', done_count r' s1 =
                done_count r' s + (if decide (r' = r) then 1 else 0)) as Hd.
  { intros r'. unfold done_count, s1, put_recorder, session_chunks. cbn.
    rewrite Hr. destruct (decide (r' = r)) as [->|Hne].
    - rewrite list_lookup_insert_eq, Hr by done.
      rewrite decide_False, decide_True; [done..|]. by intros [?|?].
    - rewrite list_lookup_insert_ne by done.
      destruct (recorders s !! r'); [case_decide|]; lia. }
  destruct (onstop_counts r s2) as (C1 & C2 & C3 & C4).
  split.
  - intros r'. rewrite C1. unfold done_count. rewrite C4.
    fold (done_count r' s2). rewrite (proj2 Hc), Hd.
    f_equal. unfold onstop_count.
    rewrite (count_effects_quiet _ s1 s2); [apply HJ| |done].
    intros e. apply quiet_is_onstop.
  - rewrite C2, C3. unfold minted_count, onstop_total in *.
    rewrite !(count_effects_quiet _ s1 s2)
      by eauto using quiet_is_any_onstop, quiet_is_create.
    change (count_effects is_createObjectURL s1)
      with (count_effects is_createObjectURL s).
    change (count_effects is_any_onstop s1)
      with (count_effects is_any_onstop s).
    case_decide; lia.
Qed.

Lemma Tally_step e s s' : Tally s → step e s = Some s' → Tally s'.
Proof.
  intros HT Hstep. destruct e as [ok|h|r data|r data|r data]; cbn in Hstep.
  - simplify_eq. eapply Tally_calm; [done|].
    etrans; [apply calm_handleRecord|apply calm_commit].
  - destruct h as [|i]; [done|].
    destruct (timers s !! i) as [t|]; [|done].
    destruct (tm_armed t); simplify_eq.
    eapply Tally_calm; [done|]. etrans; [|apply calm_commit].
    unfold timeout_callback.
    etrans; [|split; [by exists []|done]].
    apply (calm_recorder_stop (tm_recorder t) (spend_timer i t s)).
  - destruct (recorders s !! r) as [rc|]; [|done].
    destruct (rec_state rc); simplify_eq.
    eapply Tally_calm; [done|].
    etrans; [apply calm_ondataavailable|apply calm_commit].
  - destruct (recorders s !! r) as [rc|] eqn:Hr; [|done].
    destruct (rec_stop_queued rc) eqn:Hq; simplify_eq.
    eapply Tally_calm; [|apply calm_commit].
    apply (Tally_end_session false r rc); [done|done|by right].
  - destruct (recorders s !! r) as [rc|] eqn:Hr; [|done].
    destruct (rec_state rc) eqn:Hrs; simplify_eq.
    eapply Tally_calm; [|apply calm_commit].
    apply (Tally_end_session true r rc); [done|done|by left].
Qed.

Lemma Tally_mount canvas : Tally (mount canvas).
Proof. split; [|done]. intros r. by destruct r. Qed.

Lemma reachable_Tally s : reachable s → Tally s.
Proof.
  induction 1 as [canvas|e s s' _ IH Hstep];
    [apply Tally_mount|by eapply Tally_step].
Qed.


(** ** What the end of a session leaves behind *)

(** The clean-up that runs when a URL is published finds no recorder to
    stop and nothing to revoke; it can only cancel the pending timer. *)
Lemma cleanup_after_publish s :
  quiescent s →
  effect_cleanup None s =
    match pendingTimeoutRef s with
    | Some (S i) => clearTimeout (S i) s
    | _ => s
    end.
Proof.
  intros Hq. unfold effect_cleanup.
  destruct (recorderRef s) as [r|]; [|done].
  destruct (recorders s !! r) as [rc|] eqn:Hr; [|done].
  destruct (rec_state rc) eqn:Hst; [done|].
  destruct (Hq r rc Hr). by left.
Qed.

Lemma clearTimeout_disarms i s :
  timer_armed (S i) (clearTimeout (S i) s) = false.
Proof.
  unfold clearTimeout, timer_armed. cbn.
  destruct (timers s !! i) as [t|] eqn:Ht; cbn; [|by rewrite Ht].
  rewrite list_lookup_insert_eq; [done|]. by eapply lookup_lt_Some.
Qed.

Lemma onstop_fields r s :
  let s' := onstop r s in
  recorderState s' = idle ∧ recorders s' = recorders s ∧
  timers s' = timers s ∧ pendingTimeoutRef s' = pendingTimeoutRef s ∧
  recorderRef s' = recorderRef s ∧
  (length (session_chunks r s) = 0 →
     message s' = msg_no_data ∧ downloadUrl s' = downloadUrl s ∧
     objectUrls s' = objectUrls s) ∧
  (length (session_chunks r s) ≠ 0 →
     message s' = msg_ready ∧ downloadUrl s' = Some (S (urlCounter s)) ∧
     objectUrls s' =
       objectUrls s ++
         [(S (urlCounter s), new_Blob (session_chunks r s) "video/webm")]).
Proof.
  unfold onstop. cbn.
  change (session_chunks r (record_effect (FxOnStop r) s))
    with (session_chunks r s).
  case_decide; cbn; split_and!; done.
Qed.

(** The render after a session has ended. *)
Lemma commit_fields prev s :
  quiescent s → downloadUrl prev = None →
  let s' := commit prev s in
  recorderState s' = recorderState s ∧ message s' = message s ∧
  downloadUrl s' = downloadUrl s ∧ recorderRef s' = recorderRef s ∧
  pendingTimeoutRef s' = pendingTimeoutRef s ∧
  recorders s' = recorders s ∧ objectUrls s' = objectUrls s ∧
  (downloadUrl s = None → timers s' = timers s) ∧
  (downloadUrl s ≠ None →
     ∀ i, pendingTimeoutRef s = Some (S i) → timer_armed (S i) s' = false).
Proof.
  intros Hq Hprev. unfold commit. rewrite Hprev. case_decide as Hu.
  - split_and!; try done; intros Hne; by rewrite <- Hu in Hne.
  - rewrite cleanup_after_publish by done.
    destruct (pendingTimeoutRef s) as [[|i]|] eqn:Hp.
    1,3: split_and!; try done; by intros _ j ?.
    split_and!; try done.
    1-7: unfold clearTimeout; by destruct (timers s !! i).
    intros _ j ?. simplify_eq. apply clearTimeout_disarms.
Qed.

Lemma end_session_spec errored r rc data s :
  Inv s → recorders s !! r = Some rc → unfinished rc →
  let s' := commit s (end_session errored r data s) in
  let cs := final_chunks r data s in
  recorderState s' = idle ∧
  session_chunks r s' = cs ∧
  pendingTimeoutRef s' = pendingTimeoutRef s ∧
  recorderRef s' = recorderRef s ∧
  onstop_count r s' = onstop_count r s + 1 ∧
  (cs = [] →
     message s' = msg_no_data ∧ downloadUrl s' = None ∧ objectUrls s' = [] ∧
     minted_count s' = minted_count s ∧ timers s' = timers s) ∧
  (cs ≠ [] →
     message s' = msg_ready ∧
     downloadUrl s' = Some (S (urlCounter s)) ∧
     objectUrls s' = [(S (urlCounter s), new_Blob cs "video/webm")] ∧
     minted_count s' = minted_count s + 1 ∧
     ∀ i, pendingTimeoutRef s = Some (S i) → timer_armed (S i) s' = false).
Proof.
  intros HI Hr Hun s' cs.
  destruct (inv_current _ _ _ _ _ _ HI r rc Hr Hun) as [Hrec Href].
  pose proof (inv_no_url _ _ _ _ _ _ HI Hrec) as Hu.
  pose proof (inv_live _ _ _ _ _ _ HI) as Hlive. rewrite Hu in Hlive.
  destruct (objectUrls s) as [|] eqn:Hobj; [clear Hlive|done].
  assert (r < length (recorders s)) as Hlt by (by eapply lookup_lt_Some).
  destruct (put_recorder_quiescent r rc s HI Hr Hun) as [_ Hq1].
  subst s'. unfold end_session.
  set (s1 := put_recorder r rs_inactive false s) in *.
  set (s2 := if errored then onerror s1 else s1).
  set (s3 := ondataavailable r data s2).
  assert (quiescent s3) as Hq3.
  { apply ondataavailable_quiescent. by destruct errored. }
  assert (recorders s2 !! r =
            Some {| rec_state := rs_inactive; rec_stop_queued := false;
                    chunks := chunks rc |}) as Hr2.
  { assert (recorders s2 = recorders s1) as -> by (by destruct errored).
    unfold s1, put_recorder, session_chunks. cbn.
    by rewrite Hr, list_lookup_insert_eq. }
  assert (session_chunks r s3 = cs) as Hcs.
  { unfold cs, final_chunks, s3, ondataavailable, session_chunks.
    rewrite Hr. case_decide.
    - rewrite Hr2. cbn. rewrite list_lookup_insert_eq; [done|].
      by eapply lookup_lt_Some.
    - by rewrite Hr2, (right_id_L [] (++)). }
  assert (downloadUrl s3 = None ∧ objectUrls s3 = [] ∧
          urlCounter s3 = urlCounter s ∧
          pendingTimeoutRef s3 = pendingTimeoutRef s ∧
          recorderRef s3 = recorderRef s ∧ timers s3 = timers s ∧
          history s3 = history s) as (Hu3 & Ho3 & Hc3 & Hp3 & Hf3 & Ht3 & Hh3).
  { unfold s3, ondataavailable. case_decide; [rewrite Hr2|]; cbn.
    all: by destruct errored. }
  destruct (onstop_counts r s3) as (C1 & _ & C3 & C4).
  destruct (onstop_fields r s3) as (F1 & F2 & F3 & F4 & F5 & F6 & F7).
  rewrite Hcs in C3, F6, F7.
  assert (quiescent (onstop r s3)) as Hq4.
  { intros i x Hi. rewrite C4 in Hi. by apply (Hq3 i x). }
  destruct (commit_fields s (onstop r s3) Hq4 Hu)
    as (G1 & G2 & G3 & G4 & G5 & G6 & G7 & G8 & G9).
  pose proof (calm_commit s (onstop r s3)) as Hcalm.
  assert (∀ p, (∀ e, quiet e → p e = false) →
               count_effects p (commit s (onstop r s3)) =
               count_effects p (onstop r s3)) as Hcount.
  { intros p Hp. by apply count_effects_quiet. }
  assert (onstop_count r s3 = onstop_count r s) as Hn3
    by (unfold onstop_count, count_effects; by rewrite Hh3).
  assert (minted_count s3 = minted_count s) as Hm3
    by (unfold minted_count, count_effects; by rewrite Hh3).
  split_and!.
  - by rewrite G1.
  - unfold session_chunks. rewrite G6, C4. exact Hcs.
  - by rewrite G5, F4.
  - by rewrite G4, F5.
  - unfold onstop_count. rewrite Hcount by (intros e; apply quiet_is_onstop).
    fold (onstop_count r (onstop r s3)).
    rewrite (C1 r), decide_True, Hn3 by done. done.
  - intros Hnil. destruct F6 as (M & U & O); [by rewrite Hnil|].
    split_and!.
    + by rewrite G2.
    + by rewrite G3, U.
    + by rewrite G7, O.
    + unfold minted_count. rewrite Hcount by (intros e; apply quiet_is_create).
      fold (minted_count (onstop r s3)).
      rewrite C3, decide_True, Hm3 by (by rewrite Hnil). apply Nat.add_0_r.
    + rewrite G8, F3; [done|]. by rewrite U.
  - intros Hne. assert (length cs ≠ 0) as Hlen by (by destruct cs).
    destruct (F7 Hlen) as (M & U & O). split_and!.
    + by rewrite G2.
    + by rewrite G3, U, Hc3.
    + by rewrite G7, O, Ho3, Hc3.
    + unfold minted_count. rewrite Hcount by (intros e; apply quiet_is_create).
      fold (minted_count (onstop r s3)).
      by rewrite C3, decide_False, Hm3.
    + intros i Hi. apply G9; [by rewrite U|]. by rewrite F4, Hp3.
Qed.

(** ** The timeout handle and the timers *)

Lemma ref_recorder_stop r s :
  pendingTimeoutRef (recorder_stop r s) = pendingTimeoutRef s.
Proof.
  unfold recorder_stop. destruct (recorders s !! r) as [rc|]; [|done].
  by destruct (rec_state rc).
Qed.

Lemma ref_ondataavailable r data s :
  pendingTimeoutRef (ondataavailable r data s) = pendingTimeoutRef s.
Proof.
  unfold ondataavailable. case_decide; [|done].
  by destruct (recorders s !! r).
Qed.

Lemma ref_clearTimeout h s :
  pendingTimeoutRef (clearTimeout h s) = pendingTimeoutRef s.
Proof.
  unfold clearTimeout. destruct h as [|i]; [done|].
  by destruct (timers s !! i).
Qed.

Lemma ref_effect_cleanup closure s :
  pendingTimeoutRef (effect_cleanup closure s) = pendingTimeoutRef s.
Proof.
  unfold effect_cleanup.
  set (s1 := match recorderRef s with Some r => _ | None => s end).
  assert (pendingTimeoutRef s1 = pendingTimeoutRef s) as E1.
  { subst s1. destruct (recorderRef s) as [r|]; [|done].
    destruct (recorders s !! r) as [rc|]; [|done].
    destruct (rec_state rc); [done|]. apply ref_recorder_stop. }
  set (s2 := match pendingTimeoutRef s1 with Some (S i) => _ | _ => s1 end).
  assert (pendingTimeoutRef s2 = pendingTimeoutRef s) as E2.
  { subst s2. destruct (pendingTimeoutRef s1) as [[|i]|] eqn:E; try congruence.
    by rewrite ref_clearTimeout, E, <- E1. }
  by destruct closure.
Qed.

Lemma ref_commit prev s :
  pendingTimeoutRef (commit prev s) = pendingTimeoutRef s.
Proof. unfold commit. case_decide; [done|]. apply ref_effect_cleanup. Qed.

Lemma ref_end_session errored r data s :
  pendingTimeoutRef (end_session errored r data s) = pendingTimeoutRef s.
Proof.
  unfold end_session.
  destruct (onstop_fields r (ondataavailable r data
              (if errored then onerror (put_recorder r rs_inactive false s)
               else put_recorder r rs_inactive false s)))
    as (_ & _ & _ & -> & _).
  rewrite ref_ondataavailable. by destruct errored.
Qed.

(** The handle is reset to [null] by the timeout callback only. *)
Lemma only_timeout_resets_handle e s s' h :
  step e s = Some s' →
  pendingTimeoutRef s = Some h → pendingTimeoutRef s' = None →
  ∃ h', e = TimerFires h'.
Proof.
  intros Hstep Hh Hn. destruct e as [ok|h'|r data|r data|r data];
    [|by eexists|..]; exfalso; cbn in Hstep.
  - simplify_eq. rewrite ref_commit in Hn. revert Hn.
    destruct (canvasRef s) as [cv|] eqn:Hcv;
      [|unfold handleRecord; rewrite Hcv; congruence].
    destruct (has_captureStream cv) eqn:Hcap;
      [|unfold handleRecord; rewrite Hcv, Hcap; cbn; congruence].
    destruct (recorderState s) eqn:Hst.
    + destruct ok;
        [|unfold handleRecord; rewrite Hcv, Hcap, Hst; cbn; congruence].
      destruct (handleRecord_start s cv Hcv Hcap Hst)
        as (_ & _ & _ & _ & -> & _). done.
    + unfold handleRecord; rewrite Hcv, Hcap, Hst; cbn.
      destruct (recorderRef s); [|congruence].
      rewrite ref_recorder_stop. congruence.
  - destruct (recorders s !! r) as [rc|]; [|done].
    destruct (rec_state rc); simplify_eq.
    rewrite ref_commit, ref_ondataavailable in Hn. congruence.
  - destruct (recorders s !! r) as [rc|]; [|done].
    destruct (rec_stop_queued rc); simplify_eq.
    rewrite ref_commit, ref_end_session in Hn. congruence.
  - destruct (recorders s !! r) as [rc|]; [|done].
    destruct (rec_state rc); simplify_eq.
    rewrite ref_commit, ref_end_session in Hn. congruence.
Qed.

(** A timer that fires for a recorder that is no longer recording changes
    nothing but the handle (and the log). *)
Lemma late_timeout_is_noop i t rc s s' :
  timers s !! i = Some t → recorders s !! tm_recorder t = Some rc →
  rec_state rc = rs_inactive →
  step (TimerFires (S i)) s = Some s' →
  pendingTimeoutRef s' = None ∧
  recorders s' = recorders s ∧ recorderState s' = recorderState s ∧
  downloadUrl s' = downloadUrl s ∧ message s' = message s ∧
  objectUrls s' = objectUrls s ∧ recorderRef s' = recorderRef s ∧
  history s' = FxStopIgnored (tm_recorder t) :: history s.
Proof.
  intros Ht Hr Hst Hstep. cbn in Hstep. rewrite Ht in Hstep.
  destruct (tm_armed t); simplify_eq.
  unfold timeout_callback, recorder_stop. cbn. rewrite Hr, Hst. cbn.
  unfold commit. cbn. by rewrite decide_True.
Qed.

(** A timer that is spent or cancelled stays so. *)
Lemma disarmed_timers i s s' : timers s' = timers s → disarmed i s → disarmed i s'.
Proof. intros E (t & Ht & Ha). exists t. by rewrite E. Qed.

Lemma disarmed_insert i j t s s' :
  timers s' = <[j := {| tm_recorder := tm_recorder t; tm_armed := false |}]> (timers s) →
  disarmed i s → disarmed i s'.
Proof.
  intros E (x & Hx & Ha). unfold disarmed. rewrite E.
  destruct (decide (i = j)) as [->|Hne].
  - eexists. rewrite list_lookup_insert_eq by (by eapply lookup_lt_Some). done.
  - exists x. by rewrite list_lookup_insert_ne.
Qed.

Lemma timers_recorder_stop r s : timers (recorder_stop r s) = timers s.
Proof.
  unfold recorder_stop. destruct (recorders s !! r) as [rc|]; [|done].
  by destruct (rec_state rc).
Qed.

Lemma timers_ondataavailable r data s :
  timers (ondataavailable r data s) = timers s.
Proof.
  unfold ondataavailable. case_decide; [|done].
  by destruct (recorders s !! r).
Qed.

Lemma disarmed_clearTimeout i h s : disarmed i s → disarmed i (clearTimeout h s).
Proof.
  intros Hd. unfold clearTimeout. destruct h as [|j]; [done|].
  destruct (timers s !! j) as [t|] eqn:Ht; [|done].
  by eapply (disarmed_insert i j t).
Qed.

Lemma disarmed_effect_cleanup i closure s :
  disarmed i s → disarmed i (effect_cleanup closure s).
Proof.
  intros Hd. unfold effect_cleanup.
  set (s1 := match recorderRef s with Some r => _ | None => s end).
  assert (disarmed i s1) as H1.
  { subst s1. destruct (recorderRef s) as [r|]; [|done].
    destruct (recorders s !! r) as [rc|]; [|done].
    destruct (rec_state rc); [done|].
    eapply disarmed_timers; [apply timers_recorder_stop|done]. }
  set (s2 := match pendingTimeoutRef s1 with Some (S i) => _ | _ => s1 end).
  assert (disarmed i s2) as H2.
  { subst s2. destruct (pendingTimeoutRef s1) as [[|j]|]; try done.
    by apply disarmed_clearTimeout. }
  by destruct closure.
Qed.

Lemma disarmed_commit i prev s : disarmed i s → disarmed i (commit prev s).
Proof.
  intros Hd. unfold commit. case_decide; [done|].
  by apply disarmed_effect_cleanup.
Qed.

Lemma disarmed_step i e s s' : disarmed i s → step e s = Some s' → disarmed i s'.
Proof.
  intros Hd Hstep. destruct e as [ok|h|r data|r data|r data]; cbn in Hstep.
  - simplify_eq. apply disarmed_commit.
    destruct (canvasRef s) as [cv|] eqn:Hcv;
      [|by unfold handleRecord; rewrite Hcv].
    destruct (has_captureStream cv) eqn:Hcap;
      [|by unfold handleRecord; rewrite Hcv, Hcap].
    destruct (recorderState s) eqn:Hst.
    + destruct ok; [|by unfold handleRecord; rewrite Hcv, Hcap, Hst].
      destruct (handleRecord_start s cv Hcv Hcap Hst)
        as (_ & _ & _ & _ & _ & _ & _ & E & _).
      destruct Hd as (t & Ht & Ha). exists t.
      by rewrite E, (lookup_app_l_Some _ _ _ _ Ht).
    + unfold handleRecord; rewrite Hcv, Hcap, Hst; cbn.
      destruct (recorderRef s); [|done].
      eapply disarmed_timers; [apply timers_recorder_stop|done].
  - destruct h as [|j]; [done|].
    destruct (timers s !! j) as [t|] eqn:Ht; [|done].
    destruct (tm_armed t); simplify_eq.
    apply disarmed_commit. unfold timeout_callback.
    eapply (disarmed_timers i (spend_timer j t s));
      [cbn; apply timers_recorder_stop|].
    by eapply (disarmed_insert i j t).
  - destruct (recorders s !! r) as [rc|]; [|done].
    destruct (rec_state rc); simplify_eq.
    apply disarmed_commit.
    eapply disarmed_timers; [apply timers_ondataavailable|done].
  - destruct (recorders s !! r) as [rc|]; [|done].
    destruct (rec_stop_queued rc); simplify_eq.
    apply disarmed_commit. unfold end_session.
    eapply disarmed_timers; [|exact Hd].
    destruct (onstop_fields r (ondataavailable r data
                (put_recorder r rs_inactive false s)))
      as (_ & _ & -> & _).
    by rewrite timers_ondataavailable.
  - destruct (recorders s !! r) as [rc|]; [|done].
    destruct (rec_state rc); simplify_eq.
    apply disarmed_commit. unfold end_session.
    eapply disarmed_timers; [|exact Hd].
    destruct (onstop_fields r (ondataavailable r data
                (onerror (put_recorder r rs_inactive false s))))
      as (_ & _ & -> & _).
    by rewrite timers_ondataavailable.
Qed.

Lemma disarmed_never_fires i es s s' :
  disarmed i s → run es s = Some s' → step (TimerFires (S i)) s' = None.
Proof.
  revert s. induction es as [|e es IH]; intros s Hd Hrun; cbn in Hrun.
  - simplify_eq. destruct Hd as (t & Ht & Ha). cbn. by rewrite Ht, Ha.
  - destruct (step e s) as [s1|] eqn:He; [|done].
    eapply IH; [|done]. by eapply disarmed_step.
Qed.


(** ** The claims about the capture controller *)

Lemma reachable_run es s s' : reachable s → run es s = Some s' → reachable s'.
Proof.
  revert s. induction es as [|e es IH]; intros s Hs Hrun; cbn in Hrun.
  - by simplify_eq.
  - destruct (step e s) as [s1|] eqn:He; [|done].
    eapply IH; [|done]. by eapply reachable_step.
Qed.

(** C7. When the start control is used on a surface without
    [captureStream], the controller only replaces the status text by the
    unsupported-feature message: the recorder state (idle stays idle), the
    chunk buffers, the download URL, both refs, the timers and the log of
    browser calls are what they were. *)
Theorem unsupported_start_only_reports s cv ctor_ok s' :
  canvasRef s = Some cv → has_captureStream cv = false →
  step (Click ctor_ok) s = Some s' →
  s' = setMessage msg_unsupported s ∧
  message s' = msg_unsupported ∧
  recorderState s' = recorderState s ∧
  downloadUrl s' = downloadUrl s ∧
  recorderRef s' = recorderRef s ∧
  pendingTimeoutRef s' = pendingTimeoutRef s ∧
  recorders s' = recorders s ∧
  timers s' = timers s ∧
  objectUrls s' = objectUrls s ∧
  history s' = history s.
Proof.
  intros Hcv Hcap Hstep. cbn in Hstep.
  unfold handleRecord in Hstep. rewrite Hcv, Hcap in Hstep. cbn in Hstep.
  unfold commit in Hstep. cbn in Hstep.
  rewrite decide_True in Hstep by done. by simplify_eq.
Qed.

Lemma unsupported_start_only_reports_witness :
  canvasRef (mount plain_canvas) = Some {| has_captureStream := false |} ∧
  recorderState (mount plain_canvas) = idle ∧
  ∃ s', step (Click true) (mount plain_canvas) = Some s' ∧
        message s' = msg_unsupported ∧ recorderState s' = idle.
Proof.
  split; [reflexivity|]. split; [reflexivity|].
  eexists. split; [reflexivity|].
  destruct (unsupported_start_only_reports (mount plain_canvas)
              {| has_captureStream := false |} true _
              eq_refl eq_refl eq_refl) as (_ & Hm & Hs & _).
  split; [exact Hm|exact Hs].
Defined.

(** C9. In every reachable state every chunk held in a session's buffer has
    positive size; the data-available handler leaves the state untouched
    when the delivered chunk has size zero; and every resource that is live
    was assembled from at least one chunk, all of positive size. *)
Theorem buffered_chunks_nonempty s :
  reachable s →
  (∀ r rc, recorders s !! r = Some rc →
           Forall (λ b, 0 < size b) (chunks rc)) ∧
  (∀ r data, size data = 0 → ondataavailable r data s = s) ∧
  (∀ u b, (u, b) ∈ objectUrls s →
          ∃ cs, cs ≠ [] ∧ Forall (λ c, 0 < size c) cs ∧
                b = new_Blob cs "video/webm").
Proof.
  intros Hs. pose proof (reachable_Inv s Hs) as HI. split_and!.
  - intros r rc Hr. by eapply inv_chunks.
  - intros r data Hz. unfold ondataavailable.
    rewrite decide_False; [done|lia].
  - intros u b Hin.
    pose proof (inv_blobs _ _ _ _ _ _ HI) as Hb.
    rewrite Forall_forall in Hb. exact (Hb (u, b) Hin).
Qed.

Lemma buffered_chunks_nonempty_witness :
  ∃ s, run [Click true; DataAvailable 0 empty_chunk;
            DataAvailable 0 demo_chunk; Click true; StopTask 0 empty_chunk]
           (mount demo_canvas) = Some s ∧
       (∀ r rc, recorders s !! r = Some rc →
                Forall (λ b, 0 < size b) (chunks rc)) ∧
       session_chunks 0 s = [demo_chunk].
Proof.
  eexists. split; [vm_compute; reflexivity|]. split; [|reflexivity].
  refine (proj1 (buffered_chunks_nonempty _ _)).
  apply (reachable_run
           [Click true; DataAvailable 0 empty_chunk;
            DataAvailable 0 demo_chunk; Click true; StopTask 0 empty_chunk]
           (mount demo_canvas)); [apply reachable_mount|].
  vm_compute; reflexivity.
Defined.

Lemma filter_none {A} (P : A → Prop) `{∀ x, Decision (P x)} (l : list A) :
  (∀ x, x ∈ l → ¬ P x) → filter P l = [].
Proof.
  induction l as [|a l IH]; intros Hl; [done|].
  rewrite filter_cons_False by (apply Hl; left).
  apply IH. intros x Hx. apply Hl. by right.
Qed.

(** At most one element of a list satisfies a predicate that pins down
    the position. *)
Lemma filter_at_most_one {A} (P : A → Prop) `{∀ x, Decision (P x)}
    (l : list A) :
  (∀ i j x y, l !! i = Some x → l !! j = Some y → P x → P y → i = j) →
  length (filter P l) ≤ 1.
Proof.
  induction l as [|a l IH]; intros Huniq; [cbn; lia|].
  rewrite filter_cons. case_decide as Ha.
  - assert (filter P l = []) as ->; [|cbn; lia].
    apply filter_none. intros y Hy Py.
    apply list_elem_of_lookup in Hy as [j Hj].
    by specialize (Huniq 0 (S j) a y eq_refl Hj Ha Py).
  - apply IH. intros i j x y Hi Hj Px Py.
    by specialize (Huniq (S i) (S j) x y Hi Hj Px Py); simplify_eq.
Qed.

(** C2. In every reachable state at most one recorder is in state
    ['recording']. Using the start control while the component shows
    'recording' creates no recorder and leaves none recording: the session
    that was open has been told to stop. *)
Theorem at_most_one_open_session s :
  reachable s →
  length (open_sessions s) ≤ 1 ∧
  (recorderState s = recording →
   ∀ ctor_ok s', step (Click ctor_ok) s = Some s' →
     length (recorders s') = length (recorders s) ∧
     open_sessions s' = [] ∧
     count_effects is_newRecorder s' = count_effects is_newRecorder s).
Proof.
  intros Hs. pose proof (reachable_Inv s Hs) as HI. split.
  - apply filter_at_most_one. intros i j x y Hi Hj Px Py.
    destruct (inv_current _ _ _ _ _ _ HI i x Hi) as [_ Ei]; [by left|].
    destruct (inv_current _ _ _ _ _ _ HI j y Hj) as [_ Ej]; [by left|].
    congruence.
  - intros Hrec ok s' Hstep. cbn in Hstep.
    destruct (inv_canvas _ _ _ _ _ _ HI Hrec) as (cv & Hcv & Hcap).
    pose proof (inv_no_url _ _ _ _ _ _ HI Hrec) as Hu.
    unfold handleRecord in Hstep. rewrite Hcv, Hcap, Hrec in Hstep.
    cbn [negb] in Hstep.
    assert (∀ i rc, recorders s !! i = Some rc →
                    rec_state rc = rs_recording → recorderRef s = Some i) as Hcur.
    { intros i rc Hi Hst.
      by destruct (inv_current _ _ _ _ _ _ HI i rc Hi); [left|]. }
    destruct (recorderRef s) as [r|] eqn:Href.
    + unfold recorder_stop in Hstep.
      destruct (recorders s !! r) as [rc|] eqn:Hr.
      2:{ unfold commit in Hstep. rewrite decide_True in Hstep by done.
          simplify_eq. split_and!; try done.
          apply filter_none. intros x Hx Px.
          apply list_elem_of_lookup in Hx as [i Hi].
          specialize (Hcur i x Hi Px). congruence. }
      destruct (rec_state rc) eqn:Hst;
        unfold commit in Hstep; rewrite decide_True in Hstep by done;
        simplify_eq; cbn.
      * split_and!; try done.
        apply filter_none. intros x Hx Px.
        apply list_elem_of_lookup in Hx as [i Hi].
        specialize (Hcur i x Hi Px). congruence.
      * split_and!; [by rewrite length_insert| |done].
        apply filter_none. intros x Hx Px.
        apply list_elem_of_lookup in Hx as [i Hi].
        assert (r < length (recorders s)) by (by eapply lookup_lt_Some).
        destruct (decide (i = r)) as [->|Hne].
        -- rewrite list_lookup_insert_eq in Hi by done. by simplify_eq.
        -- rewrite list_lookup_insert_ne in Hi by done.
           specialize (Hcur i x Hi Px). congruence.
    + unfold commit in Hstep. rewrite decide_True in Hstep by done.
      simplify_eq. split_and!; try done.
      apply filter_none. intros x Hx Px.
      apply list_elem_of_lookup in Hx as [i Hi].
      specialize (Hcur i x Hi Px). congruence.
Qed.

Lemma at_most_one_open_session_witness :
  ∃ s s', run [Click true; DataAvailable 0 demo_chunk] (mount demo_canvas)
            = Some s ∧
          recorderState s = recording ∧
          step (Click true) s = Some s' ∧
          length (open_sessions s) ≤ 1 ∧
          length (recorders s') = length (recorders s) ∧
          open_sessions s' = [].
Proof.
  eexists. eexists. split; [vm_compute; reflexivity|].
  split; [reflexivity|]. split; [vm_compute; reflexivity|].
  match goal with
  | |- length (open_sessions ?s) ≤ 1 ∧ _ =>
      assert (reachable s) as Hs
        by (apply (reachable_run [Click true; DataAvailable 0 demo_chunk]
                     (mount demo_canvas));
            [apply reachable_mount|vm_compute; reflexivity]);
      destruct (at_most_one_open_session s Hs) as [H1 H2];
      destruct (H2 eq_refl true _ eq_refl) as (H3 & H4 & _)
  end.
  split; [exact H1|]. split; [exact H3|exact H4].
Defined.


(** The two events that end a session. *)
Lemma ending_step e r rc data s s' :
  e = StopTask r data ∨ e = ErrorTask r data →
  recorders s !! r = Some rc → step e s = Some s' →
  unfinished rc ∧ ∃ errored, s' = commit s (end_session errored r data s).
Proof.
  intros [->| ->] Hr Hstep; cbn in Hstep; rewrite Hr in Hstep.
  - destruct (rec_stop_queued rc) eqn:Hq; simplify_eq.
    split; [by right|by exists false].
  - destruct (rec_state rc) eqn:Hst; simplify_eq.
    split; [by left|by exists true].
Qed.



(** C6. When a session ends with nothing in its buffer (no chunk was kept
    and the last delivery is empty), the controller shows the
    capture-failed message and returns to idle; [downloadUrl] stays unset,
    no URL is minted and none is live. *)
Theorem empty_recording_reports_failure s r rc data e s' :
  reachable s → recorders s !! r = Some rc →
  e = StopTask r data ∨ e = ErrorTask r data →
  step e s = Some s' →
  final_chunks r data s = [] →
  message s' = msg_no_data ∧
  recorderState s' = idle ∧
  downloadUrl s' = None ∧
  objectUrls s' = [] ∧
  minted_count s' = minted_count s.
Proof.
  intros Hs Hr He Hstep Hcs.
  pose proof (reachable_Inv s Hs) as HI.
  destruct (ending_step e r rc data s s' He Hr Hstep) as [Hun [errored ->]].
  destruct (end_session_spec errored r rc data s HI Hr Hun)
    as (E1 & _ & _ & _ & _ & E6 & _).
  destruct (E6 Hcs) as (M & U & O & C & _). done.
Qed.

Lemma empty_recording_reports_failure_witness :
  ∃ s s',
    run [Click true; TimerFires 1] (mount demo_canvas) = Some s ∧
    step (StopTask 0 empty_chunk) s = Some s' ∧
    final_chunks 0 empty_chunk s = [] ∧
    message s' = msg_no_data ∧ recorderState s' = idle ∧
    downloadUrl s' = None.
Proof.
  eexists. eexists. split; [vm_compute; reflexivity|].
  split; [vm_compute; reflexivity|].
  match goal with
  | |- final_chunks 0 _ ?s = _ ∧ _ =>
      assert (reachable s) as Hs
        by (apply (reachable_run [Click true; TimerFires 1] (mount demo_canvas));
            [apply reachable_mount|vm_compute; reflexivity]);
      destruct (empty_recording_reports_failure s 0 _ empty_chunk
                  (StopTask 0 empty_chunk) _ Hs eq_refl
                  (or_introl eq_refl) eq_refl eq_refl)
        as (M & St & U & _)
  end.
  split; [reflexivity|]. split; [exact M|]. split; [exact St|exact U].
Defined.


Lemma recorder_stop_recording r rc s :
  recorders s !! r = Some rc → rec_state rc = rs_recording →
  recorder_stop r s =
    record_effect (FxStop r)
      (set_recorders
         (<[r := {| rec_state := rs_inactive; rec_stop_queued := true;
                    chunks := chunks rc |}]> (recorders s)) s).
Proof. intros Hr Hst. unfold recorder_stop. by rewrite Hr, Hst. Qed.

Lemma recorder_stop_inactive r rc s :
  recorders s !! r = Some rc → rec_state rc = rs_inactive →
  recorder_stop r s = record_effect (FxStopIgnored r) s.
Proof. intros Hr Hst. unfold recorder_stop. by rewrite Hr, Hst. Qed.

(** The start control, used while the component shows 'recording', only
    calls [stop()] on the current recorder. *)
Lemma click_while_recording ctor_ok r s :
  reachable s → recorderState s = recording → recorderRef s = Some r →
  step (Click ctor_ok) s = Some (recorder_stop r s).
Proof.
  intros Hs Hrec Href. pose proof (reachable_Inv s Hs) as HI.
  destruct (inv_canvas _ _ _ _ _ _ HI Hrec) as (cv & Hcv & Hcap).
  cbn. unfold handleRecord. rewrite Hcv, Hcap, Hrec, Href. cbn.
  unfold commit. rewrite decide_True; [done|].
  unfold recorder_stop. destruct (recorders s !! r) as [rc|]; [|done].
  by destruct (rec_state rc).
Qed.

(** C1, as the source has it. In a session that is recording, the manual
    stop and the timeout may come in either order: both orders lead to the
    same state, in which [stop()] took effect once and was ignored once.
    The stop task then runs [onstop] for the session exactly once, and that
    run mints one URL when the buffer holds a chunk and none when it is
    empty. In no reachable state has [onstop] run twice for a session, nor
    have more URLs been minted than [onstop] handlers have run. *)
Theorem stop_race_runs_onstop_once s r rc i ctor_ok data :
  reachable s → recorderState s = recording → recorderRef s = Some r →
  recorders s !! r = Some rc → rec_state rc = rs_recording →
  timers s !! i = Some {| tm_recorder := r; tm_armed := true |} →
  ∃ a a',
    run [Click ctor_ok; TimerFires (S i)] s = Some a ∧
    run [TimerFires (S i); Click ctor_ok] s = Some a ∧
    history a = FxStopIgnored r :: FxStop r :: history s ∧
    onstop_count r a = 0 ∧
    step (StopTask r data) a = Some a' ∧
    onstop_count r a' = 1 ∧
    minted_count a' =
      minted_count s + match final_chunks r data s with [] => 0 | _ => 1 end ∧
    (∀ s2, reachable s2 →
           onstop_count r s2 ≤ 1 ∧ minted_count s2 ≤ onstop_total s2).
Proof.
  intros Hs Hrec Href Hr Hst Ht.
  assert (r < length (recorders s)) as Hlt by (by eapply lookup_lt_Some).
  set (stopped := {| rec_state := rs_inactive; rec_stop_queued := true;
                     chunks := chunks rc |}).
  set (spent := {| tm_recorder := r; tm_armed := false |}).
  set (a := set_pendingTimeoutRef None
              (record_effect (FxStopIgnored r)
                 (record_effect (FxStop r)
                    (set_timers (<[i := spent]> (timers s))
                       (set_recorders (<[r := stopped]> (recorders s)) s))))).
  assert (run [Click ctor_ok; TimerFires (S i)] s = Some a) as Ha1.
  { cbn [run]. rewrite (click_while_recording ctor_ok r s) by done.
    rewrite (recorder_stop_recording r rc) by done. fold stopped.
    cbn. rewrite Ht. cbn. unfold timeout_callback.
    erewrite recorder_stop_inactive;
      [|cbn; by apply list_lookup_insert_eq|done].
    unfold commit. by rewrite decide_True. }
  assert (run [TimerFires (S i); Click ctor_ok] s = Some a) as Ha2.
  { set (s1 := set_pendingTimeoutRef None
                 (record_effect (FxStop r)
                    (set_timers (<[i := spent]> (timers s))
                       (set_recorders (<[r := stopped]> (recorders s)) s)))).
    assert (step (TimerFires (S i)) s = Some s1) as H1.
    { cbn. rewrite Ht. cbn. unfold timeout_callback.
      erewrite recorder_stop_recording; [|exact Hr|done].
      unfold commit. by rewrite decide_True. }
    assert (reachable s1) as Hs1 by (by eapply reachable_step).
    cbn [run]. rewrite H1.
    rewrite (click_while_recording ctor_ok r s1) by done.
    erewrite recorder_stop_inactive;
      [|cbn; by apply list_lookup_insert_eq|done].
    done. }
  assert (reachable a) as Hra by (by eapply reachable_run).
  pose proof (reachable_Inv a Hra) as HIa.
  pose proof (reachable_Tally a Hra) as [HJa _].
  assert (recorders a !! r = Some stopped) as Hra_r
    by (cbn; by apply list_lookup_insert_eq).
  assert (onstop_count r a = 0) as Hzero.
  { rewrite HJa. unfold done_count. rewrite Hra_r.
    rewrite decide_True; [done|by right]. }
  exists a, (commit a (end_session false r data a)).
  destruct (end_session_spec false r stopped data a HIa Hra_r)
    as (_ & _ & _ & _ & E5 & E6 & E7); [by right|].
  assert (final_chunks r data a = final_chunks r data s) as Ecs.
  { unfold final_chunks, session_chunks. by rewrite Hra_r, Hr. }
  rewrite Ecs in E6, E7.
  split_and!; try done.
  - cbn. by rewrite list_lookup_insert_eq.
  - by rewrite E5, Hzero.
  - change (minted_count s) with (minted_count a).
    destruct (final_chunks r data s) as [|c cs].
    + destruct E6 as (_ & _ & _ & -> & _); [done|].
      symmetry. apply Nat.add_0_r.
    + by destruct E7 as (_ & _ & _ & -> & _).
  - intros s2 Hs2. destruct (reachable_Tally s2 Hs2) as [HJ HM].
    split; [|done]. rewrite HJ. unfold done_count.
    destruct (recorders s2 !! r); [case_decide|]; lia.
Qed.

Lemma stop_race_runs_onstop_once_witness :
  ∃ s a a',
    run [Click true] (mount demo_canvas) = Some s ∧
    run [Click true; TimerFires 1] s = Some a ∧
    run [TimerFires 1; Click true] s = Some a ∧
    step (StopTask 0 demo_chunk) a = Some a' ∧
    onstop_count 0 a' = 1 ∧ minted_count a' = 1.
Proof.
  eexists.
  destruct (stop_race_runs_onstop_once
              (commit (mount demo_canvas) (handleRecord true (mount demo_canvas)))
              0 {| rec_state := rs_recording; rec_stop_queued := false;
                   chunks := [] |}
              0 true demo_chunk
              (reachable_step (Click true) _ _
                 (reachable_mount demo_canvas) eq_refl)
              eq_refl eq_refl eq_refl eq_refl eq_refl)
    as (a & a' & R1 & R2 & _ & _ & S1 & C1 & M1 & _).
  exists a, a'. split; [reflexivity|].
  split; [exact R1|]. split; [exact R2|]. split; [exact S1|].
  split; [exact C1|exact M1].
Defined.

(** C1 fails as stated: a session whose recorder delivers no data ends
    with one [onstop] run and no resource at all, whichever stop came
    first. *)
Lemma silent_session_finalizes_nothing :
  ∃ a b,
    run [Click true; Click true; TimerFires 1; StopTask 0 empty_chunk]
        (mount demo_canvas) = Some a ∧
    run [Click true; TimerFires 1; Click true; StopTask 0 empty_chunk]
        (mount demo_canvas) = Some b ∧
    onstop_count 0 a = 1 ∧ minted_count a = 0 ∧
    downloadUrl a = None ∧ objectUrls a = [] ∧
    onstop_count 0 b = 1 ∧ minted_count b = 0 ∧
    downloadUrl b = None ∧ objectUrls b = [].
Proof.
  eexists. eexists. split; [vm_compute; reflexivity|].
  split; [vm_compute; reflexivity|]. repeat split.
Qed.


(** C10, as the source has it. A manual stop changes nothing but the
    recorder it stops: the handle in [pendingTimeoutRef] and the timers are
    what they were. If the timer fires afterwards, its callback calls
    [stop()] on the recorder that is already inactive, which does nothing,
    and resets the handle; no other event ever resets the handle. The timer
    does not always get to fire: when the stopped session ends with chunks
    in its buffer, the render that publishes the URL runs the clean-up of
    the [downloadUrl] effect, which cancels the pending timer and leaves the
    stale handle in the ref; when the buffer is empty the timers stay as
    they were. *)
Theorem manual_stop_leaves_timer s r ctor_ok s' :
  reachable s → recorderState s = recording → recorderRef s = Some r →
  step (Click ctor_ok) s = Some s' →
  (s' = recorder_stop r s ∧
   pendingTimeoutRef s' = pendingTimeoutRef s ∧ timers s' = timers s ∧
   recorderState s' = recorderState s ∧ downloadUrl s' = downloadUrl s ∧
   message s' = message s ∧ objectUrls s' = objectUrls s ∧
   recorderRef s' = recorderRef s) ∧
  (∀ s2 i t rc s3,
     timers s2 !! i = Some t → recorders s2 !! tm_recorder t = Some rc →
     rec_state rc = rs_inactive → step (TimerFires (S i)) s2 = Some s3 →
     pendingTimeoutRef s3 = None ∧ recorders s3 = recorders s2 ∧
     recorderState s3 = recorderState s2 ∧ downloadUrl s3 = downloadUrl s2) ∧
  (∀ e s2 s3 h,
     step e s2 = Some s3 → pendingTimeoutRef s2 = Some h →
     pendingTimeoutRef s3 = None → ∃ h', e = TimerFires h') ∧
  (∀ data s'' i,
     step (StopTask r data) s' = Some s'' →
     pendingTimeoutRef s = Some (S i) →
     pendingTimeoutRef s'' = Some (S i) ∧
     match final_chunks r data s with
     | [] => timers s'' = timers s
     | _ :: _ => timer_armed (S i) s'' = false
     end).
Proof.
  intros Hs Hrec Href Hstep.
  pose proof (reachable_Inv s Hs) as HI.
  destruct (inv_canvas _ _ _ _ _ _ HI Hrec) as (cv & Hcv & Hcap).
  assert (s' = recorder_stop r s) as ->.
  { cbn in Hstep. unfold handleRecord in Hstep.
    rewrite Hcv, Hcap, Hrec, Href in Hstep. cbn in Hstep.
    unfold commit in Hstep. rewrite decide_True in Hstep; [by simplify_eq|].
    unfold recorder_stop. destruct (recorders s !! r) as [rc|]; [|done].
    by destruct (rec_state rc). }
  split; [|split; [|split]].
  - split_and!; try done; try apply ref_recorder_stop;
      try apply timers_recorder_stop.
    all: unfold recorder_stop; destruct (recorders s !! r) as [rc|]; [|done].
    all: by destruct (rec_state rc).
  - intros s2 i t rc s3 Ht Hr Hst H3.
    destruct (late_timeout_is_noop i t rc s2 s3 Ht Hr Hst H3)
      as (? & ? & ? & ? & _). done.
  - intros e s2 s3 h. apply only_timeout_resets_handle.
  - intros data s'' i H2 Hp.
    assert (reachable (recorder_stop r s)) as Hs'
      by (by eapply reachable_step).
    pose proof (reachable_Inv _ Hs') as HI'.
    cbn in H2.
    destruct (recorders (recorder_stop r s) !! r) as [rc'|] eqn:Hr'; [|done].
    destruct (rec_stop_queued rc') eqn:Hq'; simplify_eq.
    destruct (end_session_spec false r rc' data (recorder_stop r s) HI' Hr')
      as (_ & _ & E3 & _ & _ & E6 & E7); [by right|].
    rewrite ref_recorder_stop in E3.
    assert (final_chunks r data (recorder_stop r s) = final_chunks r data s)
      as Ecs.
    { unfold final_chunks, session_chunks, recorder_stop. f_equal.
      destruct (recorders s !! r) as [rc|] eqn:Hr; [|by rewrite Hr].
      destruct (rec_state rc); cbn; [by rewrite Hr|].
      rewrite list_lookup_insert_eq; [done|]. by eapply lookup_lt_Some. }
    rewrite Ecs in E6, E7. split; [by rewrite E3|].
    destruct (final_chunks r data s) as [|c cs] eqn:Hfc.
    + destruct E6 as (_ & _ & _ & _ & ->); [done|].
      apply timers_recorder_stop.
    + destruct E7 as (_ & _ & _ & _ & E); [done|].
      apply E. by rewrite ref_recorder_stop.
Qed.

Lemma manual_stop_leaves_timer_witness :
  ∃ s s' s'',
    run [Click true] (mount demo_canvas) = Some s ∧
    recorderState s = recording ∧ recorderRef s = Some 0 ∧
    step (Click true) s = Some s' ∧
    pendingTimeoutRef s' = Some 1 ∧ timer_armed 1 s' = true ∧
    step (StopTask 0 demo_chunk) s' = Some s'' ∧
    pendingTimeoutRef s'' = Some 1 ∧ timer_armed 1 s'' = false.
Proof.
  eexists. eexists. eexists. split; [vm_compute; reflexivity|].
  split; [reflexivity|]. split; [reflexivity|].
  split; [vm_compute; reflexivity|].
  split; [reflexivity|]. split; [reflexivity|].
  split; [vm_compute; reflexivity|].
  match goal with
  | |- pendingTimeoutRef ?s'' = _ ∧ _ =>
      destruct (manual_stop_leaves_timer
                  (commit (mount demo_canvas)
                     (handleRecord true (mount demo_canvas))) 0 true _
                  (reachable_step (Click true) _ _
                     (reachable_mount demo_canvas) eq_refl)
                  eq_refl eq_refl eq_refl) as (_ & _ & _ & H4);
      destruct (H4 demo_chunk s'' 0) as [P A]
  end.
  - vm_compute; reflexivity.
  - reflexivity.
  - split; [exact P|exact A].
Defined.

(** C10 fails as stated: after a manual stop whose session ends with data,
    the timer is cancelled by the effect clean-up, not by its own callback;
    it can never fire, and the handle stays in the ref. *)
Lemma manual_stop_timer_cancelled :
  ∃ s, run [Click true; Click true; StopTask 0 demo_chunk]
           (mount demo_canvas) = Some s ∧
       pendingTimeoutRef s = Some 1 ∧
       timer_armed 1 s = false ∧
       head (history s) = Some (FxClearTimeout 1) ∧
       (FxStopIgnored 0 ∉ history s) ∧
       ∀ es s', run es s = Some s' → step (TimerFires 1) s' = None.
Proof.
  eexists. split; [vm_compute; reflexivity|].
  split; [reflexivity|]. split; [reflexivity|]. split; [reflexivity|].
  split.
  - intros Hin. repeat (apply elem_of_cons in Hin as [Hin|Hin]; [done|]).
    by apply elem_of_nil in Hin.
  - intros es s'. apply disarmed_never_fires.
    eexists. split; [reflexivity|reflexivity].
Qed.


(** The same clean-up also runs when a session starts while a URL is on
    offer: the render that clears [downloadUrl] stops the recorder that has
    just been started and cancels its timer. *)
Remark restart_is_stopped_by_cleanup :
  ∃ s, run [Click true; Click true; StopTask 0 demo_chunk; Click true]
           (mount demo_canvas) = Some s ∧
       recorderState s = recording ∧ open_sessions s = [] ∧
       timer_armed 2 s = false ∧
       take 3 (history s) =
         [FxRevokeObjectURL 1; FxClearTimeout 2; FxStop 1].
Proof. eexists. split; [vm_compute; reflexivity|]. by repeat split. Qed.


End CaptureFacts.

(** * Properties of the clock and of the renderer *)

Module RenderFacts.

Import Js Scene Canvas Render.
Local Open Scope Q_scope.

(** ** The remainder on non-negative numbers *)




Section Remainder.
Variable b : Q.
Hypothesis b_pos : 0 < b.




End Remainder.

(** ** The walk cycle *)



(** Outside the claim: the remainder keeps the sign of a negative
    dividend, so a timestamp earlier than the start time would give a
    negative progress. *)
Remark cycleProgress_before_start : cycleProgress (-700) == - (1 # 2).
Proof. reflexivity. Qed.


(** ** The skyline *)

Lemma of_nat_bounds i n : (i < n)%nat → 0 <= of_nat i ∧ of_nat i <= of_nat n - 1.
Proof.
  intros Hi. unfold of_nat. split.
  - change 0 with (inject_Z 0). rewrite <- Zle_Qle. lia.
  - assert (inject_Z (Z.of_nat i + 1) <= inject_Z (Z.of_nat n)) as Hle
      by (rewrite <- Zle_Qle; lia).
    rewrite inject_Z_plus in Hle. change (inject_Z 1) with 1 in Hle. lra.
Qed.








(** ** What a frame depends on *)

Lemma code_inj f g : code f = code g → f = g.
Proof. destruct f, g; cbn; intros E; done || discriminate E. Qed.

Lemma testbit_setbit k f g :
  N.testbit (N.setbit k (code f)) (code g) =
  if decide (g = f) then true else N.testbit k (code g).
Proof.
  rewrite N.setbit_eqb. case_decide as E.
  - subst. by rewrite N.eqb_refl.
  - destruct (N.eqb_spec (code f) (code g)) as [Hc|Hc]; [|done].
    by apply code_inj in Hc.
Qed.

Lemma output_exec_app cmds c :
  ∃ ps, output (exec cmds c) = output c ++ ps.
Proof.
  revert c. induction cmds as [|cmd cmds IH]; intros c.
  - exists []. by rewrite app_nil_r.
  - destruct (IH (exec1 c cmd)) as [ps Hps]. cbn. unfold exec in Hps.
    rewrite Hps.
    assert (∃ p, output (exec1 c cmd) = output c ++ p) as [p ->].
    { destruct cmd; cbn; try (by exists []; rewrite app_nil_r);
        try (by eexists).
      destruct (stack c); by exists []; rewrite app_nil_r. }
    exists (p ++ ps). by rewrite app_assoc.
Qed.

Lemma painted_cons cmd cmds c p :
  output (exec1 c cmd) = output c ++ [p] →
  ∃ ps, painted (cmd :: cmds) c = p :: ps.
Proof.
  intros Hp. unfold painted. cbn [exec foldl].
  destruct (output_exec_app cmds (exec1 c cmd)) as [ps Hps].
  unfold exec in Hps. rewrite Hps, Hp, <- app_assoc, drop_app_length.
  by exists ps.
Qed.

Lemma exec_app l1 l2 c : exec (l1 ++ l2) c = exec l2 (exec l1 c).
Proof. unfold exec. apply foldl_app. Qed.

Lemma usage_app l1 l2 u :
  usage (l1 ++ l2) u =
  match usage l1 u with Some u' => usage l2 u' | None => None end.
Proof.
  revert u. induction l1 as [|cmd l1 IH]; intros u; [done|]. cbn.
  destruct (usage1 u cmd); [apply IH|done].
Qed.

(** A loop whose body leaves the usage as it found it. *)
Lemma usage_loop {A} (body : A → list Cmd) (xs : list A) u :
  (∀ x, usage (body x) u = Some u) →
  usage (concat (map body xs)) u = Some u.
Proof.
  intros Hbody. induction xs as [|x xs IH]; [done|]. cbn.
  by rewrite usage_app, Hbody.
Qed.

Lemma usage_iloop {A} (body : nat → A → list Cmd) (xs : list A) u :
  (∀ i x, usage (body i x) u = Some u) →
  usage (concat (imap body xs)) u = Some u.
Proof.
  revert body. induction xs as [|x xs IH]; intros body Hbody; [done|]. cbn.
  rewrite usage_app, Hbody. apply IH. intros i y. apply Hbody.
Qed.

Section Soundness.
Variables o1 o2 : Ctx.
Hypothesis entry_ambient : same_ambient o1 o2.

Lemma settled_same u c1 c2 f :
  related o1 o2 u c1 c2 → settled u f = true → cur c1 f = cur c2 f.
Proof.
  intros (Hag & _) Hs. specialize (Hag f). unfold settled in Hs.
  destruct (N.testbit (known u) (code f)); [done|].
  destruct Hag as [-> ->]. by apply entry_ambient.
Qed.

Lemma reads_same u c1 c2 reads :
  related o1 o2 u c1 c2 → forallb (settled u) reads = true →
  map (cur c1) reads = map (cur c2) reads.
Proof.
  intros Hrel. induction reads as [|f reads IH]; [done|]. cbn.
  intros [Hf Hrest]%andb_true_iff. f_equal; [|by apply IH].
  by eapply settled_same.
Qed.

Lemma related_paint u c1 c2 op1 op2 reads :
  related o1 o2 u c1 c2 → op1 = op2 →
  forallb (settled u) reads = true →
  related o1 o2 u (paint op1 reads c1) (paint op2 reads c2).
Proof.
  intros Hrel -> Hreads.
  pose proof (reads_same u c1 c2 reads Hrel Hreads) as Hmap.
  destruct Hrel as (Hag & Hst & Hp & ps & E1 & E2).
  split_and!; try done. cbn.
  eexists. rewrite E1, E2, Hmap, <- !app_assoc. done.
Qed.

Lemma usage1_sound u cmd u' c1 c2 :
  usage1 u cmd = Some u' → related o1 o2 u c1 c2 →
  related o1 o2 u' (exec1 c1 cmd) (exec1 c2 cmd).
Proof.
  intros Hu Hrel.
  destruct cmd as [f v| | |t| |op|x y w h|x y w h| |]; unfold usage1 in Hu.
  - (* Assign *)
    simplify_eq. destruct Hrel as (Hag & Hst & Hp & Hout).
    split_and!; try done. intros g. cbn. rewrite testbit_setbit.
    unfold assign. specialize (Hag g). by case_decide.
  - (* Save *)
    simplify_eq. destruct Hrel as (Hag & Hst & Hp & Hout).
    split_and!; try done.
  - (* Restore *)
    destruct (saved u) as [|k rest] eqn:Hsv; simplify_eq.
    destruct Hrel as (Hag & Hst & Hp & Hout). rewrite Hsv in Hst. cbn in Hst.
    cbn [exec1].
    destruct (stack c1) as [|x1 s1], (stack c2) as [|x2 s2]; try done.
    destruct Hst as [Hx Hst]. split_and!; try done.
  - (* Transform *)
    destruct (settled u transform) eqn:Hs; simplify_eq.
    pose proof (settled_same u c1 c2 transform Hrel Hs) as Htr.
    destruct Hrel as (Hag & Hst & Hp & Hout).
    split_and!; try done. intros g. cbn [known cur exec1].
    rewrite testbit_setbit.
    unfold assign. specialize (Hag g). case_decide; [|done].
    by rewrite Htr.
  - (* BeginPath *)
    simplify_eq. destruct Hrel as (Hag & Hst & Hp & Hout).
    split_and!; try done.
  - (* Path *)
    simplify_eq. pose proof Hrel as (Hag & Hst & Hp & Hout).
    split_and!; try done. cbn. intros [Hpk Hs]%andb_true_iff.
    by rewrite (Hp Hpk), (settled_same u c1 c2 transform Hrel Hs).
  - (* ClearRect *)
    destruct (forallb (settled u) reads_clear) eqn:Hr; simplify_eq.
    by apply related_paint.
  - (* FillRect *)
    destruct (forallb (settled u) reads_fill) eqn:Hr; simplify_eq.
    by apply related_paint.
  - (* Fill *)
    destruct (path_known u) eqn:Hpk; [|done].
    destruct (forallb (settled u) reads_fill) eqn:Hr; cbn in Hu; simplify_eq.
    apply related_paint; [done| |done].
    destruct Hrel as (_ & _ & Hp & _). by rewrite (Hp Hpk).
  - (* Stroke *)
    destruct (path_known u) eqn:Hpk; [|done].
    destruct (forallb (settled u) reads_stroke) eqn:Hr; cbn in Hu; simplify_eq.
    apply related_paint; [done| |done].
    destruct Hrel as (_ & _ & Hp & _). by rewrite (Hp Hpk).
Qed.

Lemma usage_sound cmds u u' c1 c2 :
  usage cmds u = Some u' → related o1 o2 u c1 c2 →
  related o1 o2 u' (exec cmds c1) (exec cmds c2).
Proof.
  revert u c1 c2. induction cmds as [|cmd cmds IH]; intros u c1 c2 Hu Hrel.
  - cbn in Hu. by simplify_eq.
  - cbn in Hu. destruct (usage1 u cmd) as [u1|] eqn:H1; [|done].
    apply (IH u1); [done|]. by eapply usage1_sound.
Qed.

Lemma related_entry : related o1 o2 entry_usage o1 o2.
Proof.
  split_and!; try done.
  exists []. by rewrite !app_nil_r.
Qed.

(** Calls that pass the usage check paint the same from any two contexts
    that agree on the ambient fields. *)
Lemma usage_painted cmds u' :
  usage cmds entry_usage = Some u' → painted cmds o1 = painted cmds o2.
Proof.
  intros Hu.
  destruct (usage_sound cmds _ _ _ _ Hu related_entry)
    as (_ & _ & _ & ps & E1 & E2).
  unfold painted. by rewrite E1, E2, !drop_app_length.
Qed.

End Soundness.

(** Calls that end with an empty [saved] stack and no ambient field known
    leave the ambient fields and the [save] stack as they found them. *)
Lemma usage_restores cmds u' c :
  usage cmds entry_usage = Some u' →
  saved u' = [] →
  (∀ f, is_ambient f = true → N.testbit (known u') (code f) = false) →
  same_ambient (exec cmds c) c ∧ stack (exec cmds c) = stack c.
Proof.
  intros Hu Hsaved Hk.
  assert (same_ambient c c) as Hcc by done.
  destruct (usage_sound c c Hcc cmds _ _ _ _ Hu (related_entry c c))
    as (Hag & Hst & _).
  rewrite Hsaved in Hst. destruct Hst as [Hst _]. split; [|done].
  intros f Hf. specialize (Hag f). rewrite (Hk f Hf) in Hag. by destruct Hag.
Qed.


(** ** The usage of each routine *)

(** Splits off a fixed run of calls and evaluates its usage to [v]. *)
Ltac usage_prefix v :=
  rewrite usage_app;
  match goal with
  | |- context [usage ?l ?u] =>
      replace (usage l u) with (Some v) by reflexivity
  end.

Section RoutineUsage.
Context `{Js.Math}.

Lemma usage_drawSky width height stars elapsed pk :
  usage (drawSky width height stars elapsed)
    {| known := 0; saved := []; path_known := pk |} =
  Some {| known := 1; saved := [];
          path_known := match stars with [] => pk | _ :: _ => true end |}.
Proof.
  unfold drawSky.
  usage_prefix {| known := 1; saved := [1%N]; path_known := pk |}.
  rewrite usage_app. destruct stars as [|star stars]; [done|].
  cbn [imap concat].
  usage_prefix {| known := 65; saved := [1%N]; path_known := true |}.
  rewrite usage_iloop; [done|]. by intros i x.
Qed.

Lemma usage_drawSkyline width height skyline elapsed pk :
  usage (drawSkyline width height skyline elapsed)
    {| known := 1; saved := []; path_known := pk |} =
  Some {| known := 1; saved := []; path_known := pk |}.
Proof.
  unfold drawSkyline.
  usage_prefix {| known := 1025; saved := [1%N]; path_known := pk |}.
  rewrite usage_app, usage_loop; [done|]. by intros b.
Qed.

Lemma usage_drawStreet width height elapsed pk :
  usage (drawStreet width height elapsed)
    {| known := 1; saved := []; path_known := pk |} =
  Some {| known := 7; saved := []; path_known := true |}.
Proof. destruct pk; reflexivity. Qed.

Lemma usage_drawCharacter width height cycleProgress walkPhase :
  usage (drawCharacter width height cycleProgress walkPhase)
    {| known := 7; saved := []; path_known := true |} =
  Some {| known := 7; saved := []; path_known := true |}.
Proof. reflexivity. Qed.

Lemma usage_paths (f : Q → Cmd) (l : list Q) k ks :
  (∀ i, ∃ op, f i = Path op) →
  usage (map f l) {| known := k; saved := ks; path_known := true |} =
  Some {| known := k; saved := ks; path_known := true |}.
Proof.
  intros Hf. induction l as [|i l IH]; [done|]. cbn [map usage].
  destruct (Hf i) as [op ->]. unfold usage1, settled. cbn [is_ambient].
  rewrite orb_true_r. exact IH.
Qed.

Lemma usage_drawAtmospherics height elapsed :
  usage (drawAtmospherics CANVAS_WIDTH height elapsed)
    {| known := 7; saved := []; path_known := true |} =
  Some {| known := 7; saved := []; path_known := true |}.
Proof.
  unfold drawAtmospherics.
  usage_prefix {| known := 7; saved := [7%N]; path_known := true |}.
  rewrite usage_app, usage_loop by done.
  usage_prefix {| known := 135; saved := [7%N]; path_known := true |}.
  rewrite usage_app, usage_paths; [done|]. intros i. by eexists.
Qed.

Lemma usage_renderFrame cycleProgress walkPhase stars skyline elapsed :
  usage (renderFrame cycleProgress walkPhase stars skyline elapsed)
    entry_usage =
  Some {| known := 7; saved := []; path_known := true |}.
Proof.
  unfold renderFrame.
  usage_prefix {| known := 0; saved := []; path_known := false |}.
  rewrite usage_app, usage_drawSky.
  rewrite usage_app, usage_drawSkyline.
  rewrite usage_app, usage_drawStreet.
  rewrite usage_app, usage_drawCharacter.
  apply usage_drawAtmospherics.
Qed.

End RoutineUsage.


(** ** Frames do not depend on earlier frames *)

Section Frames.
Context `{Js.Math}.

Lemma render_restores fr c :
  same_ambient (exec (render fr) c) c ∧ stack (exec (render fr) c) = stack c.
Proof.
  pose proof (usage_renderFrame (frame_cycleProgress fr) (frame_walkPhase fr)
                (frame_stars fr) (frame_skyline fr) (frame_elapsed fr)) as Hu.
  apply (usage_restores (render fr) _ c Hu); [reflexivity|].
  intros []; cbn; intros; try discriminate; reflexivity.
Qed.

Lemma render_all_restores frs c :
  same_ambient (render_all frs c) c ∧ stack (render_all frs c) = stack c.
Proof.
  revert c. induction frs as [|fr frs IH]; intros c; [done|].
  change (render_all (fr :: frs) c) with (render_all frs (exec (render fr) c)).
  destruct (IH (exec (render fr) c)) as [Ha Hs].
  destruct (render_restores fr c) as [Ha1 Hs1]. split.
  - intros f Hf. by rewrite (Ha f Hf), (Ha1 f Hf).
  - by rewrite Hs, Hs1.
Qed.

Lemma render_same_paint fr c1 c2 :
  same_ambient c1 c2 → painted (render fr) c1 = painted (render fr) c2.
Proof.
  intros Hamb.
  pose proof (usage_renderFrame (frame_cycleProgress fr) (frame_walkPhase fr)
                (frame_stars fr) (frame_skyline fr) (frame_elapsed fr)) as Hu.
  exact (usage_painted c1 c2 Hamb (render fr) _ Hu).
Qed.

(** C3. A frame is the list of calls [renderFrame] makes, a function of
    its arguments alone; and what those calls paint does not depend on the
    frames rendered before on the same surface: after any two histories
    [earlier1] and [earlier2] the frame paints the same operations with the
    same drawing state, starting with a clear of the whole scene. The same
    holds for a turn of [draw], whose frame is a function of the elapsed
    time and the two datasets. Every frame hands the context on with the
    ambient drawing state and the [save] stack as it found them. *)
Theorem renderFrame_pure ratio earlier1 earlier2 fr stars skyline elapsed :
  let surface := updateCanvasSize ratio in
  painted (render fr) (render_all earlier1 surface) =
    painted (render fr) (render_all earlier2 surface) ∧
  painted (draw stars skyline elapsed) (render_all earlier1 surface) =
    painted (draw stars skyline elapsed) (render_all earlier2 surface) ∧
  head (painted (render fr) (render_all earlier1 surface)) =
    Some {| paint_op := OpClearRect 0 0 CANVAS_WIDTH CANVAS_HEIGHT;
            paint_state := [VMatrix [XScale ratio ratio]] |} ∧
  same_ambient (exec (render fr) (render_all earlier1 surface)) surface ∧
  stack (exec (render fr) (render_all earlier1 surface)) = [].
Proof.
  intros surface.
  destruct (render_all_restores earlier1 surface) as [A1 S1].
  destruct (render_all_restores earlier2 surface) as [A2 S2].
  assert (same_ambient (render_all earlier1 surface)
            (render_all earlier2 surface)) as A12.
  { intros f Hf. by rewrite (A1 f Hf), (A2 f Hf). }
  split_and!.
  - by apply render_same_paint.
  - by apply (render_same_paint
                {| frame_cycleProgress := cycleProgress elapsed;
                   frame_walkPhase := Scene.walkPhase elapsed;
                   frame_stars := stars; frame_skyline := skyline;
                   frame_elapsed := elapsed |}).
  - rewrite (render_same_paint fr _ surface A1).
    unfold render, renderFrame. cbn [app].
    match goal with
    | |- head (painted (?cmd :: ?cmds) _) = Some ?p =>
        destruct (painted_cons cmd cmds surface p eq_refl) as [ps ->]
    end.
    done.
  - destruct (render_restores fr (render_all earlier1 surface)) as [A _].
    intros f Hf. by rewrite (A f Hf), (A1 f Hf).
  - destruct (render_restores fr (render_all earlier1 surface)) as [_ ->].
    by rewrite S1.
Qed.

End Frames.


(** The context model does carry state from one call to the next: the same
    call paints differently after a call that leaves [fillStyle] changed.
    That no frame of the renderer is affected is what the theorem above
    adds. *)
Remark fill_depends_on_earlier_calls :
  painted [FillRect 0 0 1 1] (updateCanvasSize 1) ≠
  painted [FillRect 0 0 1 1]
    (exec [Assign fillStyle (VStyle (Color "#38bdf8"))] (updateCanvasSize 1)).
Proof. vm_compute. discriminate. Qed.


End RenderFacts.

(** * Further properties of the capture controller *)

Module CaptureExtras.

Import Capture Page CaptureFacts.

(** ** Transitions that keep the display *)

#[local] Instance steady_refl : Reflexive steady.
Proof. intros s. repeat split. eauto. Qed.

#[local] Instance steady_trans : Transitive steady.
Proof.
  intros a b c (A1 & A2 & A3 & A4 & A5) (B1 & B2 & B3 & B4 & B5).
  repeat split; try congruence.
  intros r rc Hr Hun. destruct (A5 r rc Hr Hun) as (rc' & Hr' & Hun'). eauto.
Qed.

Lemma steady_recorder_stop r s : steady s (recorder_stop r s).
Proof.
  unfold recorder_stop.
  destruct (recorders s !! r) as [rc|] eqn:Hr; [|reflexivity].
  destruct (rec_state rc) eqn:Hst; [repeat split; eauto|].
  repeat split. cbn. intros i x Hi Hun.
  destruct (decide (i = r)) as [->|Hne].
  - rewrite list_lookup_insert_eq by (by eapply lookup_lt_Some).
    eexists. split; [done|]. by right.
  - rewrite list_lookup_insert_ne by done. eauto.
Qed.

Lemma steady_ondataavailable r data s : steady s (ondataavailable r data s).
Proof.
  unfold ondataavailable. case_decide; [|reflexivity].
  destruct (recorders s !! r) as [rc|] eqn:Hr; [|reflexivity].
  repeat split. cbn. intros i x Hi Hun.
  destruct (decide (i = r)) as [->|Hne].
  - rewrite list_lookup_insert_eq by (by eapply lookup_lt_Some).
    eexists. split; [done|]. by simplify_eq.
  - rewrite list_lookup_insert_ne by done. eauto.
Qed.

Lemma steady_clearTimeout h s : steady s (clearTimeout h s).
Proof.
  unfold clearTimeout. destruct h as [|i]; [repeat split; eauto|].
  destruct (timers s !! i); repeat split; eauto.
Qed.

Lemma steady_revoke u s : steady s (revokeObjectURL u s).
Proof. repeat split; eauto. Qed.

Lemma steady_effect_cleanup closure s : steady s (effect_cleanup closure s).
Proof.
  unfold effect_cleanup.
  set (s1 := match recorderRef s with Some r => _ | None => s end).
  assert (steady s s1) as H1.
  { subst s1. destruct (recorderRef s) as [r|]; [|reflexivity].
    destruct (recorders s !! r) as [rc|]; [|reflexivity].
    destruct (rec_state rc); [reflexivity|apply steady_recorder_stop]. }
  set (s2 := match pendingTimeoutRef s1 with Some (S i) => _ | _ => s1 end).
  assert (steady s1 s2) as H2.
  { subst s2. destruct (pendingTimeoutRef s1) as [[|i]|]; try reflexivity.
    apply steady_clearTimeout. }
  destruct closure as [u|]; [|by etrans].
  etrans; [exact H1|]. etrans; [exact H2|]. apply steady_revoke.
Qed.

Lemma steady_commit prev s : steady s (commit prev s).
Proof.
  unfold commit. case_decide; [reflexivity|apply steady_effect_cleanup].
Qed.

Lemma Shown_steady s s' : Shown s → steady s s' → Shown s'.
Proof.
  intros (S1 & S2 & S3 & S4 & S5) (E1 & E2 & E3 & E4 & E5).
  unfold Shown. rewrite E1, E2, E3, E4. repeat split; try tauto.
  intros Hrec. destruct (S5 Hrec) as (r & rc & Hr & Hl & Hun).
  destruct (E5 r rc Hl Hun) as (rc' & Hl' & Hun'). eauto.
Qed.

(** The seven status texts differ. *)
Ltac msg_neq :=
  let H := fresh in
  intros H; apply String.eqb_eq in H; vm_compute in H; discriminate H.

Lemma Shown_mount canvas : Shown (mount canvas).
Proof.
  repeat split; cbn; try done; try msg_neq.
Qed.


Lemma Shown_handleRecord ctor_ok s :
  Inv s → Shown s → Shown (handleRecord ctor_ok s).
Proof.
  intros HI HS.
  destruct (canvasRef s) as [cv|] eqn:Hcv;
    [|by unfold handleRecord; rewrite Hcv].
  destruct (has_captureStream cv) eqn:Hcap.
  2:{ unfold handleRecord; rewrite Hcv, Hcap. cbn [negb].
      assert (recorderState s = idle) as Hidle.
      { destruct (recorderState s) eqn:Hst; [done|].
        destruct (inv_canvas _ _ _ _ _ _ HI Hst) as (cv' & ? & ?).
        congruence. }
      destruct HS as (S1 & S2 & S3 & S4 & S5).
      repeat split; cbn; try msg_neq; try congruence. }
  destruct (recorderState s) eqn:Hst.
  2:{ unfold handleRecord; rewrite Hcv, Hcap, Hst. cbn.
      destruct (recorderRef s); [|done].
      eapply Shown_steady; [done|apply steady_recorder_stop]. }
  destruct ctor_ok.
  - destruct (handleRecord_start s cv Hcv Hcap Hst)
      as (E1 & E2 & E3 & E4 & _ & _ & E5 & _).
    unfold Shown. rewrite E1, E2, E3, E4, E5.
    repeat split; try done; try msg_neq.
    intros _. eexists _, _. split; [done|]. split.
    + rewrite lookup_app_r, Nat.sub_diag by done. done.
    + by left.
  - unfold handleRecord; rewrite Hcv, Hcap, Hst. cbn.
    repeat split; cbn; try msg_neq; try congruence.
Qed.

Lemma Shown_end_session errored r rc data s :
  Inv s → recorders s !! r = Some rc → unfinished rc →
  Shown (commit s (end_session errored r data s)).
Proof.
  intros HI Hr Hun.
  destruct (end_session_spec errored r rc data s HI Hr Hun)
    as (E1 & _ & _ & _ & _ & Hnil & Hcons).
  destruct (final_chunks r data s) as [|c cs] eqn:Hcs.
  - destruct Hnil as (M & U & _); [done|].
    unfold Shown. rewrite E1, M, U. repeat split; try done; try msg_neq.
  - destruct Hcons as (M & U & _); [done|].
    unfold Shown. rewrite E1, M, U. repeat split; try done; try msg_neq.
Qed.

Lemma Shown_step e s s' : Inv s → Shown s → step e s = Some s' → Shown s'.
Proof.
  intros HI HS Hstep. destruct e as [ok|h|r data|r data|r data]; cbn in Hstep.
  - simplify_eq. eapply Shown_steady; [|apply steady_commit].
    by apply Shown_handleRecord.
  - destruct h as [|i]; [done|].
    destruct (timers s !! i) as [t|] eqn:Ht; [|done].
    destruct (tm_armed t); simplify_eq.
    eapply Shown_steady; [exact HS|].
    etrans; [|apply steady_commit]. unfold timeout_callback.
    etrans; [|etrans; [apply (steady_recorder_stop (tm_recorder t))|]];
      [|repeat split; eauto].
    repeat split; eauto.
  - destruct (recorders s !! r) as [rc|] eqn:Hr; [|done].
    destruct (rec_state rc); simplify_eq.
    eapply Shown_steady; [exact HS|].
    etrans; [apply steady_ondataavailable|apply steady_commit].
  - destruct (recorders s !! r) as [rc|] eqn:Hr; [|done].
    destruct (rec_stop_queued rc) eqn:Hq; simplify_eq.
    eapply Shown_end_session; [done..|by right].
  - destruct (recorders s !! r) as [rc|] eqn:Hr; [|done].
    destruct (rec_state rc) eqn:Hst; simplify_eq.
    eapply Shown_end_session; [done..|by left].
Qed.

Lemma reachable_Shown s : reachable s → Shown s.
Proof.
  induction 1 as [canvas|e s s' Hs IH Hstep]; [apply Shown_mount|].
  eapply Shown_step; [by apply reachable_Inv|done..].
Qed.


(** ** Every recording is bounded by its timer *)

Lemma all_stopped_open_sessions s : all_stopped s → open_sessions s = [].
Proof.
  intros Hs. unfold open_sessions. apply filter_none.
  intros rc Hin Hrec. apply list_elem_of_lookup in Hin as [i Hi].
  specialize (Hs i rc Hi). congruence.
Qed.

Lemma all_stopped_Bounded s : all_stopped s → Bounded s.
Proof. intros Hs r rc Hr Hrec. specialize (Hs r rc Hr). congruence. Qed.

Lemma idle_all_stopped s : Inv s → recorderState s = idle → all_stopped s.
Proof.
  intros HI Hidle r rc Hr. destruct (rec_state rc) eqn:Hst; [done|].
  destruct (inv_current _ _ _ _ _ _ HI r rc Hr) as [? _]; [by left|congruence].
Qed.

Lemma all_stopped_timers s s' :
  recorders s' = recorders s → all_stopped s → all_stopped s'.
Proof. intros E Hs r rc. rewrite E. apply Hs. Qed.

Lemma all_stopped_clearTimeout h s : all_stopped s → all_stopped (clearTimeout h s).
Proof.
  apply all_stopped_timers. unfold clearTimeout.
  destruct h as [|i]; [done|]. by destruct (timers s !! i).
Qed.

(** The clean-up of the [downloadUrl] effect leaves no recorder recording. *)
Lemma all_stopped_effect_cleanup closure s :
  Inv s → all_stopped (effect_cleanup closure s).
Proof.
  intros HI. unfold effect_cleanup.
  set (s1 := match recorderRef s with Some r => _ | None => s end).
  assert (all_stopped s1) as H1.
  { subst s1. intros i x Hi. destruct (rec_state x) eqn:Hx; [done|exfalso].
    destruct (recorderRef s) as [r|] eqn:Href.
    - destruct (recorders s !! r) as [rc|] eqn:Hr.
      + destruct (rec_state rc) eqn:Hst.
        * destruct (inv_current _ _ _ _ _ _ HI i x Hi) as [_ ?]; [by left|].
          simplify_eq. congruence.
        * rewrite (recorder_stop_recording r rc s Hr Hst) in Hi. cbn in Hi.
          destruct (decide (i = r)) as [->|Hne].
          -- rewrite list_lookup_insert_eq in Hi by (by eapply lookup_lt_Some).
             by simplify_eq.
          -- rewrite list_lookup_insert_ne in Hi by done.
             destruct (inv_current _ _ _ _ _ _ HI i x Hi) as [_ ?];
               [by left|congruence].
      + destruct (inv_current _ _ _ _ _ _ HI i x Hi) as [_ ?]; [by left|].
        simplify_eq.
    - destruct (inv_current _ _ _ _ _ _ HI i x Hi) as [_ ?]; [by left|congruence]. }
  set (s2 := match pendingTimeoutRef s1 with Some (S i) => _ | _ => s1 end).
  assert (all_stopped s2) as H2.
  { subst s2. destruct (pendingTimeoutRef s1) as [[|i]|]; try done.
    by apply all_stopped_clearTimeout. }
  destruct closure; [|done]. by eapply all_stopped_timers; [|exact H2].
Qed.

Lemma Bounded_commit prev s : Inv s → Bounded s → Bounded (commit prev s).
Proof.
  intros HI HB. unfold commit. case_decide; [done|].
  by apply all_stopped_Bounded, all_stopped_effect_cleanup.
Qed.

Lemma Bounded_recorder_stop r s : Bounded s → Bounded (recorder_stop r s).
Proof.
  intros HB. unfold recorder_stop.
  destruct (recorders s !! r) as [rc|] eqn:Hr; [|done].
  destruct (rec_state rc) eqn:Hst; [done|].
  intros i x Hi Hx. cbn in *.
  destruct (decide (i = r)) as [->|Hne].
  - rewrite list_lookup_insert_eq in Hi by (by eapply lookup_lt_Some).
    by simplify_eq.
  - rewrite list_lookup_insert_ne in Hi by done. eauto.
Qed.

Lemma Bounded_ondataavailable r data s :
  Bounded s → Bounded (ondataavailable r data s).
Proof.
  intros HB. unfold ondataavailable. case_decide; [|done].
  destruct (recorders s !! r) as [rc|] eqn:Hr; [|done].
  intros i x Hi Hx. cbn in *.
  destruct (decide (i = r)) as [->|Hne].
  - rewrite list_lookup_insert_eq in Hi by (by eapply lookup_lt_Some).
    simplify_eq. cbn in Hx. eauto.
  - rewrite list_lookup_insert_ne in Hi by done. eauto.
Qed.

Lemma Bounded_handleRecord ctor_ok s :
  Inv s → Bounded s → Bounded (handleRecord ctor_ok s).
Proof.
  intros HI HB.
  destruct (canvasRef s) as [cv|] eqn:Hcv;
    [|by unfold handleRecord; rewrite Hcv].
  destruct (has_captureStream cv) eqn:Hcap;
    [|by unfold handleRecord; rewrite Hcv, Hcap].
  destruct (recorderState s) eqn:Hst.
  2:{ unfold handleRecord; rewrite Hcv, Hcap, Hst. cbn.
      destruct (recorderRef s); [by apply Bounded_recorder_stop|done]. }
  destruct ctor_ok; [|by unfold handleRecord; rewrite Hcv, Hcap, Hst].
  destruct (handleRecord_start s cv Hcv Hcap Hst)
    as (_ & _ & _ & _ & _ & _ & E5 & E6 & _).
  intros i x Hi Hx. rewrite E5 in Hi. rewrite E6.
  apply lookup_app_Some in Hi as [Hi|[Hge Hi]].
  - destruct (HB i x Hi Hx) as [j Hj]. exists j. by apply lookup_app_l_Some.
  - apply list_lookup_singleton_Some in Hi as [Hi _].
    exists (length (timers s)).
    rewrite lookup_app_r, Nat.sub_diag by done. cbn. do 3 f_equal. lia.
Qed.

Lemma quiescent_all_stopped s : quiescent s → all_stopped s.
Proof.
  intros Hq r rc Hr. destruct (rec_state rc) eqn:Hst; [done|].
  destruct (Hq r rc Hr). by left.
Qed.

Lemma all_stopped_end_session errored r rc data s :
  Inv s → recorders s !! r = Some rc → unfinished rc →
  all_stopped (end_session errored r data s).
Proof.
  intros HI Hr Hun.
  destruct (put_recorder_quiescent r rc s HI Hr Hun) as [_ Hq].
  unfold end_session.
  set (s1 := if errored then _ else _).
  assert (quiescent s1) as Hq1 by (subst s1; by destruct errored).
  destruct (onstop_fields r (ondataavailable r data s1)) as (_ & E & _).
  eapply all_stopped_timers; [exact E|].
  by apply quiescent_all_stopped, ondataavailable_quiescent.
Qed.

Lemma all_stopped_commit prev s : all_stopped s → all_stopped (commit prev s).
Proof.
  intros Hs. unfold commit. case_decide; [done|]. unfold effect_cleanup.
  set (s1 := match recorderRef s with Some r => _ | None => s end).
  assert (s1 = s) as ->.
  { subst s1. destruct (recorderRef s) as [r|]; [|done].
    destruct (recorders s !! r) as [rc|] eqn:Hr; [|done].
    by rewrite (Hs r rc Hr). }
  set (s2 := match pendingTimeoutRef s with Some (S i) => _ | _ => s end).
  assert (all_stopped s2) as H2.
  { subst s2. destruct (pendingTimeoutRef s) as [[|i]|]; try done.
    by apply all_stopped_clearTimeout. }
  destruct (downloadUrl prev); [|done].
  by eapply all_stopped_timers; [|exact H2].
Qed.

(** A recorder still recording after [stop()] on [r] is another one. *)
Lemma recording_after_stop r i x s :
  recorders (recorder_stop r s) !! i = Some x → rec_state x = rs_recording →
  i ≠ r ∧ recorders s !! i = Some x.
Proof.
  unfold recorder_stop.
  destruct (recorders s !! r) as [rc|] eqn:Hr.
  - destruct (rec_state rc) eqn:Hst; cbn.
    + intros Hi Hx. split; [|done]. intros ->. congruence.
    + intros Hi Hx. destruct (decide (i = r)) as [->|Hne].
      * rewrite list_lookup_insert_eq in Hi by (by eapply lookup_lt_Some).
        by simplify_eq.
      * by rewrite list_lookup_insert_ne in Hi.
  - intros Hi Hx. split; [|done]. intros ->. congruence.
Qed.

Lemma Bounded_step e s s' : Inv s → Bounded s → step e s = Some s' → Bounded s'.
Proof.
  intros HI HB Hstep. destruct e as [ok|h|r data|r data|r data]; cbn in Hstep.
  - simplify_eq.
    apply Bounded_commit; [by apply Inv_handleRecord|by apply Bounded_handleRecord].
  - destruct h as [|i]; [done|].
    destruct (timers s !! i) as [t|] eqn:Ht; [|done].
    destruct (tm_armed t) eqn:Harm; simplify_eq.
    assert (Inv (timeout_callback (tm_recorder t) (spend_timer i t s))) as HI'.
    { unfold timeout_callback.
      by apply (Inv_recorder_stop (tm_recorder t) (spend_timer i t s)). }
    apply Bounded_commit; [done|].
    intros r x Hr Hx. unfold timeout_callback in *. cbn in Hr |- *.
    rewrite timers_recorder_stop. cbn.
    destruct (recording_after_stop _ _ _ _ Hr Hx) as [Hne Hr0]. cbn in Hr0.
    destruct (HB r x Hr0 Hx) as [j Hj]. exists j.
    rewrite list_lookup_insert_ne; [done|].
    intros ->. rewrite Ht in Hj. by simplify_eq.
  - destruct (recorders s !! r) as [rc|] eqn:Hr; [|done].
    destruct (rec_state rc); simplify_eq.
    apply Bounded_commit; [by apply Inv_ondataavailable|].
    by apply Bounded_ondataavailable.
  - destruct (recorders s !! r) as [rc|] eqn:Hr; [|done].
    destruct (rec_stop_queued rc) eqn:Hq; simplify_eq.
    apply all_stopped_Bounded, all_stopped_commit.
    eapply all_stopped_end_session; [done..|by right].
  - destruct (recorders s !! r) as [rc|] eqn:Hr; [|done].
    destruct (rec_state rc) eqn:Hst; simplify_eq.
    apply all_stopped_Bounded, all_stopped_commit.
    eapply all_stopped_end_session; [done..|by left].
Qed.

Lemma reachable_Bounded s : reachable s → Bounded s.
Proof.
  induction 1 as [canvas|e s s' Hs IH Hstep]; [by intros r rc Hr|].
  eapply Bounded_step; [by apply reachable_Inv|done..].
Qed.

(** The reachable state after the events [es], from a fresh mount. *)
Ltac from_trace es :=
  apply (reachable_run es (mount demo_canvas));
  [apply reachable_mount|vm_compute; reflexivity].

(** X1. A recording never runs unbounded: whenever a recorder is recording,
    the timer that its session armed is still armed, and when that timer
    fires the recorder is stopped (with its chunks kept and its stop task
    queued), which leaves no recorder recording. *)
Theorem recording_has_armed_timer s r rc :
  reachable s → recorders s !! r = Some rc → rec_state rc = rs_recording →
  ∃ i s',
    timers s !! i = Some {| tm_recorder := r; tm_armed := true |} ∧
    step (TimerFires (S i)) s = Some s' ∧
    recorders s' !! r =
      Some {| rec_state := rs_inactive; rec_stop_queued := true;
              chunks := chunks rc |} ∧
    open_sessions s' = [] ∧
    timer_armed (S i) s' = false.
Proof.
  intros Hs Hr Hrec.
  destruct (reachable_Bounded s Hs r rc Hr Hrec) as [i Hi].
  pose proof (reachable_Inv s Hs) as HI.
  exists i. eexists. split; [done|].
  assert (step (TimerFires (S i)) s =
          Some (set_pendingTimeoutRef None
                  (recorder_stop r
                     (spend_timer i {| tm_recorder := r; tm_armed := true |} s))))
    as Hstep.
  { cbn. rewrite Hi. cbn. unfold commit. rewrite decide_True; [done|].
    unfold timeout_callback.
    rewrite (recorder_stop_recording r rc) by done. done. }
  split; [exact Hstep|].
  rewrite (recorder_stop_recording r rc) by done. cbn.
  split; [by rewrite list_lookup_insert_eq by (by eapply lookup_lt_Some)|].
  split.
  - apply filter_none. intros x Hin Hx.
    apply list_elem_of_lookup in Hin as [j Hj].
    destruct (decide (j = r)) as [->|Hne].
    + rewrite list_lookup_insert_eq in Hj by (by eapply lookup_lt_Some).
      by simplify_eq.
    + rewrite list_lookup_insert_ne in Hj by done.
      destruct (inv_current _ _ _ _ _ _ HI j x Hj) as [_ E1]; [by left|].
      destruct (inv_current _ _ _ _ _ _ HI r rc Hr) as [_ E2]; [by left|].
      congruence.
  - by rewrite list_lookup_insert_eq by (by eapply lookup_lt_Some).
Qed.

Lemma recording_has_armed_timer_witness :
  ∃ s, run [Click true; DataAvailable 0 demo_chunk] (mount demo_canvas) = Some s ∧
  ∃ i s',
    timers s !! i = Some {| tm_recorder := 0; tm_armed := true |} ∧
    step (TimerFires (S i)) s = Some s' ∧
    recorders s' !! 0 =
      Some {| rec_state := rs_inactive; rec_stop_queued := true;
              chunks := [demo_chunk] |} ∧
    open_sessions s' = [] ∧
    timer_armed (S i) s' = false.
Proof.
  eexists. split; [vm_compute; reflexivity|].
  apply (recording_has_armed_timer _ 0
           {| rec_state := rs_recording; rec_stop_queued := false;
              chunks := [demo_chunk] |});
    [from_trace [Click true; DataAvailable 0 demo_chunk]
    |reflexivity|reflexivity].
Defined.









(** X4. The text that [onerror] sets is never on display. When a recorder
    fails, the browser fires [error], [dataavailable] and [stop] in one
    task, so [onstop] replaces 'Recording failed' before the page renders:
    after the failure the status reads 'Clip ready!' when data had been
    captured and 'No data captured' otherwise. *)
Theorem error_text_never_shown s :
  reachable s →
  status_text (NightWalkCanvas_view s) ≠ msg_failed ∧
  ∀ r data s', step (ErrorTask r data) s = Some s' →
    recorderState s' = idle ∧
    message s' =
      (if decide (final_chunks r data s = []) then msg_no_data else msg_ready).
Proof.
  intros Hs. split; [by destruct (reachable_Shown s Hs) as (_ & _ & _ & ? & _)|].
  intros r data s' Hstep. cbn in Hstep.
  destruct (recorders s !! r) as [rc|] eqn:Hr; [|done].
  destruct (rec_state rc) eqn:Hst; simplify_eq.
  destruct (end_session_spec true r rc data s (reachable_Inv s Hs) Hr)
    as (E1 & _ & _ & _ & _ & Hnil & Hcons); [by left|].
  split; [done|]. case_decide.
  - by destruct Hnil.
  - by destruct Hcons.
Qed.

Lemma error_text_never_shown_witness :
  ∃ s, run [Click true; DataAvailable 0 demo_chunk] (mount demo_canvas) = Some s ∧
  status_text (NightWalkCanvas_view s) ≠ msg_failed ∧
  ∀ r data s', step (ErrorTask r data) s = Some s' →
    recorderState s' = idle ∧
    message s' =
      (if decide (final_chunks r data s = []) then msg_no_data else msg_ready).
Proof.
  eexists. split; [vm_compute; reflexivity|].
  apply error_text_never_shown.
  from_trace [Click true; DataAvailable 0 demo_chunk].
Defined.


(** X5. A timer left over from an earlier session cannot stop the current
    one. When a timer fires whose recorder is not the one in [recorderRef],
    its [stop()] falls on a finished recorder: recorders, recorder state,
    status line, clip on offer and the other timers stay as they are. The
    callback still sets [pendingTimeoutRef] to null, so the handle of the
    current session's timer is lost while that timer stays armed. *)
Theorem stale_timer_spares_session s i t :
  reachable s → timers s !! i = Some t → tm_armed t = true →
  recorderRef s ≠ Some (tm_recorder t) →
  ∃ s', step (TimerFires (S i)) s = Some s' ∧
        recorders s' = recorders s ∧
        recorderState s' = recorderState s ∧
        message s' = message s ∧
        downloadUrl s' = downloadUrl s ∧
        objectUrls s' = objectUrls s ∧
        recorderRef s' = recorderRef s ∧
        pendingTimeoutRef s' = None ∧
        ∀ j, j ≠ i → timers s' !! j = timers s !! j.
Proof.
  intros Hs Ht Harm Hne. pose proof (reachable_Inv s Hs) as HI.
  assert (recorder_stop (tm_recorder t) (spend_timer i t s) = spend_timer i t s ∨
          recorder_stop (tm_recorder t) (spend_timer i t s) =
            record_effect (FxStopIgnored (tm_recorder t)) (spend_timer i t s))
    as Hstop.
  { destruct (recorders s !! tm_recorder t) as [rc|] eqn:Hr.
    - right. apply (recorder_stop_inactive _ rc); [done|].
      destruct (rec_state rc) eqn:Hst; [done|].
      destruct (inv_current _ _ _ _ _ _ HI _ rc Hr) as [_ ?]; [by left|done].
    - left. unfold recorder_stop. cbn. by rewrite Hr. }
  eexists. split.
  { cbn. rewrite Ht, Harm. reflexivity. }
  unfold timeout_callback, commit.
  destruct Hstop as [-> | ->]; cbn; rewrite decide_True by done; cbn.
  all: repeat split; try done.
  all: intros j Hj; by rewrite list_lookup_insert_ne.
Qed.

Lemma stale_timer_spares_session_witness :
  ∃ s, run [Click true; Click true; StopTask 0 empty_chunk; Click true]
           (mount demo_canvas) = Some s ∧
       recorderRef s = Some 1 ∧ pendingTimeoutRef s = Some 2 ∧
  ∃ s', step (TimerFires 1) s = Some s' ∧
        recorders s' = recorders s ∧
        recorderState s' = recorderState s ∧
        message s' = message s ∧
        downloadUrl s' = downloadUrl s ∧
        objectUrls s' = objectUrls s ∧
        recorderRef s' = recorderRef s ∧
        pendingTimeoutRef s' = None ∧
        ∀ j, j ≠ 0 → timers s' !! j = timers s !! j.
Proof.
  eexists. split; [vm_compute; reflexivity|].
  split; [reflexivity|]. split; [reflexivity|].
  apply (stale_timer_spares_session _ 0 {| tm_recorder := 0; tm_armed := true |});
    [from_trace [Click true; Click true; StopTask 0 empty_chunk; Click true]
    |reflexivity|reflexivity|discriminate].
Defined.


(** The clean-up when it finds a running recorder and a pending timer. *)
Lemma effect_cleanup_running closure r rc n s :
  recorderRef s = Some r → recorders s !! r = Some rc →
  rec_state rc = rs_recording → pendingTimeoutRef s = Some (S n) →
  effect_cleanup closure s =
    let s := clearTimeout (S n) (recorder_stop r s) in
    match closure with Some u => revokeObjectURL u s | None => s end.
Proof.
  intros Href Hr Hst Hp. unfold effect_cleanup.
  rewrite Href, Hr, Hst, ref_recorder_stop, Hp. done.
Qed.

(** X6. Starting a new recording while a clip is on offer does not
    record. The click creates and starts a recorder and shows 'recording',
    but the render that follows sees [downloadUrl] change to null and runs
    the clean-up of the [downloadUrl] effect, which stops the new recorder
    and cancels its timer at once. The earlier clip is revoked, no
    recorder is recording, and the new session has no chunk. *)
Theorem restart_with_clip_is_cut_short s u cv :
  reachable s → downloadUrl s = Some u →
  canvasRef s = Some cv → has_captureStream cv = true →
  ∃ s', step (Click true) s = Some s' ∧
    recorderState s' = recording ∧ message s' = msg_recording ∧
    downloadUrl s' = None ∧ objectUrls s' = [] ∧
    recorderRef s' = Some (length (recorders s)) ∧
    recorders s' !! length (recorders s) =
      Some {| rec_state := rs_inactive; rec_stop_queued := true;
              chunks := [] |} ∧
    open_sessions s' = [] ∧
    timer_armed (S (length (timers s))) s' = false ∧
    take 3 (history s') =
      [FxRevokeObjectURL u; FxClearTimeout (S (length (timers s)));
       FxStop (length (recorders s))].
Proof.
  intros Hs Hu Hcv Hcap. pose proof (reachable_Inv s Hs) as HI.
  assert (recorderState s = idle) as Hidle.
  { destruct (recorderState s) eqn:Hst; [done|].
    pose proof (inv_no_url _ _ _ _ _ _ HI Hst). congruence. }
  destruct (handleRecord_start s cv Hcv Hcap Hidle)
    as (E1 & E2 & E3 & E4 & E5 & _ & E6 & E7 & E8 & _).
  pose proof (Inv_handleRecord true s HI) as HI1.
  set (s1 := handleRecord true s) in *.
  set (r := length (recorders s)) in *. set (n := length (timers s)) in *.
  assert (recorders s1 !! r =
          Some {| rec_state := rs_recording; rec_stop_queued := false;
                  chunks := [] |}) as Hr1.
  { rewrite E6. subst r. by rewrite lookup_app_r, Nat.sub_diag. }
  assert (timers s1 !! n = Some {| tm_recorder := r; tm_armed := true |}) as Hn1.
  { rewrite E7. subst n. by rewrite lookup_app_r, Nat.sub_diag. }
  exists (effect_cleanup (Some u) s1). split.
  { cbn. unfold commit. fold s1. rewrite Hu, E2. by rewrite decide_False. }
  split_and!.
  - destruct (steady_effect_cleanup (Some u) s1) as (-> & _). done.
  - destruct (steady_effect_cleanup (Some u) s1) as (_ & -> & _). done.
  - destruct (steady_effect_cleanup (Some u) s1) as (_ & _ & -> & _). done.
  - rewrite (effect_cleanup_running _ r _ n s1 E4 Hr1 eq_refl E5). cbn.
    rewrite (recorder_stop_recording r _ s1 Hr1 eq_refl). cbn. rewrite Hn1. cbn.
    rewrite E8, Hu. destruct HI as [_ _ _ Hlive _ _ _]. rewrite Hu in Hlive.
    destruct (objectUrls s) as [|[w b] [|]]; simplify_eq/=.
    rewrite filter_cons_False; [done|]. cbn. intros Hd.
    by apply bool_decide_unpack in Hd.
  - destruct (steady_effect_cleanup (Some u) s1) as (_ & _ & _ & -> & _). done.
  - rewrite (effect_cleanup_running _ r _ n s1 E4 Hr1 eq_refl E5). cbn.
    rewrite (recorder_stop_recording r _ s1 Hr1 eq_refl). cbn. rewrite Hn1. cbn.
    by rewrite list_lookup_insert_eq by (by eapply lookup_lt_Some).
  - by apply all_stopped_open_sessions, all_stopped_effect_cleanup.
  - rewrite (effect_cleanup_running _ r _ n s1 E4 Hr1 eq_refl E5). cbn.
    rewrite (recorder_stop_recording r _ s1 Hr1 eq_refl). cbn. rewrite Hn1. cbn.
    by rewrite list_lookup_insert_eq by (by eapply lookup_lt_Some).
  - rewrite (effect_cleanup_running _ r _ n s1 E4 Hr1 eq_refl E5). cbn.
    rewrite (recorder_stop_recording r _ s1 Hr1 eq_refl). cbn.
    by rewrite Hn1.
Qed.

Lemma restart_with_clip_is_cut_short_witness :
  ∃ s, run [Click true; Click true; StopTask 0 demo_chunk] (mount demo_canvas)
         = Some s ∧
  ∃ s', step (Click true) s = Some s' ∧
    recorderState s' = recording ∧ message s' = msg_recording ∧
    downloadUrl s' = None ∧ objectUrls s' = [] ∧
    recorderRef s' = Some (length (recorders s)) ∧
    recorders s' !! length (recorders s) =
      Some {| rec_state := rs_inactive; rec_stop_queued := true;
              chunks := [] |} ∧
    open_sessions s' = [] ∧
    timer_armed (S (length (timers s))) s' = false ∧
    take 3 (history s') =
      [FxRevokeObjectURL 1; FxClearTimeout (S (length (timers s)));
       FxStop (length (recorders s))].
Proof.
  eexists. split; [vm_compute; reflexivity|].
  apply (restart_with_clip_is_cut_short _ 1 {| has_captureStream := true |});
    [from_trace [Click true; Click true; StopTask 0 demo_chunk]
    |reflexivity|reflexivity|reflexivity].
Defined.


(** ** What ends up in a clip *)

Lemma run_app es1 es2 s :
  run (es1 ++ es2) s =
    match run es1 s with Some s' => run es2 s' | None => None end.
Proof.
  revert s. induction es1 as [|e es1 IH]; intros s; cbn; [done|].
  by destruct (step e s).
Qed.

Lemma commit_same prev s : downloadUrl prev = downloadUrl s → commit prev s = s.
Proof. intros E. unfold commit. by rewrite decide_True. Qed.

Lemma run_deliveries r rc ds s :
  recorders s !! r = Some rc → rec_state rc = rs_recording →
  ∃ s', run (deliveries r ds) s = Some s' ∧
    recorders s' !! r =
      Some {| rec_state := rs_recording;
              rec_stop_queued := rec_stop_queued rc;
              chunks := chunks rc ++ filter (λ d, 0 < size d) ds |} ∧
    (∀ r', r' ≠ r → recorders s' !! r' = recorders s !! r') ∧
    recorderState s' = recorderState s ∧ downloadUrl s' = downloadUrl s ∧
    message s' = message s ∧ recorderRef s' = recorderRef s ∧
    pendingTimeoutRef s' = pendingTimeoutRef s ∧ canvasRef s' = canvasRef s ∧
    timers s' = timers s ∧ objectUrls s' = objectUrls s ∧
    urlCounter s' = urlCounter s ∧ history s' = history s.
Proof.
  revert s rc. induction ds as [|d ds IH]; intros s rc Hr Hst.
  - exists s. cbn. rewrite app_nil_r. split; [done|]. split; [|done].
    rewrite Hr. f_equal. destruct rc; cbn in *. by subst.
  - cbn [deliveries map run]. cbn [step]. rewrite Hr, Hst.
    rewrite commit_same by (by rewrite ondataavailable_downloadUrl).
    unfold ondataavailable. rewrite Hr. rewrite filter_cons.
    destruct (decide (0 < size d)) as [Hd|Hd].
    + match goal with
      | |- context [run _ ?s1] =>
          destruct (IH s1 {| rec_state := rec_state rc;
                             rec_stop_queued := rec_stop_queued rc;
                             chunks := chunks rc ++ [d] |})
            as (s' & Hrun & E1 & E2 & E3)
      end.
      { cbn. by rewrite list_lookup_insert_eq by (by eapply lookup_lt_Some). }
      { done. }
      exists s'. split; [exact Hrun|]. cbn in E1, E2, E3.
      split; [by rewrite E1, <- app_assoc|]. split; [|exact E3].
      intros r' Hne. rewrite E2 by done. by rewrite list_lookup_insert_ne.
    + destruct (IH s rc Hr Hst) as (s' & Hrun & E). by exists s'.
Qed.

Lemma concat_filter_nonempty (l : list Blob) :
  concat (map blob_data (filter (λ d, 0 < size d) l)) = concat (map blob_data l).
Proof.
  induction l as [|d l IH]; [done|]. rewrite filter_cons.
  destruct (decide (0 < size d)) as [Hd|Hd]; cbn; [by rewrite IH|].
  rewrite IH. unfold size in Hd. by destruct (blob_data d); [|cbn in Hd; lia].
Qed.

Lemma filter_nonempty_nil (l : list Blob) :
  filter (λ d, 0 < size d) l = [] ↔ concat (map blob_data l) = [].
Proof.
  rewrite <- concat_filter_nonempty. split; [by intros ->|].
  destruct (filter (λ d, 0 < size d) l) as [|d l'] eqn:E; [done|].
  assert (0 < size d) as Hd.
  { assert (d ∈ filter (λ d, 0 < size d) l) as Hin
      by (rewrite E; apply list_elem_of_here).
    by apply list_elem_of_filter in Hin as [? _]. }
  cbn. unfold size in Hd. destruct (blob_data d); [cbn in Hd; lia|done].
Qed.

(** X7. Chunks are buffered per session and in arrival order. While
    recorder [r] records, a run of deliveries [ds] to it appends exactly
    the non-empty ones, in order, to that session's buffer; every other
    recorder, the page state, the timers and the log of browser calls are
    untouched. *)
Theorem deliveries_append_in_order s r rc ds :
  recorders s !! r = Some rc → rec_state rc = rs_recording →
  ∃ s', run (deliveries r ds) s = Some s' ∧
    session_chunks r s' = chunks rc ++ filter (λ d, 0 < size d) ds ∧
    (∀ r', r' ≠ r → recorders s' !! r' = recorders s !! r') ∧
    length (recorders s') = length (recorders s) ∧
    recorderState s' = recorderState s ∧ downloadUrl s' = downloadUrl s ∧
    message s' = message s ∧ timers s' = timers s ∧
    objectUrls s' = objectUrls s ∧ history s' = history s.
Proof.
  intros Hr Hst.
  destruct (run_deliveries r rc ds s Hr Hst)
    as (s' & Hrun & E1 & E2 & E3 & E4 & E5 & _ & _ & _ & E6 & E7 & _ & E8).
  exists s'. split; [done|]. unfold session_chunks. rewrite E1.
  split_and!; try done.
  apply Nat.le_antisymm.
  - destruct (decide (length (recorders s') ≤ length (recorders s)));
      [done|exfalso].
    assert (length (recorders s) ≠ r)
      by (intros <-; apply lookup_lt_Some in Hr; lia).
    assert (is_Some (recorders s' !! length (recorders s))) as [x Hx]
      by (apply lookup_lt_is_Some; lia).
    rewrite E2 in Hx by done. apply lookup_lt_Some in Hx. lia.
  - destruct (decide (length (recorders s) ≤ length (recorders s')));
      [done|exfalso].
    assert (length (recorders s') ≠ r)
      by (intros <-; apply lookup_lt_Some in E1; lia).
    assert (is_Some (recorders s !! length (recorders s'))) as [x Hx]
      by (apply lookup_lt_is_Some; lia).
    rewrite <- E2 in Hx by done. apply lookup_lt_Some in Hx. lia.
Qed.

Lemma deliveries_append_in_order_witness :
  ∃ s, run [Click true] (mount demo_canvas) = Some s ∧
  ∃ s', run (deliveries 0 [demo_chunk; empty_chunk; demo_chunk]) s = Some s' ∧
    session_chunks 0 s' =
      [] ++ filter (λ d, 0 < size d) [demo_chunk; empty_chunk; demo_chunk] ∧
    (∀ r', r' ≠ 0 → recorders s' !! r' = recorders s !! r') ∧
    length (recorders s') = length (recorders s) ∧
    recorderState s' = recorderState s ∧ downloadUrl s' = downloadUrl s ∧
    message s' = message s ∧ timers s' = timers s ∧
    objectUrls s' = objectUrls s ∧ history s' = history s.
Proof.
  eexists. split; [vm_compute; reflexivity|].
  apply (deliveries_append_in_order _ 0
           {| rec_state := rs_recording; rec_stop_queued := false;
              chunks := [] |}); reflexivity.
Defined.


(** X8. A clip holds what the recorder delivered. Start a session from an
    idle page with no clip on offer, let the recorder deliver [ds], stop
    with the button and let the stop task deliver [data]: if all of it is
    empty the page reports that no data was captured and offers nothing;
    otherwise it offers one blob of type [video/webm] whose bytes are the
    bytes of [ds] and [data] in the order of arrival. *)
Theorem clip_is_what_was_delivered s cv ds data :
  reachable s → recorderState s = idle → downloadUrl s = None →
  canvasRef s = Some cv → has_captureStream cv = true →
  let r := length (recorders s) in
  let bytes := concat (map blob_data (ds ++ [data])) in
  ∃ s',
    run (Click true :: deliveries r ds ++ [Click true; StopTask r data]) s
      = Some s' ∧
    recorderState s' = idle ∧
    if decide (bytes = []) then
      downloadUrl s' = None ∧ objectUrls s' = [] ∧ message s' = msg_no_data
    else
      ∃ u, downloadUrl s' = Some u ∧ message s' = msg_ready ∧
           objectUrls s' =
             [(u, {| blob_data := bytes; blob_type := "video/webm" |})].
Proof.
  intros Hs Hidle Hu Hcv Hcap r bytes.
  destruct (handleRecord_start s cv Hcv Hcap Hidle)
    as (E1 & E2 & _ & E4 & _ & _ & E6 & _).
  set (s1 := handleRecord true s) in *.
  assert (step (Click true) s = Some s1) as Hstep1.
  { cbn. fold s1. by rewrite commit_same by congruence. }
  pose proof (reachable_step _ _ _ Hs Hstep1) as Hs1.
  assert (recorders s1 !! r =
          Some {| rec_state := rs_recording; rec_stop_queued := false;
                  chunks := [] |}) as Hr1.
  { rewrite E6. subst r. by rewrite lookup_app_r, Nat.sub_diag. }
  destruct (run_deliveries r _ ds s1 Hr1 eq_refl)
    as (s2 & Hrun2 & Hr2 & _ & F1 & _ & _ & F4 & _).
  cbn [rec_stop_queued chunks app] in Hr2.
  pose proof (reachable_run _ _ _ Hs1 Hrun2) as Hs2.
  assert (step (Click true) s2 = Some (recorder_stop r s2)) as Hstep3.
  { apply click_while_recording; [done|by rewrite F1|by rewrite F4]. }
  pose proof (reachable_step _ _ _ Hs2 Hstep3) as Hs3.
  set (s3 := recorder_stop r s2) in *.
  assert (recorders s3 !! r =
          Some {| rec_state := rs_inactive; rec_stop_queued := true;
                  chunks := filter (λ d, 0 < size d) ds |}) as Hr3.
  { subst s3. rewrite (recorder_stop_recording r _ s2 Hr2 eq_refl). cbn.
    by rewrite list_lookup_insert_eq by (by eapply lookup_lt_Some). }
  exists (commit s3 (end_session false r data s3)). split.
  { cbn [run]. rewrite Hstep1. rewrite run_app, Hrun2. cbn [run].
    rewrite Hstep3. cbn [step]. by rewrite Hr3. }
  destruct (end_session_spec false r _ data s3 (reachable_Inv _ Hs3) Hr3)
    as (G1 & _ & _ & _ & _ & Hnil & Hcons); [by right|].
  split; [done|].
  assert (final_chunks r data s3 = filter (λ d, 0 < size d) (ds ++ [data]))
    as Hcs.
  { unfold final_chunks, session_chunks. rewrite Hr3. cbn [chunks].
    rewrite filter_app. f_equal. }
  rewrite Hcs in Hnil, Hcons. case_decide as Hb.
  - apply filter_nonempty_nil in Hb. destruct (Hnil Hb) as (? & ? & ? & _).
    done.
  - assert (filter (λ d, 0 < size d) (ds ++ [data]) ≠ []) as Hne
      by (by rewrite filter_nonempty_nil).
    destruct (Hcons Hne) as (M & U & O & _).
    eexists. split; [exact U|]. split; [exact M|]. rewrite O.
    unfold new_Blob. by rewrite concat_filter_nonempty.
Qed.

Lemma clip_is_what_was_delivered_witness :
  let s := mount demo_canvas in
  let r := length (recorders s) in
  let bytes := concat (map blob_data ([demo_chunk; empty_chunk] ++ [demo_chunk])) in
  ∃ s',
    run (Click true :: deliveries r [demo_chunk; empty_chunk]
           ++ [Click true; StopTask r demo_chunk]) s = Some s' ∧
    recorderState s' = idle ∧
    if decide (bytes = []) then
      downloadUrl s' = None ∧ objectUrls s' = [] ∧ message s' = msg_no_data
    else
      ∃ u, downloadUrl s' = Some u ∧ message s' = msg_ready ∧
           objectUrls s' =
             [(u, {| blob_data := bytes; blob_type := "video/webm" |})].
Proof.
  apply (clip_is_what_was_delivered (mount demo_canvas)
           {| has_captureStream := true |} [demo_chunk; empty_chunk] demo_chunk);
    [apply reachable_mount|reflexivity..].
Defined.


(** ** Leaving the page *)

Lemma objectUrls_recorder_stop r s :
  objectUrls (recorder_stop r s) = objectUrls s.
Proof.
  unfold recorder_stop. destruct (recorders s !! r) as [rc|]; [|done].
  by destruct (rec_state rc).
Qed.

Lemma objectUrls_clearTimeout h s : objectUrls (clearTimeout h s) = objectUrls s.
Proof.
  unfold clearTimeout. destruct h as [|i]; [done|]. by destruct (timers s !! i).
Qed.

(** The three parts of the clean-up, one after the other. *)
Lemma effect_cleanup_parts closure s :
  ∃ s1 s2,
    (s1 = s ∨ ∃ r, recorderRef s = Some r ∧ s1 = recorder_stop r s) ∧
    (s2 = s1 ∨ ∃ i, pendingTimeoutRef s = Some (S i) ∧
                    s2 = clearTimeout (S i) s1) ∧
    (pendingTimeoutRef s = None ∨ pendingTimeoutRef s = Some 0 → s2 = s1) ∧
    (∀ i, pendingTimeoutRef s = Some (S i) → s2 = clearTimeout (S i) s1) ∧
    effect_cleanup closure s =
      match closure with Some u => revokeObjectURL u s2 | None => s2 end.
Proof.
  unfold effect_cleanup.
  set (s1 := match recorderRef s with Some r => _ | None => s end).
  assert (s1 = s ∨ ∃ r, recorderRef s = Some r ∧ s1 = recorder_stop r s) as H1.
  { subst s1. destruct (recorderRef s) as [r|]; [|by left].
    destruct (recorders s !! r) as [rc|]; [|by left].
    destruct (rec_state rc); [by left|right; eauto]. }
  assert (pendingTimeoutRef s1 = pendingTimeoutRef s) as Hp.
  { destruct H1 as [->|(r & _ & ->)]; [done|apply ref_recorder_stop]. }
  exists s1. eexists. split; [exact H1|]. rewrite Hp.
  split_and!; [| | |reflexivity].
  - destruct (pendingTimeoutRef s) as [[|i]|]; [by left|right; eauto|by left].
  - by intros [->| ->].
  - by intros i ->.
Qed.

Lemma objectUrls_effect_cleanup closure s :
  objectUrls (effect_cleanup closure s) =
    match closure with
    | Some u => filter (λ ub, bool_decide (ub.1 ≠ u)) (objectUrls s)
    | None => objectUrls s
    end.
Proof.
  destruct (effect_cleanup_parts closure s) as (s1 & s2 & H1 & H2 & _ & _ & ->).
  assert (objectUrls s2 = objectUrls s) as E.
  { destruct H2 as [->|(i & _ & ->)]; rewrite ?objectUrls_clearTimeout.
    all: destruct H1 as [->|(r & _ & ->)]; by rewrite ?objectUrls_recorder_stop. }
  destruct closure; cbn; by rewrite E.
Qed.

Lemma Inv_effect_cleanup_None s : Inv s → Inv (effect_cleanup None s).
Proof.
  intros HI.
  destruct (effect_cleanup_parts None s) as (s1 & s2 & H1 & H2 & _ & _ & ->).
  assert (Inv s1) as HI1
    by (destruct H1 as [->|(r & _ & ->)]; [done|by apply Inv_recorder_stop]).
  destruct H2 as [->|(i & _ & ->)]; [done|by apply Inv_clearTimeout].
Qed.

(** X9. Leaving the page releases what the page holds. After the clean-up
    that runs when the component is removed, no recorder is recording, no
    object URL is alive, and the timer whose handle is in
    [pendingTimeoutRef] cannot fire any more. *)
Theorem unmount_releases s :
  reachable s →
  open_sessions (unmount s) = [] ∧
  objectUrls (unmount s) = [] ∧
  (∀ h, pendingTimeoutRef s = Some h → timer_armed h (unmount s) = false) ∧
  (∀ h, timer_armed h (unmount s) = true → timer_armed h s = true).
Proof.
  intros Hs. pose proof (reachable_Inv s Hs) as HI. unfold unmount.
  split; [by apply all_stopped_open_sessions, all_stopped_effect_cleanup|].
  split.
  { rewrite objectUrls_effect_cleanup.
    destruct HI as [_ _ _ Hlive _ _ _].
    destruct (downloadUrl s) as [u|]; cbn in Hlive.
    - destruct (objectUrls s) as [|[w b] [|]]; simplify_eq/=.
      rewrite filter_cons_False; [done|]. cbn. intros Hd.
      by apply bool_decide_unpack in Hd.
    - by destruct (objectUrls s). }
  destruct (effect_cleanup_parts (downloadUrl s) s)
    as (s1 & s2 & H1 & H2 & _ & H3 & ->).
  assert (timers s1 = timers s) as E1
    by (destruct H1 as [->|(r & _ & ->)]; [done|apply timers_recorder_stop]).
  assert (∀ h, timer_armed h
                 match downloadUrl s with
                 | Some u => revokeObjectURL u s2
                 | None => s2
                 end = timer_armed h s2) as E2
    by (intros h; by destruct (downloadUrl s)).
  split.
  - intros [|i] Hp; rewrite E2; [done|].
    rewrite (H3 i Hp). apply clearTimeout_disarms.
  - intros h. rewrite E2.
    destruct H2 as [->|(i & _ & ->)].
    + unfold timer_armed. by rewrite E1.
    + destruct h as [|j]; [done|]. unfold timer_armed, clearTimeout. cbn.
      rewrite E1. destruct (timers s !! i) as [t|] eqn:Ht; cbn; rewrite ?E1;
        [|done].
      destruct (decide (j = i)) as [->|Hne].
      * rewrite list_lookup_insert_eq by (by eapply lookup_lt_Some). done.
      * by rewrite list_lookup_insert_ne.
Qed.

Lemma unmount_releases_witness :
  ∃ s, run [Click true; Click true; StopTask 0 demo_chunk] (mount demo_canvas)
         = Some s ∧
  objectUrls s ≠ [] ∧
  open_sessions (unmount s) = [] ∧
  objectUrls (unmount s) = [] ∧
  (∀ h, pendingTimeoutRef s = Some h → timer_armed h (unmount s) = false) ∧
  (∀ h, timer_armed h (unmount s) = true → timer_armed h s = true).
Proof.
  eexists. split; [vm_compute; reflexivity|]. split; [discriminate|].
  apply unmount_releases.
  from_trace [Click true; Click true; StopTask 0 demo_chunk].
Defined.

(** X10. Leaving the page during a recording leaves an object URL behind.
    The clean-up stops the recorder, whose stop task is then still queued;
    when that task runs, [onstop] assembles the clip and creates an object
    URL for it although the component, and with it every piece of code that
    revokes a URL, is gone. *)
Theorem unmount_while_recording_leaves_url s r data :
  reachable s → recorderState s = recording → recorderRef s = Some r →
  final_chunks r data s ≠ [] →
  objectUrls (unmount s) = [] ∧
  (∃ rc, recorders (unmount s) !! r = Some rc ∧
         rec_state rc = rs_inactive ∧ rec_stop_queued rc = true) ∧
  ∃ u, objectUrls (stop_task_after_unmount r data (unmount s)) =
         [(u, new_Blob (final_chunks r data s) "video/webm")].
Proof.
  intros Hs Hrec Href Hne. pose proof (reachable_Inv s Hs) as HI.
  pose proof (inv_no_url _ _ _ _ _ _ HI Hrec) as Hu.
  destruct (reachable_Shown s Hs) as (_ & _ & _ & _ & S5).
  destruct (S5 Hrec) as (r' & rc & Href' & Hr & Hun).
  assert (r' = r) as -> by congruence.
  unfold unmount, stop_task_after_unmount. rewrite Hu.
  pose proof (Inv_effect_cleanup_None s HI) as HI0.
  assert (objectUrls (effect_cleanup None s) = []) as Ho.
  { rewrite objectUrls_effect_cleanup.
    destruct HI as [_ _ _ Hlive _ _ _]. rewrite Hu in Hlive.
    by destruct (objectUrls s). }
  assert (∃ rc0, recorders (effect_cleanup None s) !! r = Some rc0 ∧
                 rec_state rc0 = rs_inactive ∧ rec_stop_queued rc0 = true ∧
                 chunks rc0 = chunks rc) as (rc0 & Hr0 & Hst0 & Hq0 & Hc0).
  { destruct (effect_cleanup_parts None s) as (s1 & s2 & _ & H2 & _ & _ & E).
    assert (recorders (effect_cleanup None s) = recorders s2) as -> by (by rewrite E).
    assert (recorders s2 =
            recorders (match rec_state rc with
                       | rs_recording => recorder_stop r s
                       | rs_inactive => s
                       end)) as ->.
    { revert E. unfold effect_cleanup. rewrite Href, Hr.
      set (s1' := match rec_state rc with
                  | rs_recording => recorder_stop r s | rs_inactive => s end).
      destruct (pendingTimeoutRef s1') as [[|i]|]; intros <-; try done.
      unfold clearTimeout. by destruct (timers s1' !! i). }
    destruct (rec_state rc) eqn:Hst.
    - exists rc. split_and!; try done. destruct Hun; congruence.
    - rewrite (recorder_stop_recording r rc s Hr Hst). cbn.
      rewrite list_lookup_insert_eq by (by eapply lookup_lt_Some). eauto. }
  split; [done|]. split; [eauto|].
  destruct (end_session_spec false r rc0 data _ HI0 Hr0)
    as (_ & _ & _ & _ & _ & _ & Hcons); [by right|].
  assert (final_chunks r data (effect_cleanup None s) = final_chunks r data s)
    as Hcs.
  { unfold final_chunks, session_chunks. by rewrite Hr0, Hr, Hc0. }
  rewrite Hcs in Hcons. destruct (Hcons Hne) as (_ & _ & O & _).
  exists (S (urlCounter (effect_cleanup None s))).
  etrans; [|exact O]. unfold commit. case_decide; [done|].
  rewrite objectUrls_effect_cleanup.
  assert (downloadUrl (effect_cleanup None s) = None) as ->; [|done].
  destruct (steady_effect_cleanup None s) as (_ & _ & -> & _). done.
Qed.

Lemma unmount_while_recording_leaves_url_witness :
  ∃ s, run [Click true; DataAvailable 0 demo_chunk] (mount demo_canvas) = Some s ∧
  objectUrls (unmount s) = [] ∧
  (∃ rc, recorders (unmount s) !! 0 = Some rc ∧
         rec_state rc = rs_inactive ∧ rec_stop_queued rc = true) ∧
  ∃ u, objectUrls (stop_task_after_unmount 0 empty_chunk (unmount s)) =
         [(u, new_Blob (final_chunks 0 empty_chunk s) "video/webm")].
Proof.
  eexists. split; [vm_compute; reflexivity|].
  apply unmount_while_recording_leaves_url;
    [from_trace [Click true; DataAvailable 0 demo_chunk]
    |reflexivity|reflexivity|discriminate].
Defined.


(** ** What changes the clip on offer *)

Lemma steady_timer_fires i t s :
  steady s (commit s (timeout_callback (tm_recorder t) (spend_timer i t s))).
Proof.
  etrans; [|apply steady_commit]. unfold timeout_callback.
  etrans; [|etrans; [apply (steady_recorder_stop (tm_recorder t))|]];
    [|repeat split; eauto].
  repeat split; eauto.
Qed.

(** X11. The clip on offer changes only at the two ends of a session.
    Whatever event the page handles, [downloadUrl] keeps its value unless
    the event is a click that starts a recording from idle (the value
    becomes null) or the stop or error task of the running session with
    data to publish (the value goes from null to a fresh object URL). In
    particular a click that fails to start, whether the canvas is missing,
    cannot be captured or the [MediaRecorder] constructor throws, and
    every timer and every delivery of data leave the clip on offer. *)
Theorem downloadUrl_changes_at_session_ends e s s' :
  reachable s → step e s = Some s' → downloadUrl s' ≠ downloadUrl s →
  (e = Click true ∧ recorderState s = idle ∧ recorderState s' = recording ∧
   downloadUrl s' = None) ∨
  (∃ r data, (e = StopTask r data ∨ e = ErrorTask r data) ∧
     recorderState s = recording ∧ recorderState s' = idle ∧
     final_chunks r data s ≠ [] ∧
     downloadUrl s = None ∧ downloadUrl s' = Some (S (urlCounter s))).
Proof.
  intros Hs Hstep Hch. pose proof (reachable_Inv s Hs) as HI.
  assert (∀ errored r rc data,
            recorders s !! r = Some rc → unfinished rc →
            s' = commit s (end_session errored r data s) →
            recorderState s = recording ∧ recorderState s' = idle ∧
            final_chunks r data s ≠ [] ∧
            downloadUrl s = None ∧ downloadUrl s' = Some (S (urlCounter s)))
    as Hend.
  { intros errored r rc data Hr Hun ->.
    destruct (inv_current _ _ _ _ _ _ HI r rc Hr Hun) as [Hrec _].
    pose proof (inv_no_url _ _ _ _ _ _ HI Hrec) as Hu.
    destruct (end_session_spec errored r rc data s HI Hr Hun)
      as (E1 & _ & _ & _ & _ & Hnil & Hcons).
    destruct (decide (final_chunks r data s = [])) as [Hcs|Hcs].
    - destruct (Hnil Hcs) as (_ & U & _). congruence.
    - destruct (Hcons Hcs) as (_ & U & _). done. }
  destruct e as [ok|h|r data|r data|r data]; cbn in Hstep.
  - simplify_eq. left.
    destruct (steady_commit s (handleRecord ok s)) as (C1 & _ & C3 & _).
    rewrite C1, C3 in *. clear C1 C3.
    destruct (canvasRef s) as [cv|] eqn:Hcv;
      [|by unfold handleRecord in Hch; rewrite Hcv in Hch].
    destruct (has_captureStream cv) eqn:Hcap;
      [|by unfold handleRecord in Hch; rewrite Hcv, Hcap in Hch].
    destruct (recorderState s) eqn:Hst.
    2:{ unfold handleRecord in Hch; rewrite Hcv, Hcap, Hst in Hch. cbn in Hch.
        destruct (recorderRef s) as [r|]; [|done].
        by destruct (steady_recorder_stop r s) as (_ & _ & ? & _). }
    destruct ok;
      [|by unfold handleRecord in Hch; rewrite Hcv, Hcap, Hst in Hch].
    by destruct (handleRecord_start s cv Hcv Hcap Hst) as (E1 & E2 & _).
  - destruct h as [|i]; [done|].
    destruct (timers s !! i) as [t|] eqn:Ht; [|done].
    destruct (tm_armed t); simplify_eq.
    by destruct (steady_timer_fires i t s) as (_ & _ & ? & _).
  - destruct (recorders s !! r) as [rc|] eqn:Hr; [|done].
    destruct (rec_state rc); simplify_eq.
    destruct (steady_commit s (ondataavailable r data s)) as (_ & _ & C & _).
    by rewrite C, ondataavailable_downloadUrl in Hch.
  - destruct (recorders s !! r) as [rc|] eqn:Hr; [|done].
    destruct (rec_stop_queued rc) eqn:Hq; simplify_eq.
    right. exists r, data. split; [by left|].
    eapply Hend; [done|by right|done].
  - destruct (recorders s !! r) as [rc|] eqn:Hr; [|done].
    destruct (rec_state rc) eqn:Hst; simplify_eq.
    right. exists r, data. split; [by right|].
    eapply Hend; [done|by left|done].
Qed.

Lemma downloadUrl_changes_at_session_ends_witness :
  ∃ s s', run [Click true; Click true] (mount demo_canvas) = Some s ∧
          step (StopTask 0 demo_chunk) s = Some s' ∧
  ((StopTask 0 demo_chunk = Click true ∧ recorderState s = idle ∧
    recorderState s' = recording ∧ downloadUrl s' = None) ∨
   (∃ r data, (StopTask 0 demo_chunk = StopTask r data ∨
               StopTask 0 demo_chunk = ErrorTask r data) ∧
      recorderState s = recording ∧ recorderState s' = idle ∧
      final_chunks r data s ≠ [] ∧
      downloadUrl s = None ∧ downloadUrl s' = Some (S (urlCounter s)))).
Proof.
  eexists. eexists. split; [vm_compute; reflexivity|].
  split; [vm_compute; reflexivity|].
  apply downloadUrl_changes_at_session_ends;
    [from_trace [Click true; Click true]|vm_compute; reflexivity|discriminate].
Defined.


End CaptureExtras.

(** * Further properties of the renderer and of the animation loop *)

Module RenderExtras.

Import Js Scene Canvas Render Surface RenderFacts.
Local Open Scope Q_scope.

(** ** The animation loop *)

Section LoopFacts.
Context `{Js.Math}.
Variable stars : list Star.
Variable skyline : list SkylineSegment.

Lemma draw_fields ts s :
  requests (draw stars skyline ts s) = requests s ++ [S (handles s)] ∧
  animationRef (draw stars skyline ts s) = Some (S (handles s)) ∧
  handles (draw stars skyline ts s) = S (handles s) ∧
  listeners (draw stars skyline ts s) = listeners s ∧ active (draw stars skyline ts s) = active s ∧
  startTimeRef (draw stars skyline ts s) = startTimeRef s.
Proof.
  unfold Surface.draw. destruct (element s) as [el|]; [|done].
  by destruct (context2d el).
Qed.

Lemma handleResize_fields w s :
  requests (handleResize w s) = requests s ∧
  animationRef (handleResize w s) = animationRef s ∧
  handles (handleResize w s) = handles s ∧
  listeners (handleResize w s) = listeners s ∧
  active (handleResize w s) = active s ∧
  startTimeRef (handleResize w s) = startTimeRef s.
Proof.
  unfold handleResize. destruct (element s) as [el|]; [|done].
  by destruct (context2d el).
Qed.

Lemma run_frame_one ts h s :
  requests s = [h] →
  run_frame stars skyline ts s = draw stars skyline ts (cancelAnimationFrame h s).
Proof.
  intros Hr. unfold Surface.run_frame. rewrite Hr. cbn.
  rewrite decide_True; [done|]. rewrite Hr. apply list_elem_of_here.
Qed.

Lemma run_frame_none ts s : requests s = [] → run_frame stars skyline ts s = s.
Proof. intros Hr. unfold Surface.run_frame. by rewrite Hr. Qed.

Lemma Ticking_step e s s' : Ticking s → loop_step stars skyline e s = Some s' → Ticking s'.
Proof.
  unfold Ticking. intros HT Hstep.
  destruct e as [w now|ts|w|]; cbn in Hstep.
  - destruct (active s) eqn:Ha; simplify_eq. destruct HT as [Hr Hl].
    unfold effect_setup. destruct (element s) as [el|]; [|by rewrite Ha].
    destruct (context2d el); [|by rewrite Ha]. cbn. rewrite Hr, Hl. eauto.
  - simplify_eq. destruct (active s) eqn:Ha.
    + destruct HT as (h & Href & Hr & Hl).
      rewrite (run_frame_one ts _ s Hr).
      destruct (draw_fields ts (cancelAnimationFrame (S h) s))
        as (E1 & E2 & _ & E4 & E5 & _).
      rewrite E5, E1, E2, E4. cbn. rewrite Ha, Hr.
      rewrite filter_cons_False by (by intros ?). cbn. eauto.
    + destruct HT as [Hr Hl]. rewrite (run_frame_none ts s Hr).
      by rewrite Ha.
  - simplify_eq.
    assert (∀ n, requests (Nat.iter n (handleResize w) s) = requests s ∧
                 animationRef (Nat.iter n (handleResize w) s) = animationRef s ∧
                 listeners (Nat.iter n (handleResize w) s) = listeners s ∧
                 active (Nat.iter n (handleResize w) s) = active s) as Hn.
    { induction n as [|n (I1 & I2 & I3 & I4)]; [done|].
      rewrite Nat.iter_succ.
      destruct (handleResize_fields w (Nat.iter n (handleResize w) s))
        as (E1 & E2 & _ & E4 & E5 & _).
      rewrite E1, E2, E4, E5. done. }
    destruct (Hn (listeners s)) as (-> & -> & -> & ->). done.
  - destruct (active s) eqn:Ha; simplify_eq.
    destruct HT as (h & Href & Hr & Hl).
    unfold effect_teardown. rewrite Href. cbn. rewrite Hr, Hl.
    by rewrite filter_cons_False by (by intros ?).
Qed.

Lemma Ticking_run es s s' : Ticking s → loop_run stars skyline es s = Some s' → Ticking s'.
Proof.
  revert s. induction es as [|e es IH]; intros s HT Hrun; cbn in Hrun.
  - by simplify_eq.
  - destruct (loop_step stars skyline e s) as [s1|] eqn:He; [|done].
    eapply IH; [|done]. by eapply Ticking_step.
Qed.

(** X12. The animation loop never doubles and stops for good. After any
    sequence of effect runs, frames, window resizes and clean-ups, at most
    one frame callback is pending; while the effect is set up it is the
    one whose handle is in [animationRef], so the clean-up cancels it; and
    once the clean-up has run, a frame of the browser renders nothing and
    a resize changes nothing. *)
Theorem animation_loop_single_and_stoppable ctx es s :
  loop_run stars skyline es (loop_mount ctx) = Some s →
  (length (requests s) ≤ 1)%nat ∧
  (active s = true →
   ∃ h s', requests s = [h] ∧ animationRef s = Some h ∧
           loop_step stars skyline EffectCleanup s = Some s' ∧
           requests s' = [] ∧ listeners s' = 0%nat ∧ active s' = false) ∧
  (active s = false →
   ∀ ts w, loop_step stars skyline (AnimationFrame ts) s = Some s ∧
           loop_step stars skyline (WindowResize w) s = Some s).
Proof.
  intros Hrun.
  assert (Ticking s) as HT by (by eapply Ticking_run; [|exact Hrun]).
  unfold Ticking in HT. destruct (active s) eqn:Ha.
  - destruct HT as (h & Href & Hr & Hl). split; [by rewrite Hr|].
    split; [|done]. intros _. exists (S h), (effect_teardown s).
    split; [done|]. split; [done|]. split; [by cbn; rewrite Ha|].
    unfold effect_teardown. rewrite Href. cbn. rewrite Hr, Hl.
    by rewrite filter_cons_False by (by intros ?).
  - destruct HT as [Hr Hl]. split; [rewrite Hr; cbn; lia|]. split; [done|].
    intros _ ts w. cbn. rewrite (run_frame_none ts s Hr), Hl. done.
Qed.

End LoopFacts.






Section SizedFacts.
Context `{Js.Math}.
Variable stars : list Star.
Variable skyline : list SkylineSegment.









End SizedFacts.


Lemma animation_loop_single_and_stoppable_witness :
  ∃ s,
    loop_run (H := sample_Math) [] []
      [EffectRuns sample_window 100; EffectCleanup;
       EffectRuns sample_window 180; AnimationFrame 200]
      (loop_mount (Some fresh_context)) = Some s ∧
    (length (requests s) ≤ 1)%nat ∧
    (active s = true →
     ∃ h s', requests s = [h] ∧ animationRef s = Some h ∧
             loop_step (H := sample_Math) [] [] EffectCleanup s = Some s' ∧
             requests s' = [] ∧ listeners s' = 0%nat ∧ active s' = false) ∧
    (active s = false →
     ∀ ts w,
       loop_step (H := sample_Math) [] [] (AnimationFrame ts) s = Some s ∧
       loop_step (H := sample_Math) [] [] (WindowResize w) s = Some s).
Proof.
  eexists. split; [vm_compute; reflexivity|].
  apply (animation_loop_single_and_stoppable (H := sample_Math) [] []
           (Some fresh_context)
           [EffectRuns sample_window 100; EffectCleanup;
            EffectRuns sample_window 180; AnimationFrame 200]).
  vm_compute; reflexivity.
Defined.



(** ** The size of the canvas *)






(** ** The calls of a frame *)

Import CanvasRules.

Lemma Forall_imap_lookup {A B} (P : B → Prop) (f : nat → A → B) (l : list A) :
  (∀ i x, l !! i = Some x → P (f i x)) → Forall P (imap f l).
Proof.
  revert f. induction l as [|x l IH]; intros f Hf; cbn; constructor.
  - by apply (Hf 0%nat).
  - apply IH. intros i y Hi. by apply (Hf (S i)).
Qed.

Lemma Forall_concat_map {A B} (P : B → Prop) (f : A → list B) (l : list A) :
  (∀ x, In x l → Forall P (f x)) → Forall P (concat (map f l)).
Proof.
  intros Hf. apply Forall_concat. apply List.Forall_map.
  apply List.Forall_forall. exact Hf.
Qed.

(** Breaks a goal about all the calls of a routine into one goal for each
    call and one for each loop. *)
Ltac each_call :=
  repeat match goal with
         | |- Forall _ (_ ++ _) => apply Forall_app; split
         | |- Forall _ (_ :: _) => constructor
         | |- Forall _ [] => constructor
         end.

Lemma accepted_drawRoundedRect x y width height radius :
  Forall accepted (drawRoundedRect x y width height radius).
Proof. unfold drawRoundedRect. each_call; exact I. Qed.

Section Accepted.
Context `{Js.Math}.
Hypothesis sin_range : ∀ q, -1 <= Math_sin q ∧ Math_sin q <= 1.

Lemma accepted_drawSky width height stars elapsed :
  Forall (λ star, 0 <= Scene.size star) stars →
  Forall accepted (drawSky width height stars elapsed).
Proof.
  intros Hstars. unfold drawSky. each_call; try exact I.
  - cbn. unfold stops_ok. each_call; cbn; lra.
  - apply Forall_concat, Forall_imap_lookup. intros i star Hi.
    assert (0 <= Scene.size star) as Hsize.
    { rewrite Forall_lookup in Hstars. by apply (Hstars i). }
    destruct (sin_range (elapsed * 0.002 + twinkleOffset star)) as [S1 S2].
    each_call; try exact I; cbn.
    + lra.
    + apply Qmult_le_0_compat; [done|lra].
Qed.

Lemma accepted_drawSkyline width height skyline elapsed :
  Forall accepted (drawSkyline width height skyline elapsed).
Proof.
  unfold drawSkyline. each_call; try exact I.
  apply Forall_concat_map. intros b _. each_call; exact I.
Qed.

Lemma accepted_drawStreet width height elapsed :
  Forall accepted (drawStreet width height elapsed).
Proof.
  unfold drawStreet. each_call; try exact I; cbn; try lra.
  - unfold stops_ok. each_call; cbn; lra.
  - each_call; lra.
Qed.

Lemma accepted_drawLimb originX originY length phase isArm :
  Forall accepted (drawLimb originX originY length phase isArm).
Proof.
  unfold drawLimb. each_call; try exact I; cbn. destruct isArm; lra.
Qed.

Lemma accepted_drawCharacter width height cycleProgress walkPhase :
  Forall accepted (drawCharacter width height cycleProgress walkPhase).
Proof.
  unfold drawCharacter.
  destruct (sin_range (cycleProgress * Math_PI * 2)) as [S1 S2].
  each_call; try exact I; try apply accepted_drawLimb;
    try apply accepted_drawRoundedRect; cbn; lra.
Qed.

Lemma accepted_drawAtmospherics width height elapsed :
  Forall accepted (drawAtmospherics width height elapsed).
Proof.
  unfold drawAtmospherics. each_call; try exact I; cbn; try lra.
  - apply Forall_concat_map. intros i _. each_call; try exact I. cbn.
    split; [lra|]. split; [lra|]. unfold stops_ok. each_call; cbn; lra.
  - apply List.Forall_map. apply List.Forall_forall. intros i _. exact I.
Qed.

(** X15. Every call of a frame is taken as written. If the host's sine
    stays within [[-1, 1]] and no star has a negative size, then in each
    frame that [draw] renders every colour stop has an offset from 0 to 1,
    no arc, ellipse or radial gradient has a negative radius, every alpha
    is from 0 to 1, every line width is positive, no blur or dash length
    is negative and the lightness of the coat is a percentage: no call
    throws, no assignment is ignored and no value is clamped. *)
Theorem frame_calls_accepted stars skyline elapsed :
  Forall (λ star, 0 <= Scene.size star) stars →
  Forall accepted (Render.draw stars skyline elapsed).
Proof.
  intros Hstars. unfold Render.draw, renderFrame. each_call; try exact I.
  - by apply accepted_drawSky.
  - apply accepted_drawSkyline.
  - apply accepted_drawStreet.
  - apply accepted_drawCharacter.
  - apply accepted_drawAtmospherics.
Qed.

End Accepted.


Lemma sample_sin_range q :
  -1 <= Math_sin (Math := sample_Math) q ∧ Math_sin (Math := sample_Math) q <= 1.
Proof.
  cbn. split; [apply Q.le_max_l|].
  apply Q.max_lub; [done|apply Q.le_min_l].
Qed.

Lemma frame_calls_accepted_witness :
  let stars := generateStars (H := sample_Math) (λ _, 1 # 2) 3 in
  Forall (λ star, 0 <= Scene.size star) stars ∧
  Forall accepted
    (Render.draw (H := sample_Math) stars (generateSkyline (λ _, 1 # 2)) 5000).
Proof.
  assert (Forall (λ star, 0 <= Scene.size star)
            (generateStars (H := sample_Math) (λ _, 1 # 2) 3)) as Hstars
    by (repeat constructor; discriminate).
  split; [exact Hstars|].
  exact (frame_calls_accepted (H := sample_Math) sample_sin_range _ _ 5000 Hstars).
Defined.

(** The first hypothesis of [frame_calls_accepted] is needed: a star of
    negative size makes [arc] throw. *)
Remark negative_star_is_rejected :
  ¬ Forall accepted
      (Render.draw (H := sample_Math)
         [{| x := 0; y := 0; Scene.size := -1; twinkleOffset := 0 |}] [] 0).
Proof.
  intros Hall. rewrite Forall_lookup in Hall.
  specialize (Hall 7%nat _ eq_refl). cbn in Hall. revert Hall. vm_compute.
  intros Hle. by apply Hle.
Qed.

(** X16. A rounded rectangle stays inside its box and its corners never
    overlap. For a box of non-negative extent and a non-negative radius,
    the corner radius that [drawRoundedRect] uses is the requested one cut
    down to half the width and half the height; every point of the path,
    control points included, lies in the box; and the path ends where it
    began before it is closed and filled. *)
Theorem rounded_rect_stays_in_box x y width height radius :
  0 <= width → 0 <= height → 0 <= radius →
  ∃ r,
    (0 <= r ∧ r <= radius ∧ r * 2 <= width ∧ r * 2 <= height) ∧
    (radius * 2 <= width → radius * 2 <= height → r == radius) ∧
    Forall (λ c, Forall (within x y width height) (cmd_points c))
      (drawRoundedRect x y width height radius) ∧
    ∃ body,
      drawRoundedRect x y width height radius =
        BeginPath :: Path (MoveTo (x + r) y) :: body ++
          [Path (QuadraticCurveTo x y (x + r) y); Path ClosePath; Fill].
Proof.
  intros Hw Hh Hr. unfold drawRoundedRect.
  assert (Qabs width == width) as Ew by (by apply Qabs_pos).
  assert (Qabs height == height) as Eh by (by apply Qabs_pos).
  set (aw := Qabs width) in *. set (ah := Qabs height) in *.
  clearbody aw ah.
  change (aw / 2) with (aw * (1 # 2)). change (ah / 2) with (ah * (1 # 2)).
  set (r := Qmin (Qmin radius (aw * (1 # 2))) (ah * (1 # 2))).
  assert (r <= radius) as R1
    by (eapply Qle_trans; [apply Q.le_min_l|apply Q.le_min_l]).
  assert (r <= aw * (1 # 2)) as R2
    by (eapply Qle_trans; [apply Q.le_min_l|apply Q.le_min_r]).
  assert (r <= ah * (1 # 2)) as R3 by apply Q.le_min_r.
  assert (0 <= r) as R0.
  { apply Q.min_glb; [apply Q.min_glb; [done|]|]; lra. }
  exists r. split; [lra|]. split.
  { intros A B. apply Qle_antisym; [done|].
    apply Q.min_glb; [apply Q.min_glb; [lra|]|]; lra. }
  split.
  - each_call; cbn; each_call; unfold within; cbn; lra.
  - by exists [Path (LineTo (x + width - r) y);
               Path (QuadraticCurveTo (x + width) y (x + width) (y + r));
               Path (LineTo (x + width) (y + height - r));
               Path (QuadraticCurveTo (x + width) (y + height)
                       (x + width - r) (y + height));
               Path (LineTo (x + r) (y + height));
               Path (QuadraticCurveTo x (y + height) x (y + height - r));
               Path (LineTo x (y + r))].
Qed.

Lemma rounded_rect_stays_in_box_witness :
  ∃ r,
    (0 <= r ∧ r <= 18 ∧ r * 2 <= 48 ∧ r * 2 <= 70) ∧
    (18 * 2 <= 48 → 18 * 2 <= 70 → r == 18) ∧
    Forall (λ c, Forall (within (-24) (-35) 48 70) (cmd_points c))
      (drawRoundedRect (-24) (-35) 48 70 18) ∧
    ∃ body,
      drawRoundedRect (-24) (-35) 48 70 18 =
        BeginPath :: Path (MoveTo (-24 + r) (-35)) :: body ++
          [Path (QuadraticCurveTo (-24) (-35) (-24 + r) (-35));
           Path ClosePath; Fill].
Proof.
  apply (rounded_rect_stays_in_box (-24) (-35) 48 70 18); discriminate.
Defined.


(** ** Where things are drawn *)

Lemma In_generateSkyline random b :
  In b (generateSkyline random) →
  ∃ i, (i < SKYLINE_SEGMENTS)%nat ∧
       base b = of_nat i / of_nat SKYLINE_SEGMENTS ∧
       Scene.width b = 0.08 + random (2 * i)%nat * 0.12 ∧
       Scene.height b = 0.3 + random (2 * i + 1)%nat * 0.25.
Proof.
  unfold generateSkyline. intros Hin. apply in_map_iff in Hin as (i & <- & Hi).
  apply in_seq in Hi. exists i. split; [lia|done].
Qed.

(** X17. The generated skyline and where it is painted. With random
    numbers from [[0, 1)], [generateSkyline] returns twelve buildings; the
    [i]-th starts 80 [i] pixels from the left of the unshifted skyline, is
    at least 76.8 and less than 192 pixels wide, so that a gap of up to
    3.2 pixels can open before the next one. [drawSkyline] fills two
    rectangles per building, the building and a strip of a fifth of its
    width inside it; every one of them stands on the line y = 351, is at
    least 81 and less than 148.5 pixels high and so ends below y = 202.5. *)
Theorem skyline_buildings_shape random elapsed :
  (∀ k, 0 <= random k ∧ random k < 1) →
  let skyline := generateSkyline random in
  length skyline = 12%nat ∧
  (∀ b, In b skyline →
     ∃ i, (i < 12)%nat ∧ base b * CANVAS_WIDTH == 80 * of_nat i ∧
          768 # 10 <= Scene.width b * CANVAS_WIDTH ∧
          Scene.width b * CANVAS_WIDTH < 192) ∧
  length (filled_rects (drawSkyline CANVAS_WIDTH CANVAS_HEIGHT skyline elapsed))
    = 24%nat ∧
  Forall (λ '(x, y, w, h),
            y + h == 351 ∧ 81 <= h ∧ h < 1485 # 10 ∧ 2025 # 10 < y ∧
            0 <= x ∧ 0 < w)
    (filled_rects (drawSkyline CANVAS_WIDTH CANVAS_HEIGHT skyline elapsed)).
Proof.
  intros Hrand skyline. split; [done|]. split; [|split; [done|]].
  - intros b Hb. apply In_generateSkyline in Hb as (i & Hi & Eb & Ew & _).
    exists i. split; [done|]. rewrite Eb, Ew. unfold CANVAS_WIDTH.
    destruct (Hrand (2 * i)%nat) as [R0 R1]. split; [|lra].
    change (of_nat SKYLINE_SEGMENTS) with 12. field.
  - unfold filled_rects, drawSkyline. cbn [app omap list_omap].
    rewrite omap_app. apply Forall_app. split; [|by cbn].
    assert (∀ l : list SkylineSegment,
              (∀ b, In b l → In b skyline) →
              Forall (λ '(x, y, w, h),
                        y + h == 351 ∧ 81 <= h ∧ h < 1485 # 10 ∧
                        2025 # 10 < y ∧ 0 <= x ∧ 0 < w)
                (omap (λ c, match c with
                            | FillRect x y w h => Some (x, y, w, h)
                            | _ => None
                            end)
                   (concat (map (λ building,
                      [ Assign fillStyle (VStyle (Color "#0b1c3f"));
                        FillRect (base building * CANVAS_WIDTH)
                          (CANVAS_HEIGHT * 0.65 -
                           CANVAS_HEIGHT * 0.5 * Scene.height building)
                          (Scene.width building * CANVAS_WIDTH)
                          (CANVAS_HEIGHT * 0.5 * Scene.height building);
                        Assign fillStyle
                          (VStyle (Color "rgba(148, 197, 255, 0.06)"));
                        FillRect (base building * CANVAS_WIDTH +
                                  Scene.width building * CANVAS_WIDTH * 0.1)
                          (CANVAS_HEIGHT * 0.65 -
                           CANVAS_HEIGHT * 0.5 * Scene.height building)
                          (Scene.width building * CANVAS_WIDTH * 0.2)
                          (CANVAS_HEIGHT * 0.5 * Scene.height building) ])
                      l)))) as Hall.
    { induction l as [|b l IH]; intros Hl; [constructor|].
      assert (In b skyline) as Hb by (apply Hl; by left).
      apply In_generateSkyline in Hb as (i & Hi & Eb & Ew & Eh).
      destruct (of_nat_bounds i SKYLINE_SEGMENTS Hi) as [I0 I1].
      change (of_nat SKYLINE_SEGMENTS) with 12 in *.
      destruct (Hrand (2 * i)%nat) as [R0 R1].
      destruct (Hrand (2 * i + 1)%nat) as [T0 T1].
      assert (0 <= base b) as B0.
      { rewrite Eb. apply Qle_shift_div_l; [done|lra]. }
      cbn. constructor; [|constructor; [|apply IH; intros ? ?; apply Hl; by right]].
      all: rewrite Ew, Eh; unfold CANVAS_WIDTH, CANVAS_HEIGHT.
      all: repeat split; try lra.
      all: apply Qmult_le_0_compat; lra || (apply Qmult_le_0_compat; lra). }
    by apply Hall.
Qed.


Lemma skyline_buildings_shape_witness :
  let skyline := generateSkyline (λ _, 1 # 2) in
  length skyline = 12%nat ∧
  (∀ b, In b skyline →
     ∃ i, (i < 12)%nat ∧ base b * CANVAS_WIDTH == 80 * of_nat i ∧
          768 # 10 <= Scene.width b * CANVAS_WIDTH ∧
          Scene.width b * CANVAS_WIDTH < 192) ∧
  length (filled_rects (drawSkyline CANVAS_WIDTH CANVAS_HEIGHT skyline 16000))
    = 24%nat ∧
  Forall (λ '(x, y, w, h),
            y + h == 351 ∧ 81 <= h ∧ h < 1485 # 10 ∧ 2025 # 10 < y ∧
            0 <= x ∧ 0 < w)
    (filled_rects (drawSkyline CANVAS_WIDTH CANVAS_HEIGHT skyline 16000)).
Proof.
  apply (skyline_buildings_shape (λ _, 1 # 2) 16000).
  intros k. split; [discriminate|reflexivity].
Defined.

Section Placement.
Context `{Js.Math}.
Hypothesis sin_range : ∀ q, -1 <= Math_sin q ∧ Math_sin q <= 1.



End Placement.





Section Walker.
Context `{Js.Math}.
Hypothesis sin_range : ∀ q, -1 <= Math_sin q ∧ Math_sin q <= 1.

(** X20. A limb stays near its origin. If the host's sine stays within
    [[-1, 1]], the curve that [drawLimb] strokes for a limb of non-negative
    length starts at the origin of the limb and ends exactly [length]
    below it; its end point and its control point are at most 36 pixels
    to the left or right of the origin, at most 27 for an arm; the
    control point is lifted by at most 12 pixels, and for an arm, which
    has no knee, it is not lifted at all. *)
Theorem limb_stays_near_origin originX originY length phase isArm :
  0 <= length →
  transforms (drawLimb originX originY length phase isArm)
    = [XTranslate originX originY] ∧
  ∃ cpx cpy ex,
    points (drawLimb originX originY length phase isArm)
      = [(0, 0); (cpx, cpy); (ex, length)] ∧
    (Qabs ex <= (if isArm then 27 else 36)) ∧
    (Qabs cpx <= (if isArm then 15 else 18)) ∧
    (length * 0.55 - 12 <= cpy ∧ cpy <= length * 0.55) ∧
    (isArm = true → cpy == length * 0.55).
Proof.
  intros Hlen. split; [reflexivity|]. unfold drawLimb, points. cbn.
  eexists _, _, _. split; [reflexivity|].
  destruct (sin_range phase) as [P1 P2].
  change (Math_PI / 2) with (Math_PI * (1 # 2)).
  destruct (sin_range (phase + Math_PI * (1 # 2))) as [K1 K2].
  set (sp := Math_sin phase) in *.
  set (sk := Math_sin (phase + Math_PI * (1 # 2))) in *.
  assert (0 <= Qmax 0 sk ∧ Qmax 0 sk <= 1) as [M0 M1].
  { split; [apply Q.le_max_l|]. apply Q.max_lub; lra. }
  set (lift := Qmax 0 sk) in *. clearbody sp sk lift.
  destruct isArm.
  - split; [apply Qabs_Qle_condition; split; lra|].
    split; [apply Qabs_Qle_condition; split; lra|].
    split; [split; lra|]. intros _. lra.
  - split; [apply Qabs_Qle_condition; split; lra|].
    split; [apply Qabs_Qle_condition; split; lra|].
    split; [split; lra|]. done.
Qed.

(** X21. The walker stays in the middle of the street. If the host's sine
    stays within [[-1, 1]], [drawCharacter] places the walker at most 12
    pixels to the left or right of the centre of the canvas (x = 480) and
    at most 4 pixels above or below y = 421.2, tilts the body by at most
    a tenth of a radian, hangs both arms 60 pixels above the hip and both
    legs at the hip, and paints the coat with a lightness between 46 and
    58 per cent. *)
Theorem walker_stays_in_place cycleProgress walkPhase :
  ∃ tx ty tilt lightness,
    transforms (drawCharacter CANVAS_WIDTH CANVAS_HEIGHT cycleProgress walkPhase)
      = [XTranslate tx ty; XTranslate 0 (-140); XRotate tilt;
         XTranslate 0 (-60); XTranslate 0 (-60);
         XTranslate 0 0; XTranslate 0 0] ∧
    (468 <= tx ∧ tx <= 492) ∧
    (4172 # 10 <= ty ∧ ty <= 4252 # 10) ∧
    (- (1 # 10) <= tilt ∧ tilt <= 1 # 10) ∧
    In (VStyle (Hsl 199 88 lightness))
      (assigned fillStyle
         (drawCharacter CANVAS_WIDTH CANVAS_HEIGHT cycleProgress walkPhase)) ∧
    (46 <= lightness ∧ lightness <= 58).
Proof.
  destruct (sin_range walkPhase) as [A1 A2].
  destruct (sin_range (walkPhase * 2)) as [B1 B2].
  destruct (sin_range (cycleProgress * Math_PI * 2)) as [C1 C2].
  exists (CANVAS_WIDTH * 0.5 + Math_sin walkPhase * 20 * 0.6),
         (CANVAS_HEIGHT * 0.78 - Math_sin (walkPhase * 2) * 4),
         (Math_sin walkPhase * 0.1),
         (52 + Math_sin (cycleProgress * Math_PI * 2) * 6).
  split; [reflexivity|].
  unfold CANVAS_WIDTH, CANVAS_HEIGHT.
  split; [split; lra|]. split; [split; lra|]. split; [split; lra|].
  split; [|split; lra].
  replace (assigned fillStyle
             (drawCharacter 960 540 cycleProgress walkPhase))
    with [VStyle (Color "#1e293b"); VStyle (Color "#38bdf8");
          VStyle (Hsl 199 88
                    (52 + Math_sin (cycleProgress * Math_PI * 2) * 6));
          VStyle (Color "#f8fafc")] by reflexivity.
  right. right. left. reflexivity.
Qed.

End Walker.


Lemma limb_stays_near_origin_witness :
  0 <= 28 ∧
  transforms (drawLimb (H := sample_Math) 0 0 28 1 false) = [XTranslate 0 0] ∧
  ∃ cpx cpy ex,
    points (drawLimb (H := sample_Math) 0 0 28 1 false)
      = [(0, 0); (cpx, cpy); (ex, 28)] ∧
    (Qabs ex <= (if false then 27 else 36)) ∧
    (Qabs cpx <= (if false then 15 else 18)) ∧
    (28 * 0.55 - 12 <= cpy ∧ cpy <= 28 * 0.55) ∧
    (false = true → cpy == 28 * 0.55).
Proof.
  assert (0 <= 28) as Hlen by discriminate.
  split; [exact Hlen|].
  exact (limb_stays_near_origin (H := sample_Math) sample_sin_range
           0 0 28 1 false Hlen).
Defined.

Lemma walker_stays_in_place_witness :
  (∀ q, -1 <= Math_sin (Math := sample_Math) q ∧
        Math_sin (Math := sample_Math) q <= 1) ∧
  ∃ tx ty tilt lightness,
    transforms (drawCharacter (H := sample_Math) CANVAS_WIDTH CANVAS_HEIGHT
                  (1 # 4) (1 # 2))
      = [XTranslate tx ty; XTranslate 0 (-140); XRotate tilt;
         XTranslate 0 (-60); XTranslate 0 (-60);
         XTranslate 0 0; XTranslate 0 0] ∧
    (468 <= tx ∧ tx <= 492) ∧
    (4172 # 10 <= ty ∧ ty <= 4252 # 10) ∧
    (- (1 # 10) <= tilt ∧ tilt <= 1 # 10) ∧
    In (VStyle (Hsl 199 88 lightness))
      (assigned fillStyle
         (drawCharacter (H := sample_Math) CANVAS_WIDTH CANVAS_HEIGHT
            (1 # 4) (1 # 2))) ∧
    (46 <= lightness ∧ lightness <= 58).
Proof.
  split; [exact sample_sin_range|].
  exact (walker_stays_in_place (H := sample_Math) sample_sin_range
           (1 # 4) (1 # 2)).
Defined.

Section Haze.
Context `{Js.Math}.
Hypothesis sin_range : ∀ q, -1 <= Math_sin q ∧ Math_sin q <= 1.
Hypothesis cos_range : ∀ q, -1 <= Math_cos q ∧ Math_cos q <= 1.

(** X22. The haze stays on the street. If the host's sine and cosine stay
    within [[-1, 1]], [drawAtmospherics] fills five squares of 360 pixels,
    the [k]-th centred at most 40 pixels to the left or right of x = 192 k
    and at most 10 pixels above or below y = 334.8, and strokes one
    polyline through 120 points, the [k]-th at x = 8 k and at most 10
    pixels above or below y = 405: the line starts at the left edge and
    ends at x = 952, eight pixels short of the right edge. *)
Theorem haze_stays_on_the_street elapsed :
  let cmds := drawAtmospherics CANVAS_WIDTH CANVAS_HEIGHT elapsed in
  ∃ gx gy wave,
    filled_rects cmds =
      map (λ k, (gx k - 180, gy k - 180, 360, 360)) (seq 0 5) ∧
    (∀ k, - 40 <= gx k - 192 * of_nat k ∧ gx k - 192 * of_nat k <= 40) ∧
    (∀ k, 3248 # 10 <= gy k ∧ gy k <= 3448 # 10) ∧
    points cmds = map (λ k, (of_nat k * 8, wave k)) (seq 0 120) ∧
    (∀ k, 395 <= wave k ∧ wave k <= 415).
Proof.
  intros cmds.
  exists (λ k, of_nat k * 1 / 5 * CANVAS_WIDTH +
               Math_sin (elapsed * 0.0004 + of_nat k * 1) * 40),
         (λ k, CANVAS_HEIGHT * 0.62 +
               Math_cos (elapsed * 0.0007 + of_nat k * 1) * 10),
         (λ k, CANVAS_HEIGHT * 0.75 +
               Math_sin (of_nat k * 8 * 0.02 + elapsed * 0.004) * 6 +
               Math_sin (of_nat k * 8 * 0.05 + elapsed * 0.002) * 4).
  split; [reflexivity|]. split; [|split; [|split; [reflexivity|]]].
  - intros k.
    destruct (sin_range (elapsed * 0.0004 + of_nat k * 1)) as [S1 S2].
    assert (of_nat k * 1 / 5 * CANVAS_WIDTH == 192 * of_nat k) as E
      by (unfold CANVAS_WIDTH; field).
    split; lra.
  - intros k.
    destruct (cos_range (elapsed * 0.0007 + of_nat k * 1)) as [S1 S2].
    unfold CANVAS_HEIGHT. split; lra.
  - intros k.
    destruct (sin_range (of_nat k * 8 * 0.02 + elapsed * 0.004)) as [S1 S2].
    destruct (sin_range (of_nat k * 8 * 0.05 + elapsed * 0.002)) as [T1 T2].
    unfold CANVAS_HEIGHT. split; lra.
Qed.

End Haze.

Lemma sample_cos_range q :
  -1 <= Math_cos (Math := sample_Math) q ∧ Math_cos (Math := sample_Math) q <= 1.
Proof.
  cbn. split; [apply Q.le_max_l|].
  apply Q.max_lub; [done|apply Q.le_min_l].
Qed.

Lemma haze_stays_on_the_street_witness :
  (∀ q, -1 <= Math_cos (Math := sample_Math) q ∧
        Math_cos (Math := sample_Math) q <= 1) ∧
  let cmds :=
    drawAtmospherics (H := sample_Math) CANVAS_WIDTH CANVAS_HEIGHT 5000 in
  ∃ gx gy wave,
    filled_rects cmds =
      map (λ k, (gx k - 180, gy k - 180, 360, 360)) (seq 0 5) ∧
    (∀ k, - 40 <= gx k - 192 * of_nat k ∧ gx k - 192 * of_nat k <= 40) ∧
    (∀ k, 3248 # 10 <= gy k ∧ gy k <= 3448 # 10) ∧
    points cmds = map (λ k, (of_nat k * 8, wave k)) (seq 0 120) ∧
    (∀ k, 395 <= wave k ∧ wave k <= 415).
Proof.
  split; [exact sample_cos_range|].
  exact (haze_stays_on_the_street (H := sample_Math) sample_sin_range
           sample_cos_range 5000).
Defined.


End RenderExtras.
